(** * cdetect: detection of cyclic #include dependencies

    A shallow embedding of [cdetect.py] and the verification of its
    specification.  The script has three phases:
    - the edge extractor: three regular expressions ([commentRE],
      [includeRE], [filenameRE]) applied to the text of a header;
    - graph construction: the class-level registry [Node.nodes], filled by
      [constructGraph] and [Node.addLink];
    - Tarjan's algorithm, run by [main] on every node of the registry.

    Modelling conventions.
    - A Python [str] is a [string] (a sequence of 8-bit characters).
    - A [Node] object is identified with its position in [Node.nodes]:
      every node the script creates is appended to that list at once and
      the list never shrinks, so the position is the object's identity.
      [links] therefore holds positions.
    - Python integers are unbounded: [index], [lowlink] and
      [Node.indexCount] are in [Z].
    - [Node.nodeStack] is kept top first: [append] is a cons, [pop] removes
      the head.
    - [print] appends finished lines to [output].
    - The recursion of [tarjan] is bounded by a fuel argument; the theorems
      show that the number of nodes is always enough fuel.  [detect] and
      [main] give the recursion that depth; [detect_within] and [main_io]
      take the depth that the interpreter allows as an argument.
    - [constructGraph] and [main] take a directory whose headers [open]
      can all read: each entry with its text.  [constructGraph_io] and
      [main_io] take any directory: an entry that [open] refuses has no
      text, and the call raises. *)

From Stdlib Require Import ZArith String Ascii List Lia Bool.
From stdpp Require Import base tactics option relations list strings.

Local Open Scope string_scope.
Local Open Scope Z_scope.
Local Open Scope list_scope.

(** ** Characters and strings *)

Definition dquote : ascii := "034"%char.
Definition LF : ascii := "010"%char.
Definition CR : ascii := "013"%char.

Definition char_between (lo hi c : ascii) : bool :=
  (nat_of_ascii lo <=? nat_of_ascii c)%nat && (nat_of_ascii c <=? nat_of_ascii hi)%nat.

(** [prefix_rest p s]: when [s] starts with [p], what follows [p]. *)
Fixpoint prefix_rest (p s : string) : option string :=
  match p with
  | EmptyString => Some s
  | String a p' =>
      match s with
      | EmptyString => None
      | String b s' => if Ascii.eqb a b then prefix_rest p' s' else None
      end
  end.

(** [str.endswith]. *)
Definition endswith (s suffix : string) : bool :=
  let n := String.length s in
  let m := String.length suffix in
  (m <=? n)%nat && String.eqb (substring (n - m) m s) suffix.

(** ** The regular expressions

    Each compiled pattern of the script is embedded as the matcher that
    Python's backtracking engine computes for it, at the one call the
    script makes ([re.sub], [re.findall], [re.search]). *)

Module Re.

(** *** [commentRE = (/\*(?:.|[\r\n])*?\*/)|(//.*[\r\n])] *)

(** [(?:.|[\r\n])*?\*/] at the head of [s]: the lazy star tries the closing
    [*/] first and consumes one more character (any character: [.] is all
    but LF, the class adds it) only when that fails.  The result is the
    number of characters matched. *)
Fixpoint block_close (s : string) : option nat :=
  match s with
  | EmptyString => None
  | String c s' =>
      match prefix_rest "*/" s with
      | Some _ => Some 2%nat
      | None => S <$> block_close s'
      end
  end.

(** [.*[\r\n]] at the head of [s]: the greedy star first extends over [c]
    (when [c] is not LF); only when no longer match exists does it stop
    before [c], which must then be CR or LF. *)
Fixpoint line_close (s : string) : option nat :=
  match s with
  | EmptyString => None
  | String c s' =>
      if Ascii.eqb c LF then Some 1%nat
      else match line_close s' with
           | Some k => Some (S k)
           | None => if Ascii.eqb c CR then Some 1%nat else None
           end
  end.

(** Length of the match of [commentRE] at the head of [s].  The two
    alternatives start with different two-character prefixes, so the order
    of the alternation never matters. *)
Definition commentRE_match (s : string) : option nat :=
  match prefix_rest "/*" s with
  | Some r => (fun k => 2 + k)%nat <$> block_close r
  | None =>
      match prefix_rest "//" s with
      | Some r => (fun k => 2 + k)%nat <$> line_close r
      | None => None
      end
  end.

(** [re.sub] of [commentRE] by the empty string: scan left to right; a match at the current
    position is dropped and scanning resumes after it; otherwise the
    character is kept.  [skip] counts the characters of the current match
    still to drop. *)
Fixpoint sub_comments (skip : nat) (s : string) : string :=
  match s with
  | EmptyString => EmptyString
  | String c s' =>
      match skip with
      | S k => sub_comments k s'
      | O =>
          match commentRE_match s with
          | Some (S k) => sub_comments k s'
          | _ => String c (sub_comments 0 s')
          end
      end
  end.

(** *** [includeRE]: the text [#include], a space, a double quote, [.*]
    and a double quote *)

(** [.*] followed by a double quote, at the head of [s], greedy: the text
    matched, up to and including the last double quote of the line. *)
Fixpoint to_last_quote (s : string) : option string :=
  match s with
  | EmptyString => None
  | String c s' =>
      if Ascii.eqb c LF then None
      else match to_last_quote s' with
           | Some m => Some (String c m)
           | None => if Ascii.eqb c dquote then Some (String c EmptyString) else None
           end
  end.

Definition include_open : string := "#include " +:+ String dquote EmptyString.

Definition includeRE_match (s : string) : option string :=
  match prefix_rest include_open s with
  | Some r => String.append include_open <$> to_last_quote r
  | None => None
  end.

(** [re.findall(includeRE, s)]: the matches, left to right, not
    overlapping. *)
Fixpoint findall_includes (skip : nat) (s : string) : list string :=
  match s with
  | EmptyString => []
  | String c s' =>
      match skip with
      | S k => findall_includes k s'
      | O =>
          match includeRE_match s with
          | Some m => m :: findall_includes (String.length m - 1) s'
          | None => findall_includes 0 s'
          end
      end
  end.

(** *** [filenameRE = [a-zA-z]*\.(hpp|h)] *)

(** The character class as written: the ranges [a-z] and [A-z]. *)
Definition filename_class (c : ascii) : bool :=
  char_between "a" "z" c || char_between "A" "z" c.

(** The greedy run [[a-zA-z]*] at the head of [s], and what follows it. *)
Fixpoint class_run (s : string) : string * string :=
  match s with
  | EmptyString => (EmptyString, EmptyString)
  | String c s' =>
      if filename_class c
      then let '(run, rest) := class_run s' in (String c run, rest)
      else (EmptyString, s)
  end.

(** [\.(hpp|h)] at the head of [s]: [hpp] is tried first. *)
Definition extension_match (s : string) : option string :=
  match prefix_rest ".hpp" s with
  | Some _ => Some ".hpp"
  | None => match prefix_rest ".h" s with
            | Some _ => Some ".h"
            | None => None
            end
  end.

(** A match at the head of [s].  Only the longest run has to be tried: a
    shorter one is followed by a character of the class, never by a dot. *)
Definition filenameRE_match (s : string) : option string :=
  let '(run, rest) := class_run s in
  String.append run <$> extension_match rest.

(** [re.search(filenameRE, s)]: the leftmost match, [None] when there is
    none. *)
Fixpoint filenameRE_search (s : string) : option string :=
  match filenameRE_match s with
  | Some m => Some m
  | None =>
      match s with
      | EmptyString => None
      | String _ s' => filenameRE_search s'
      end
  end.

End Re.

(** [stripComments]. *)
Definition stripComments (input : string) : string := Re.sub_comments 0 input.

(** [isValidFile]. *)
Definition isValidFile (file : string) : bool :=
  endswith file ".h" || endswith file ".hpp".

(** ** Exceptions

    The uncaught Python exceptions the modelled code can raise.
    [RecursionError] stands for the interpreter giving up on a recursion
    that is too deep; in the model it is raised when the fuel runs out.
    [IOError] is what [open] raises on a directory or on a file that
    cannot be read. *)

Inductive exn : Set :=
  | AttributeError   (* [None] has no attribute [group] *)
  | IndexError       (* pop from empty list *)
  | RecursionError
  | IOError.         (* [open] on an entry that cannot be read *)

Inductive result (A : Type) : Type :=
  | Ok (a : A)
  | Raise (e : exn).
Arguments Ok {A} a.
Arguments Raise {A} e.

#[global] Instance result_bind : MBind result := fun A B k r =>
  match r with
  | Ok a => k a
  | Raise e => Raise e
  end.

(** ** The graph *)

Record Node : Type := mkNode {
  name : string;
  links : list nat;
  index : Z;
  lowlink : Z
}.

(** [Node.__init__]. *)
Definition new_node (n : string) : Node :=
  {| name := n; links := []; index := -1; lowlink := 0 |}.

(** [Node.inNodes]: the first node of the registry named [n]; Python's
    [False] is [None]. *)
Fixpoint inNodes (nodes : list Node) (n : string) : option nat :=
  match nodes with
  | [] => None
  | node :: rest =>
      if String.eqb n (name node) then Some 0%nat else S <$> inNodes rest n
  end.

Definition append_link (target : nat) (node : Node) : Node :=
  {| name := name node; links := links node ++ [target];
     index := index node; lowlink := lowlink node |}.

(** [Node.addLink], called on the node at position [self]. *)
Definition addLink (self : nat) (n : string) (nodes : list Node) : list Node :=
  match inNodes nodes n with
  | Some test => alter (append_link test) self nodes
  | None =>
      let newNode := length nodes in
      alter (append_link newNode) self (nodes ++ [new_node n])
  end.

(** The inner loop of [constructGraph]: one [addLink] per matched
    directive.  [re.search] yields [None] when the directive holds no
    file name, and calling [group] on it raises. *)
Fixpoint add_includes (node : nat) (incs : list string) (nodes : list Node)
  : result (list Node) :=
  match incs with
  | [] => Ok nodes
  | inc :: rest =>
      match Re.filenameRE_search inc with
      | None => Raise AttributeError
      | Some f => add_includes node rest (addLink node f nodes)
      end
  end.

(** The directives of a header, comments stripped. *)
Definition includes_of (text : string) : list string :=
  Re.findall_includes 0 (stripComments text).

(** The body of the outer loop of [constructGraph] for one file. *)
Definition scan_file (filename text : string) (nodes : list Node)
  : result (list Node) :=
  match inNodes nodes filename with
  | Some node => add_includes node (includes_of text) nodes
  | None =>
      add_includes (length nodes) (includes_of text) (nodes ++ [new_node filename])
  end.

Fixpoint scan_files (files : list (string * string)) (nodes : list Node)
  : result (list Node) :=
  match files with
  | [] => Ok nodes
  | (filename, text) :: rest =>
      nodes' ← scan_file filename text nodes;
      scan_files rest nodes'
  end.

(** [constructGraph], in a directory whose headers can all be opened and
    read.  The target directory is given by its listing, in the order of
    [os.listdir]: each entry with the text that [open] and [read] give for
    it.  [constructGraph_io] below takes the entries that [open] refuses
    as well. *)
Definition constructGraph (target : list (string * string)) : result (list Node) :=
  scan_files (List.filter (fun entry => isValidFile (fst entry)) target) [].

(** ** Tarjan's algorithm *)

Record state : Type := mkState {
  nodes : list Node;          (* Node.nodes *)
  nodeStack : list nat;       (* Node.nodeStack, top first *)
  indexCount : Z;             (* Node.indexCount *)
  output : list string;       (* the lines printed so far *)
  cyclesDetected : bool
}.

Definition index_of (st : state) (v : nat) : Z :=
  match nodes st !! v with Some node => index node | None => -1 end.

Definition lowlink_of (st : state) (v : nat) : Z :=
  match nodes st !! v with Some node => lowlink node | None => 0 end.

Definition links_of (st : state) (v : nat) : list nat :=
  match nodes st !! v with Some node => links node | None => [] end.

Definition name_of (st : state) (v : nat) : string :=
  match nodes st !! v with Some node => name node | None => EmptyString end.

Definition with_index (i : Z) (node : Node) : Node :=
  {| name := name node; links := links node; index := i; lowlink := lowlink node |}.

Definition with_lowlink (l : Z) (node : Node) : Node :=
  {| name := name node; links := links node; index := index node; lowlink := l |}.

Definition set_index (v : nat) (i : Z) (st : state) : state :=
  {| nodes := alter (with_index i) v (nodes st); nodeStack := nodeStack st;
     indexCount := indexCount st; output := output st;
     cyclesDetected := cyclesDetected st |}.

Definition set_lowlink (v : nat) (l : Z) (st : state) : state :=
  {| nodes := alter (with_lowlink l) v (nodes st); nodeStack := nodeStack st;
     indexCount := indexCount st; output := output st;
     cyclesDetected := cyclesDetected st |}.

Definition incr_indexCount (st : state) : state :=
  {| nodes := nodes st; nodeStack := nodeStack st;
     indexCount := indexCount st + 1; output := output st;
     cyclesDetected := cyclesDetected st |}.

Definition set_stack (stack : list nat) (st : state) : state :=
  {| nodes := nodes st; nodeStack := stack;
     indexCount := indexCount st; output := output st;
     cyclesDetected := cyclesDetected st |}.

Definition push (v : nat) (st : state) : state := set_stack (v :: nodeStack st) st.

(** [child in Node.nodeStack]. *)
Definition on_stack (st : state) (v : nat) : bool :=
  existsb (Nat.eqb v) (nodeStack st).

(** The first four statements of [tarjan]. *)
Definition enter (n : nat) (st : state) : state :=
  push n (incr_indexCount
    (set_lowlink n (indexCount st) (set_index n (indexCount st) st))).

(** The loop over [n.links]; [rec] is the recursive call. *)
Fixpoint visit_children (rec : nat -> state -> result state)
    (n : nat) (children : list nat) (st : state) : result state :=
  match children with
  | [] => Ok st
  | child :: rest =>
      if index_of st child =? -1 then
        st' ← rec child st;
        visit_children rec n rest
          (set_lowlink n (Z.min (lowlink_of st' n) (lowlink_of st' child)) st')
      else if on_stack st child then
        visit_children rec n rest
          (set_lowlink n (Z.min (lowlink_of st n) (index_of st child)) st)
      else visit_children rec n rest st
  end.

(** The pops that build [cycle]: the first one, then one more for as long
    as the last node popped is not [n].  The result is [cycle] and what is
    left of the stack. *)
Fixpoint pop_cycle (n : nat) (stack : list nat) : result (list nat * list nat) :=
  match stack with
  | [] => Raise IndexError
  | top :: rest =>
      if Nat.eqb top n then Ok ([top], rest)
      else
        '(cycle, rest') ← pop_cycle n rest;
        Ok (top :: cycle, rest')
  end.

(** The line printed for a cycle: every name followed by an arrow, the
    items separated by the blank that a trailing comma makes [print] write,
    then the first name again. *)
Definition chain (names : list string) : string :=
  fold_right (fun nm line => nm +:+ " <- " +:+ line)
             (hd EmptyString names) names.

Definition report (cycle : list nat) (st : state) : state :=
  {| nodes := nodes st; nodeStack := nodeStack st; indexCount := indexCount st;
     output := output st ++ ["Cyclic dependency detected:";
                             chain (name_of st <$> cycle)];
     cyclesDetected := true |}.

(** The end of [tarjan]: the test on [lowlink] and what it guards. *)
Definition close_component (n : nat) (st : state) : result state :=
  if lowlink_of st n =? index_of st n then
    '(cycle, rest) ← pop_cycle n (nodeStack st);
    let st' := set_stack rest st in
    if (1 <? length cycle)%nat then Ok (report cycle st') else Ok st'
  else Ok st.

Fixpoint tarjan (fuel : nat) (n : nat) (st : state) : result state :=
  match fuel with
  | O => Raise RecursionError
  | S fuel' =>
      st' ← visit_children (tarjan fuel') n (links_of st n) (enter n st);
      close_component n st'
  end.

(** ** [main] *)

Definition initial (g : list Node) : state :=
  {| nodes := g; nodeStack := []; indexCount := 0; output := [];
     cyclesDetected := false |}.

(** The loop [for node in Node.nodes: tarjan(node)]. *)
Fixpoint run_roots (fuel : nat) (roots : list nat) (st : state) : result state :=
  match roots with
  | [] => Ok st
  | node :: rest =>
      st' ← tarjan fuel node st;
      run_roots fuel rest st'
  end.

Definition summary (st : state) : list string :=
  if cyclesDetected st then output st
  else output st ++ ["No cyclic dependencies detected."].

(** Everything [main] does once the graph is built; the result is what was
    printed. *)
Definition detect (g : list Node) : result (list string) :=
  st ← run_roots (length g) (seq 0 (length g)) (initial g);
  Ok (summary st).

(** [main], after the checks of its argument. *)
Definition main (target : list (string * string)) : result (list string) :=
  g ← constructGraph target;
  detect g.

(** ** Entries that cannot be read, and the depth of the recursion

    The definitions above take a directory whose headers can all be read,
    and give the recursion of [tarjan] the depth it needs.  The next ones
    take what else the script can meet: an entry with the name of a header
    that [open] refuses (a subdirectory, a file without the permission to
    read it), and an interpreter that allows [tarjan] a given depth of
    recursion only. *)

(** The outer loop of [constructGraph] over the entries of any directory:
    each entry comes with the text that [open] and [read] give for it, or
    with [None] when [open] raises.  The file is opened before anything
    else is done for it. *)
Fixpoint scan_entries (entries : list (string * option string)) (nodes : list Node)
  : result (list Node) :=
  match entries with
  | [] => Ok nodes
  | (filename, content) :: rest =>
      match content with
      | None => Raise IOError
      | Some text =>
          nodes' ← scan_file filename text nodes;
          scan_entries rest nodes'
      end
  end.

(** [constructGraph], in any directory. *)
Definition constructGraph_io (target : list (string * option string))
  : result (list Node) :=
  scan_entries (List.filter (fun entry => isValidFile (fst entry)) target) [].

(** The listing of a directory whose entries can all be read. *)
Definition readable (target : list (string * string)) : list (string * option string) :=
  (fun entry => (fst entry, Some (snd entry))) <$> target.

(** [detect] under an interpreter that allows [tarjan] the depth [limit]. *)
Definition detect_within (limit : nat) (g : list Node) : result (list string) :=
  st ← run_roots limit (seq 0 (length g)) (initial g);
  Ok (summary st).

(** [main], after the checks of its argument, in any directory and under
    an interpreter that allows [tarjan] the depth [limit]. *)
Definition main_io (limit : nat) (target : list (string * option string))
  : result (list string) :=
  g ← constructGraph_io target;
  detect_within limit g.

(** ** Sample inputs *)

Definition quoted (s : string) : string :=
  String dquote (s +:+ String dquote EmptyString).

(** A line holding one directive for [file]. *)
Definition include_line (file : string) : string :=
  "#include " +:+ quoted file +:+ String LF EmptyString.

(** ** Properties of the registry *)

(** No two nodes of the registry share a name, and every link points into
    the registry. *)
Definition registry_ok (nodes : list Node) : Prop :=
  NoDup (name <$> nodes) ∧
  Forall (fun node => Forall (fun t => (t < length nodes)%nat) (links node)) nodes.

(** Position [i] holds the node named [n]. *)
Definition named (nodes : list Node) (i : nat) (n : string) : Prop :=
  name <$> nodes !! i = Some n.

(** The file names that [constructGraph] extracts from a header: one per
    directive, when every directive holds one. *)
Definition extracted (text : string) (f : string) : Prop :=
  ∃ inc, inc ∈ includes_of text ∧ Re.filenameRE_search inc = Some f.

Definition is_letter (c : ascii) : bool :=
  char_between "a" "z" c || char_between "A" "Z" c.

(** [leaves_outside scanned nodes]: only nodes named in [scanned] have
    outgoing links. *)
Definition leaves_outside (scanned : list string) (nodes : list Node) : Prop :=
  ∀ node, node ∈ nodes → links node ≠ [] → name node ∈ scanned.

(** ** The graph of a registry, and its components *)

(** The links of the node at position [v]. *)
Definition succ (g : list Node) (v : nat) : list nat :=
  match g !! v with Some node => links node | None => [] end.

Definition edge (g : list Node) (u v : nat) : Prop := v ∈ succ g u.

Definition reach (g : list Node) : relation nat := rtc (edge g).

(** [u] and [v] lie in the same strongly connected component. *)
Definition connected (g : list Node) (u v : nat) : Prop :=
  reach g u v ∧ reach g v u.

(** [grp] lists the nodes of one strongly connected component. *)
Definition is_scc (g : list Node) (grp : list nat) : Prop :=
  ∃ r, ∀ v, v ∈ grp ↔ connected g r v.

(** No node lies on a directed cycle, self-loops included. *)
Definition acyclic (g : list Node) : Prop := ∀ v, ¬ tc (edge g) v v.

(** The graph as [constructGraph] leaves it: every link points into the
    registry and no node has been numbered yet. *)
Definition fresh_graph (g : list Node) : Prop :=
  Forall (fun node => index node = -1 ∧
                      Forall (fun t => (t < length g)%nat) (links node)) g.

(** What [tarjan] prints for a popped component. *)
Definition cycle_lines (g : list Node) (grp : list nat) : list string :=
  if (1 <? length grp)%nat
  then ["Cyclic dependency detected:"; chain (name_of (initial g) <$> grp)]
  else [].

(** ** Invariants of the traversal *)

(** The state between two steps of a traversal of [g].  A node is visited
    when its index is not the sentinel. *)
Record inv (g : list Node) (st : state) : Prop := {
  inv_length : length (nodes st) = length g;
  inv_links : ∀ v, links_of st v = succ g v;
  inv_names : ∀ v, name_of st v = name_of (initial g) v;
  inv_count : 0 ≤ indexCount st;
  inv_index : ∀ v, index_of st v < indexCount st;
  inv_nodup : NoDup (nodeStack st);
  inv_stack : ∀ v, v ∈ nodeStack st → index_of st v ≠ -1;
  (* the visited nodes that left the stack are closed under the edges *)
  inv_closed : ∀ v w, index_of st v ≠ -1 → v ∉ nodeStack st → edge g v w →
                      index_of st w ≠ -1 ∧ w ∉ nodeStack st
}.

(** What a call [tarjan(n)] on an unvisited node achieves, from [st] to
    [st']: [new] is what the call leaves on the stack, [groups] are the
    components it popped, in order. *)
Record visit_post (g : list Node) (n : nat) (st st' : state)
    (new : list nat) (groups : list (list nat)) : Prop := {
  vp_inv : inv g st';
  vp_frame : ∀ v, index_of st v ≠ -1 →
               index_of st' v = index_of st v ∧ lowlink_of st' v = lowlink_of st v;
  vp_range : ∀ v, index_of st v = -1 →
               index_of st' v = -1 ∨ indexCount st ≤ index_of st' v;
  vp_index : index_of st' n = indexCount st;
  vp_count : indexCount st < indexCount st';
  vp_low_le : lowlink_of st' n ≤ index_of st' n;
  vp_stack : nodeStack st' = new ++ nodeStack st;
  vp_popped : new = [] → lowlink_of st' n = index_of st' n;
  vp_kept : new ≠ [] →
      n ∈ new ∧ lowlink_of st' n < index_of st' n ∧
      ∃ w, w ∈ nodeStack st ∧ index_of st w = lowlink_of st' n ∧ reach g n w;
  vp_new : ∀ d, d ∈ new →
      connected g n d ∧ lowlink_of st' n ≤ lowlink_of st' d ∧
      ∀ w, edge g d w →
        index_of st' w ≠ -1 ∧ (w ∈ nodeStack st → lowlink_of st' d ≤ index_of st w);
  vp_fresh : ∀ v, indexCount st ≤ index_of st' v ↔ v ∈ new ∨ v ∈ concat groups;
  vp_nodup : NoDup (concat groups);
  vp_off : ∀ v, v ∈ concat groups → v ∉ nodeStack st';
  vp_sccs : Forall (is_scc g) groups;
  vp_output : output st' = output st ++ flat_map (cycle_lines g) groups;
  vp_detected : cyclesDetected st' =
                cyclesDetected st || existsb (fun grp => (1 <? length grp)%nat) groups
}.

(** The invariant of the loop over [n.links]: [st] is the state in which
    [tarjan(n)] was called, [sti] the current one, [seen] the links already
    handled. *)
Record loop_inv (g : list Node) (n : nat) (st : state) (seen : list nat)
    (sti : state) (new : list nat) (groups : list (list nat)) : Prop := {
  li_inv : inv g sti;
  li_frame : ∀ v, index_of st v ≠ -1 →
               index_of sti v = index_of st v ∧ lowlink_of sti v = lowlink_of st v;
  li_range : ∀ v, index_of st v = -1 →
               index_of sti v = -1 ∨ indexCount st ≤ index_of sti v;
  li_index : index_of sti n = indexCount st;
  li_count : indexCount st < indexCount sti;
  li_low_le : lowlink_of sti n ≤ index_of sti n;
  li_stack : nodeStack sti = new ++ n :: nodeStack st;
  li_low_wit : ∃ w, w ∈ nodeStack sti ∧ index_of sti w = lowlink_of sti n ∧ reach g n w;
  li_new : ∀ d, d ∈ new →
      connected g n d ∧ lowlink_of sti n ≤ lowlink_of sti d ∧
      ∀ w, edge g d w →
        index_of sti w ≠ -1 ∧ (w ∈ nodeStack st → lowlink_of sti d ≤ index_of st w);
  li_seen : ∀ w, w ∈ seen →
      index_of sti w ≠ -1 ∧ (w ∈ nodeStack st → lowlink_of sti n ≤ index_of st w);
  li_fresh : ∀ v, indexCount st ≤ index_of sti v ↔ v = n ∨ v ∈ new ∨ v ∈ concat groups;
  li_nodup : NoDup (concat groups);
  li_off : ∀ v, v ∈ concat groups → v ∉ nodeStack sti;
  li_sccs : Forall (is_scc g) groups;
  li_output : output sti = output st ++ flat_map (cycle_lines g) groups;
  li_detected : cyclesDetected sti =
                cyclesDetected st || existsb (fun grp => (1 <? length grp)%nat) groups
}.

(** What a call [tarjan(n)] on an unvisited node may assume: every node on
    the stack reaches [n], and the fuel covers the nodes not yet on the
    stack. *)
Definition visit_pre (g : list Node) (n : nat) (st : state) (fuel : nat) : Prop :=
  inv g st ∧ index_of st n = -1 ∧ (n < length g)%nat ∧
  (∀ x, x ∈ nodeStack st → reach g x n) ∧
  (length g ≤ fuel + length (nodeStack st))%nat.

(** The state between two calls of the loop of [main]: the stack is empty,
    and [groups] are the components popped so far, which hold exactly the
    visited nodes. *)
Record top_inv (g : list Node) (st : state) (groups : list (list nat)) : Prop := {
  ti_inv : inv g st;
  ti_stack : nodeStack st = [];
  ti_visited : ∀ v, index_of st v ≠ -1 ↔ v ∈ concat groups;
  ti_nodup : NoDup (concat groups);
  ti_sccs : Forall (is_scc g) groups;
  ti_output : output st = flat_map (cycle_lines g) groups;
  ti_detected : cyclesDetected st = existsb (fun grp => (1 <? length grp)%nat) groups
}.

(** ** The points of a run

    The states a call of [tarjan] passes through: one after each statement
    that changes the state, in order.  These functions follow [tarjan]
    statement by statement and take every state from it. *)

Definition enter_points (n : nat) (st : state) : list state :=
  let st1 := set_index n (indexCount st) st in
  let st2 := set_lowlink n (indexCount st) st1 in
  let st3 := incr_indexCount st2 in
  [st1; st2; st3; push n st3].

Fixpoint children_points (rec : nat -> state -> result state)
    (rec_points : nat -> state -> list state)
    (n : nat) (children : list nat) (st : state) : list state :=
  match children with
  | [] => []
  | child :: rest =>
      if index_of st child =? -1 then
        rec_points child st ++
        match rec child st with
        | Ok st' =>
            let st'' :=
              set_lowlink n (Z.min (lowlink_of st' n) (lowlink_of st' child)) st' in
            st'' :: children_points rec rec_points n rest st''
        | Raise _ => []
        end
      else if on_stack st child then
        let st'' := set_lowlink n (Z.min (lowlink_of st n) (index_of st child)) st in
        st'' :: children_points rec rec_points n rest st''
      else children_points rec rec_points n rest st
  end.

(** One state per pop. *)
Fixpoint pop_points (n : nat) (stack : list nat) (st : state) : list state :=
  match stack with
  | [] => []
  | top :: rest =>
      set_stack rest st :: (if Nat.eqb top n then [] else pop_points n rest st)
  end.

Definition close_points (n : nat) (st : state) : list state :=
  if lowlink_of st n =? index_of st n then
    pop_points n (nodeStack st) st ++
    match close_component n st with
    | Ok st' => [st']
    | Raise _ => []
    end
  else [].

Fixpoint tarjan_points (fuel : nat) (n : nat) (st : state) : list state :=
  match fuel with
  | O => []
  | S fuel' =>
      enter_points n st ++
      children_points (tarjan fuel') (tarjan_points fuel') n (links_of st n) (enter n st) ++
      match visit_children (tarjan fuel') n (links_of st n) (enter n st) with
      | Ok st' => close_points n st'
      | Raise _ => []
      end
  end.

(** Every node on the stack has been numbered. *)
Definition stack_numbered (st : state) : Prop :=
  ∀ v, v ∈ nodeStack st → index_of st v ≠ -1.

(** The counter is not negative, links point into the registry, and the
    stack holds numbered nodes only. *)
Definition good (st : state) : Prop :=
  0 ≤ indexCount st ∧
  (∀ v w, w ∈ links_of st v → (w < length (nodes st))%nat) ∧
  stack_numbered st.

(** ** Directed cycles *)

(** Every node of [l] has an edge to the next one. *)
Fixpoint linked (g : list Node) (l : list nat) : Prop :=
  match l with
  | u :: (v :: _) as rest => edge g u v ∧ linked g rest
  | _ => True
  end.

(** [cyc] lists the nodes of a directed cycle, in order: they are distinct,
    each has an edge to the next, and the last one to the first. *)
Definition is_cycle (g : list Node) (cyc : list nat) : Prop :=
  NoDup cyc ∧ linked g (cyc ++ take 1 cyc).

(** ** The loop of [main] in the words of the specification

    The specification starts a traversal at a node only when the node has
    not been visited.  These two definitions follow its words, not the
    source; [run_roots] and [detect] are the source's. *)

Fixpoint run_roots_unvisited (fuel : nat) (roots : list nat) (st : state)
  : result state :=
  match roots with
  | [] => Ok st
  | node :: rest =>
      if index_of st node =? -1 then
        st' ← tarjan fuel node st;
        run_roots_unvisited fuel rest st'
      else run_roots_unvisited fuel rest st
  end.

Definition detect_unvisited (g : list Node) : result (list string) :=
  st ← run_roots_unvisited (length g) (seq 0 (length g)) (initial g);
  Ok (summary st).

(** Two states of two runs that agree on everything but the numbers: the
    same nodes are visited, and the numbers of the nodes on the stack, like
    the counters, differ by [d]. *)
Record shifted (d : Z) (a b : state) : Prop := {
  sh_length : length (nodes a) = length (nodes b);
  sh_links : ∀ v, links_of a v = links_of b v;
  sh_names : ∀ v, name_of a v = name_of b v;
  sh_range : ∀ v w, w ∈ links_of a v → (w < length (nodes a))%nat;
  sh_stack : nodeStack a = nodeStack b;
  sh_output : output a = output b;
  sh_detected : cyclesDetected a = cyclesDetected b;
  sh_count : indexCount a = indexCount b + d;
  sh_count_a : 0 ≤ indexCount a;
  sh_count_b : 0 ≤ indexCount b;
  sh_visited : ∀ v, index_of a v = -1 ↔ index_of b v = -1;
  sh_numbered : ∀ v, v ∈ nodeStack a → index_of a v ≠ -1;
  sh_numbers : ∀ v, v ∈ nodeStack a →
                 index_of a v = index_of b v + d ∧ lowlink_of a v = lowlink_of b v + d
}.

(** Two calls on [n], the first one from state [a], that end alike: with
    states that agree but for the shift and the same shift on the numbers
    of [n], or with the same exception. *)
Definition alike (d : Z) (n : nat) (a : state) (ra rb : result state) : Prop :=
  match ra, rb with
  | Ok a', Ok b' =>
      shifted d a' b' ∧
      index_of a' n = index_of b' n + d ∧ lowlink_of a' n = lowlink_of b' n + d ∧
      length (nodes a') = length (nodes a) ∧
      ∃ new, nodeStack a' = new ++ nodeStack a
  | Raise e, Raise e' => e = e'
  | _, _ => False
  end.

(** ** [Node.__str__] *)

Definition TAB : ascii := "009"%char.

(** [link.name], for the node at position [link]. *)
Definition link_name (nodes : list Node) (link : nat) : string :=
  match nodes !! link with Some node => name node | None => EmptyString end.

(** [Node.__str__]: the name of the node and a line end, then, for every
    link in order, a tab, the name of the linked node and a line end. *)
Definition __str__ (nodes : list Node) (self : Node) : string :=
  fold_left
    (fun val link =>
       val +:+ ((String TAB EmptyString +:+ link_name nodes link) +:+ String LF EmptyString))
    (links self)
    (name self +:+ String LF EmptyString).

(** ** Vocabulary of the further properties *)

(** [p in s]: the text [p] occurs in [s]. *)
Fixpoint occurs (p s : string) : bool :=
  match prefix_rest p s with
  | Some _ => true
  | None =>
      match s with
      | EmptyString => false
      | String _ s' => occurs p s'
      end
  end.

(** The characters of a text. *)
Definition chars (s : string) : list ascii := list_ascii_of_string s.

(** The number of line feeds of a text. *)
Definition newlines (s : string) : nat := count_occ ascii_dec (chars s) LF.

(** No double quote stands before the first line feed of [s]. *)
Fixpoint quote_free_line (s : string) : bool :=
  match s with
  | EmptyString => true
  | String c s' =>
      if Ascii.eqb c LF then true
      else if Ascii.eqb c dquote then false
      else quote_free_line s'
  end.

(** Header [a] of the directory holds a directive from which the name [b]
    is extracted. *)
Definition includes (target : list (string * string)) (a b : string) : Prop :=
  ∃ text, (a, text) ∈ target ∧ isValidFile a = true ∧ extracted text b.

(** A node as [Node.__init__] made it, under a name that [isValidFile]
    accepts. *)
Definition node_as_created (node : Node) : Prop :=
  isValidFile (name node) = true ∧ index node = -1 ∧ lowlink node = 0.

(** The graph that the scan of [done] has built: its nodes are the files
    scanned and the names extracted from them, and its links are the
    directives. *)
Record graph_of (done : list (string * string)) (nodes : list Node) : Prop := {
  go_ok : registry_ok nodes;
  go_files : ∀ a text, (a, text) ∈ done → a ∈ name <$> nodes;
  go_targets : ∀ a text b, (a, text) ∈ done → extracted text b → b ∈ name <$> nodes;
  go_nodes : ∀ n, n ∈ name <$> nodes →
               n ∈ fst <$> done ∨ ∃ a text, (a, text) ∈ done ∧ extracted text n;
  go_edges : ∀ i j a b, named nodes i a → named nodes j b →
               (edge nodes i j ↔ ∃ text, (a, text) ∈ done ∧ extracted text b)
}.

(** [st'] is [st] after some steps of a traversal: the graph is the same,
    the counter has not gone down, the lines printed are still there, and
    the flag is still set if it was. *)
Record later (st st' : state) : Prop := {
  lt_length : length (nodes st') = length (nodes st);
  lt_names : ∀ v, name_of st' v = name_of st v;
  lt_links : ∀ v, links_of st' v = links_of st v;
  lt_count : indexCount st ≤ indexCount st';
  lt_output : output st `prefix_of` output st';
  lt_detected : cyclesDetected st = true → cyclesDetected st' = true
}.

(** * Proofs *)

(** ** The registry *)

Lemma inNodes_Some nodes n i :
  inNodes nodes n = Some i → ∃ node, nodes !! i = Some node ∧ name node = n.
Proof.
  revert i. induction nodes as [|node rest IH]; intros i; simpl; [done|].
  destruct (String.eqb_spec n (name node)) as [->|Hne].
  - intros [= <-]. by exists node.
  - destruct (inNodes rest n) as [j|] eqn:E; simpl; [|done].
    intros [= <-]. by apply IH.
Qed.

Lemma inNodes_None nodes n : inNodes nodes n = None → n ∉ name <$> nodes.
Proof.
  induction nodes as [|node rest IH]; simpl.
  - intros _. apply not_elem_of_nil.
  - destruct (String.eqb_spec n (name node)) as [->|Hne]; [done|].
    destruct (inNodes rest n) eqn:E; simpl; [done|].
    intros _. rewrite elem_of_cons. intros [?|?]; [done|by apply IH].
Qed.

Lemma inNodes_lt nodes n i : inNodes nodes n = Some i → (i < length nodes)%nat.
Proof.
  intros (node & H & _)%inNodes_Some. by eapply lookup_lt_Some.
Qed.

Lemma inNodes_unique nodes i node :
  NoDup (name <$> nodes) → nodes !! i = Some node → inNodes nodes (name node) = Some i.
Proof.
  revert i. induction nodes as [|hd rest IH]; intros i; simpl; [done|].
  rewrite NoDup_cons. intros [Hhd Hnd] Hi.
  destruct i as [|i]; simpl in Hi.
  - injection Hi as ->. by rewrite String.eqb_refl.
  - destruct (String.eqb_spec (name node) (name hd)) as [Heq|Hne].
    + exfalso. apply Hhd. rewrite <- Heq.
      apply list_elem_of_fmap. exists node. split; [done|].
      by eapply list_elem_of_lookup_2.
    + by rewrite (IH i Hnd Hi).
Qed.

Lemma names_alter_link t i (nodes : list Node) :
  name <$> alter (append_link t) i nodes = name <$> nodes.
Proof.
  apply list_eq. intros j. rewrite !list_lookup_fmap, list_lookup_alter.
  case_decide; subst; by destruct (nodes !! j).
Qed.

Lemma names_addLink self n nodes :
  name <$> addLink self n nodes =
  match inNodes nodes n with
  | Some _ => name <$> nodes
  | None => (name <$> nodes) ++ [n]
  end.
Proof.
  unfold addLink. destruct (inNodes nodes n); rewrite names_alter_link; [done|].
  by rewrite fmap_app.
Qed.

Lemma NoDup_snoc_fresh (l : list string) n : NoDup l → n ∉ l → NoDup (l ++ [n]).
Proof.
  intros Hnd Hn. apply NoDup_app. split; [done|]. split.
  - intros x Hx. rewrite list_elem_of_singleton. by intros ->.
  - apply NoDup_singleton.
Qed.

Lemma links_bound_mono (nodes : list Node) (k k' : nat) :
  (k ≤ k')%nat →
  Forall (fun node => Forall (fun t => (t < k)%nat) (links node)) nodes →
  Forall (fun node => Forall (fun t => (t < k')%nat) (links node)) nodes.
Proof.
  intros Hk H. eapply Forall_impl; [done|]. intros node Hn. simpl in *.
  eapply Forall_impl; [done|]. intros t; simpl; lia.
Qed.

Lemma links_bound_alter (nodes : list Node) (k t self : nat) :
  (t < k)%nat →
  Forall (fun node => Forall (fun t => (t < k)%nat) (links node)) nodes →
  Forall (fun node => Forall (fun t => (t < k)%nat) (links node))
    (alter (append_link t) self nodes).
Proof.
  intros Ht H. apply Forall_alter; [done|].
  intros node _ Hnode. simpl. apply Forall_app. split; [done|].
  by apply Forall_singleton.
Qed.

Lemma registry_ok_snoc nodes n :
  registry_ok nodes → inNodes nodes n = None → registry_ok (nodes ++ [new_node n]).
Proof.
  intros [Hnd Hl] Hn. split.
  - rewrite fmap_app. simpl. apply NoDup_snoc_fresh; [done|].
    by apply inNodes_None.
  - rewrite length_app. simpl. apply Forall_app. split.
    + eapply links_bound_mono; [|done]. lia.
    + apply Forall_singleton. simpl. apply Forall_nil_2.
Qed.

Lemma registry_ok_addLink self n nodes :
  registry_ok nodes → registry_ok (addLink self n nodes).
Proof.
  intros Hok. unfold addLink.
  destruct (inNodes nodes n) as [t|] eqn:E.
  - destruct Hok as [Hnd Hl]. split.
    + by rewrite names_alter_link.
    + rewrite length_alter. apply links_bound_alter; [|done].
      by eapply inNodes_lt.
  - destruct (registry_ok_snoc nodes n Hok E) as [Hnd Hl]. split.
    + by rewrite names_alter_link.
    + rewrite length_alter. apply links_bound_alter; [|done].
      rewrite length_app. simpl. lia.
Qed.

(** What [addLink] appends to the links of [self] is the position of the
    node named [n]. *)
Lemma addLink_target self n nodes node :
  nodes !! self = Some node →
  ∃ t node', addLink self n nodes !! self = Some node' ∧
             links node' = links node ++ [t] ∧
             named (addLink self n nodes) t n.
Proof.
  intros Hself. unfold addLink, named.
  destruct (inNodes nodes n) as [t|] eqn:E.
  - exists t, (append_link t node). split; [|split; [done|]].
    + by rewrite list_lookup_alter_eq, Hself.
    + rewrite <- list_lookup_fmap, names_alter_link, list_lookup_fmap.
      apply inNodes_Some in E as (nd & -> & <-). done.
  - exists (length nodes), (append_link (length nodes) node).
    split; [|split; [done|]].
    + rewrite list_lookup_alter_eq, lookup_app_l_Some with (x := node); done.
    + rewrite <- list_lookup_fmap, names_alter_link, list_lookup_fmap.
      by rewrite list_lookup_middle.
Qed.

Lemma named_unique nodes i j n :
  NoDup (name <$> nodes) → named nodes i n → named nodes j n → i = j.
Proof.
  unfold named. intros Hnd Hi Hj.
  rewrite <- list_lookup_fmap in Hi, Hj.
  by eapply NoDup_lookup.
Qed.

Lemma add_includes_ok node incs nodes nodes' :
  add_includes node incs nodes = Ok nodes' → registry_ok nodes → registry_ok nodes'.
Proof.
  revert nodes. induction incs as [|inc rest IH]; intros nodes; simpl.
  - by intros [= <-].
  - destruct (Re.filenameRE_search inc) as [f|]; [|done].
    intros H Hok. eapply IH; [done|]. by apply registry_ok_addLink.
Qed.

Lemma scan_file_ok filename text nodes nodes' :
  scan_file filename text nodes = Ok nodes' → registry_ok nodes → registry_ok nodes'.
Proof.
  unfold scan_file. destruct (inNodes nodes filename) eqn:E; intros H Hok.
  - by eapply add_includes_ok.
  - eapply add_includes_ok; [done|]. by apply registry_ok_snoc.
Qed.

Lemma scan_files_ok files nodes nodes' :
  scan_files files nodes = Ok nodes' → registry_ok nodes → registry_ok nodes'.
Proof.
  revert nodes. induction files as [|[filename text] rest IH]; intros nodes; simpl.
  - by intros [= <-].
  - destruct (scan_file filename text nodes) as [nodes1|] eqn:E; simpl; [|done].
    intros H Hok. eapply IH; [done|]. by eapply scan_file_ok.
Qed.

Lemma registry_ok_nil : registry_ok [].
Proof. split; [apply NoDup_nil_2|apply Forall_nil_2]. Qed.

Lemma constructGraph_ok target g : constructGraph target = Ok g → registry_ok g.
Proof. intros H. eapply scan_files_ok; [done|apply registry_ok_nil]. Qed.

Lemma names_addLink_prefix self n nodes :
  (name <$> nodes) `prefix_of` (name <$> addLink self n nodes).
Proof.
  rewrite names_addLink. destruct (inNodes nodes n); [done|].
  by apply prefix_app_r.
Qed.

Lemma add_includes_names node incs nodes nodes' :
  add_includes node incs nodes = Ok nodes' →
  (name <$> nodes) `prefix_of` (name <$> nodes').
Proof.
  revert nodes. induction incs as [|inc rest IH]; intros nodes; simpl.
  - by intros [= <-].
  - destruct (Re.filenameRE_search inc) as [f|]; [|done].
    intros H. etrans; [apply (names_addLink_prefix node f)|by apply IH].
Qed.

Lemma scan_file_names filename text nodes nodes' :
  scan_file filename text nodes = Ok nodes' →
  (name <$> nodes) `prefix_of` (name <$> nodes') ∧ filename ∈ name <$> nodes'.
Proof.
  unfold scan_file. destruct (inNodes nodes filename) as [i|] eqn:E; intros H.
  - pose proof (add_includes_names _ _ _ _ H) as Hp. split; [done|].
    destruct Hp as [k ->]. apply elem_of_app. left.
    apply inNodes_Some in E as (nd & Hnd & <-).
    apply list_elem_of_fmap. exists nd. split; [done|].
    by eapply list_elem_of_lookup_2.
  - pose proof (add_includes_names _ _ _ _ H) as Hp.
    rewrite fmap_app in Hp. simpl in Hp. split.
    + etrans; [|done]. by apply prefix_app_r.
    + destruct Hp as [k ->]. rewrite <- app_assoc. simpl.
      apply elem_of_app. right. apply list_elem_of_here.
Qed.

Lemma named_prefix nodes nodes' i n :
  (name <$> nodes) `prefix_of` (name <$> nodes') → named nodes i n → named nodes' i n.
Proof.
  unfold named. rewrite <- !list_lookup_fmap. intros [k ->] H.
  by apply lookup_app_l_Some.
Qed.

Lemma elem_of_named nodes n : n ∈ name <$> nodes → ∃ i, named nodes i n.
Proof.
  intros (i & Hi)%list_elem_of_lookup_1. exists i. unfold named.
  by rewrite <- list_lookup_fmap.
Qed.

Lemma addLink_others self n nodes j node' :
  addLink self n nodes !! j = Some node' → j ≠ self →
  nodes !! j = Some node' ∨ node' = new_node n.
Proof.
  unfold addLink. intros H Hj.
  destruct (inNodes nodes n); rewrite list_lookup_alter_ne in H by done.
  - by left.
  - apply lookup_app_Some in H as [H|[_ H]]; [by left|right].
    destruct (j - length nodes)%nat; simpl in H; [by injection H|done].
Qed.

Lemma add_includes_others self incs nodes nodes' j node' :
  add_includes self incs nodes = Ok nodes' →
  nodes' !! j = Some node' → j ≠ self →
  nodes !! j = Some node' ∨ links node' = [].
Proof.
  revert nodes. induction incs as [|inc rest IH]; intros nodes; simpl.
  - intros [= <-] H _. by left.
  - destruct (Re.filenameRE_search inc) as [f|]; [|done].
    intros H Hj Hne. destruct (IH _ H Hj Hne) as [H1|H1]; [|by right].
    destruct (addLink_others _ _ _ _ _ H1 Hne) as [?| ->]; [by left|by right].
Qed.

(** Scanning a file changes the links of no node but the one that stands
    for the file, at position [self]. *)
Lemma scan_file_others filename text nodes nodes' :
  scan_file filename text nodes = Ok nodes' →
  ∃ self, named nodes' self filename ∧
    ∀ j node', nodes' !! j = Some node' → j ≠ self →
      nodes !! j = Some node' ∨ links node' = [].
Proof.
  unfold scan_file. destruct (inNodes nodes filename) as [i|] eqn:E; intros H.
  - exists i. split.
    + apply (named_prefix nodes); [by eapply add_includes_names|].
      apply inNodes_Some in E as (nd & Hnd & <-). unfold named. by rewrite Hnd.
    + intros j node' Hj Hne. by eapply add_includes_others.
  - exists (length nodes). split.
    + apply (named_prefix (nodes ++ [new_node filename]));
        [by eapply add_includes_names|].
      unfold named. by rewrite list_lookup_middle.
    + intros j node' Hj Hne.
      destruct (add_includes_others _ _ _ _ _ _ H Hj Hne) as [H1|H1]; [|by right].
      apply lookup_app_Some in H1 as [H1|[Hlen H1]]; [by left|].
      destruct (j - length nodes)%nat eqn:Ej; [lia|done].
Qed.

(** C9.  Node identity is by file name, throughout graph construction: in a
    registry where no two nodes share a name and every link points into the
    registry, (1) [addLink] keeps it so, keeps every node at its position
    under its name, and appends to the links of the calling node the one
    position at which the requested name is registered; (2) scanning a
    file keeps it so, keeps every node in place, and leaves exactly one
    node registered under the name of the file, the only node whose links
    the scan may change; (3) scanning any sequence of files keeps it so. *)
Theorem registry_identity_preserved (nodes : list Node) :
  registry_ok nodes →
  (∀ self n node, nodes !! self = Some node →
     let nodes' := addLink self n nodes in
     registry_ok nodes' ∧
     (∀ i m, named nodes i m → named nodes' i m) ∧
     ∃ t node', nodes' !! self = Some node' ∧
                links node' = links node ++ [t] ∧
                named nodes' t n ∧
                ∀ j, named nodes' j n → j = t) ∧
  (∀ filename text nodes', scan_file filename text nodes = Ok nodes' →
     registry_ok nodes' ∧
     (∀ i m, named nodes i m → named nodes' i m) ∧
     ∃ i, named nodes' i filename ∧ (∀ j, named nodes' j filename → j = i) ∧
          ∀ j node', nodes' !! j = Some node' → j ≠ i →
            nodes !! j = Some node' ∨ links node' = []) ∧
  (∀ files nodes', scan_files files nodes = Ok nodes' → registry_ok nodes').
Proof.
  intros Hok. split; [|split].
  - intros self n node Hself nodes'.
    assert (Hok' : registry_ok nodes') by by apply registry_ok_addLink.
    split; [done|]. split.
    { intros i m. apply named_prefix, names_addLink_prefix. }
    destruct (addLink_target self n nodes node Hself) as (t & node' & H1 & H2 & H3).
    exists t, node'. repeat split; [done..|].
    intros j Hj. destruct Hok' as [Hnd _]. by eapply named_unique.
  - intros filename text nodes' H.
    assert (Hok' : registry_ok nodes') by by eapply scan_file_ok.
    destruct (scan_file_names _ _ _ _ H) as [Hp Hin].
    split; [done|]. split.
    { intros i m. by apply named_prefix. }
    destruct (scan_file_others _ _ _ _ H) as (i & Hi & Hothers).
    exists i. split; [done|]. split; [|done].
    intros j Hj. destruct Hok' as [Hnd _]. by eapply named_unique.
  - intros files nodes' H. by eapply scan_files_ok.
Qed.

Lemma registry_identity_preserved_witness :
  let nodes := [mkNode "a.h" [] (-1) 0; mkNode "b.h" [0%nat] (-1) 0] in
  registry_ok (addLink 0 "b.h" nodes) ∧ registry_ok (addLink 0 "c.h" nodes).
Proof.
  intros nodes.
  assert (Hok : registry_ok nodes).
  { split; [by apply (bool_decide_unpack _)|]. by apply (bool_decide_unpack _). }
  destruct (registry_identity_preserved nodes Hok) as [H _].
  split.
  - exact (proj1 (H 0%nat "b.h" _ eq_refl)).
  - exact (proj1 (H 0%nat "c.h" _ eq_refl)).
Defined.

(** ** Headers that are included but not scanned *)

Lemma addLink_self self n nodes node' :
  addLink self n nodes !! self = Some node' →
  (∃ node, nodes !! self = Some node ∧ name node' = name node) ∨
  (self = length nodes ∧ name node' = n).
Proof.
  unfold addLink. intros H.
  destruct (inNodes nodes n); rewrite list_lookup_alter_eq in H.
  - destruct (nodes !! self) as [node|]; [|done]. injection H as <-.
    left. by exists node.
  - destruct ((nodes ++ [new_node n]) !! self) as [node|] eqn:E; [|done].
    injection H as <-. apply lookup_app_Some in E as [E|[E1 E2]].
    + left. by exists node.
    + right. destruct (self - length nodes)%nat eqn:E3; simpl in E2; [|done].
      injection E2 as <-. split; [lia|done].
Qed.

Lemma leaves_outside_addLink scanned self n nodes node :
  nodes !! self = Some node → name node ∈ scanned →
  leaves_outside scanned nodes → leaves_outside scanned (addLink self n nodes).
Proof.
  intros Hself Hname Hl node' (j & Hj)%list_elem_of_lookup_1 Hlinks.
  destruct (decide (j = self)) as [->|Hne].
  - apply addLink_self in Hj as [(nd & Hnd & ->)|[Hlen _]].
    + by simplify_eq.
    + apply lookup_lt_Some in Hself. lia.
  - apply addLink_others in Hj as [Hj| ->]; [|done..].
    apply Hl; [|done]. by eapply list_elem_of_lookup_2.
Qed.

Lemma add_includes_leaves scanned self incs nodes nodes' node :
  add_includes self incs nodes = Ok nodes' →
  nodes !! self = Some node → name node ∈ scanned →
  leaves_outside scanned nodes → leaves_outside scanned nodes'.
Proof.
  revert nodes node. induction incs as [|inc rest IH]; intros nodes node; simpl.
  - by intros [= <-].
  - destruct (Re.filenameRE_search inc) as [f|]; [|done].
    intros H Hself Hname Hl.
    destruct (addLink_target self f nodes node Hself) as (t & node' & H1 & H2 & H3).
    eapply (IH _ node'); [done..| |].
    + destruct (addLink_self _ _ _ _ H1) as [(nd & Hnd & ->)|[Hlen _]].
      * by simplify_eq.
      * apply lookup_lt_Some in Hself. lia.
    + by eapply leaves_outside_addLink.
Qed.

Lemma leaves_outside_mono scanned scanned' nodes :
  scanned ⊆ scanned' → leaves_outside scanned nodes → leaves_outside scanned' nodes.
Proof. intros Hs Hl node Hn Hlinks. apply Hs. by apply Hl. Qed.

Lemma leaves_outside_snoc scanned nodes n :
  leaves_outside scanned nodes → leaves_outside scanned (nodes ++ [new_node n]).
Proof.
  intros Hl node [Hn|Hn]%elem_of_app Hlinks; [by apply Hl|].
  apply list_elem_of_singleton in Hn as ->. done.
Qed.

Lemma scan_file_leaves scanned filename text nodes nodes' :
  scan_file filename text nodes = Ok nodes' →
  leaves_outside scanned nodes → leaves_outside (filename :: scanned) nodes'.
Proof.
  unfold scan_file. intros H Hl.
  assert (Hl' : leaves_outside (filename :: scanned) nodes).
  { eapply leaves_outside_mono; [|done]. intros x Hx. by apply elem_of_cons; right. }
  destruct (inNodes nodes filename) as [i|] eqn:E.
  - apply inNodes_Some in E as (nd & Hnd & Hname).
    eapply add_includes_leaves; [done..| |done].
    rewrite Hname. apply list_elem_of_here.
  - eapply (add_includes_leaves _ _ _ _ _ (new_node filename)); [done| | |].
    + by apply list_lookup_middle.
    + apply list_elem_of_here.
    + by apply leaves_outside_snoc.
Qed.

Lemma scan_files_leaves scanned files nodes nodes' :
  scan_files files nodes = Ok nodes' →
  leaves_outside scanned nodes →
  leaves_outside (scanned ++ (fst <$> files)) nodes'.
Proof.
  revert scanned nodes.
  induction files as [|[filename text] rest IH]; intros scanned nodes; simpl.
  - intros [= <-] Hl. by rewrite app_nil_r.
  - destruct (scan_file filename text nodes) as [nodes1|] eqn:E; simpl; [|done].
    intros H Hl. eapply leaves_outside_mono;
      [|eapply IH; [done|by eapply scan_file_leaves]].
    intros x Hx. apply elem_of_app. simpl. rewrite elem_of_cons.
    apply elem_of_cons in Hx as [->|[?|?]%elem_of_app]; auto.
Qed.

Lemma add_includes_targets self incs nodes nodes' inc f :
  add_includes self incs nodes = Ok nodes' →
  inc ∈ incs → Re.filenameRE_search inc = Some f → f ∈ name <$> nodes'.
Proof.
  revert nodes. induction incs as [|inc' rest IH]; intros nodes; simpl.
  - intros _ Hin. by apply elem_of_nil in Hin.
  - destruct (Re.filenameRE_search inc') as [f'|] eqn:E; [|done].
    intros H [->|Hin]%elem_of_cons Hf; [|by eapply IH].
    rewrite E in Hf. injection Hf as ->.
    destruct (add_includes_names _ _ _ _ H) as [k ->].
    apply elem_of_app. left. rewrite names_addLink.
    destruct (inNodes nodes f) as [t|] eqn:Et.
    + apply inNodes_Some in Et as (nd & Hnd & <-).
      apply list_elem_of_fmap. exists nd. split; [done|].
      by eapply list_elem_of_lookup_2.
    + apply elem_of_app. right. apply list_elem_of_here.
Qed.

Lemma scan_files_names files nodes nodes' :
  scan_files files nodes = Ok nodes' →
  (name <$> nodes) `prefix_of` (name <$> nodes').
Proof.
  revert nodes. induction files as [|[filename text] rest IH]; intros nodes; simpl.
  - by intros [= <-].
  - destruct (scan_file filename text nodes) as [nodes1|] eqn:E; simpl; [|done].
    intros H. etrans; [by eapply scan_file_names|by apply IH].
Qed.

Lemma scan_files_targets files nodes nodes' file text f :
  scan_files files nodes = Ok nodes' →
  (file, text) ∈ files → extracted text f → f ∈ name <$> nodes'.
Proof.
  revert nodes. induction files as [|[filename text'] rest IH]; intros nodes; simpl.
  - intros _ Hin. by apply elem_of_nil in Hin.
  - destruct (scan_file filename text' nodes) as [nodes1|] eqn:E; simpl; [|done].
    intros H [Heq|Hin]%elem_of_cons Hf; [|by eapply IH].
    injection Heq as -> ->. destruct Hf as (inc & Hinc & Hf).
    destruct (scan_files_names _ _ _ H) as [k ->].
    apply elem_of_app. left. unfold scan_file in E.
    destruct (inNodes nodes filename); by eapply add_includes_targets.
Qed.

(** When [constructGraph] returns a graph and the text of a scanned
    header yields a file name that is not in the directory listing, the
    graph has a node of that name, only one, and it has no outgoing
    links. *)
Lemma absent_header_node target g file text f :
  constructGraph target = Ok g →
  (file, text) ∈ target → isValidFile file = true →
  extracted text f →
  f ∉ fst <$> target →
  ∃ i node, g !! i = Some node ∧ name node = f ∧ links node = [] ∧
            ∀ j, named g j f → j = i.
Proof.
  unfold constructGraph. intros Hg Hin Hvalid Hf Habsent.
  set (files := List.filter (fun entry => isValidFile (fst entry)) target) in *.
  assert (Hin' : (file, text) ∈ files).
  { apply list_elem_of_In, filter_In. split; [by apply list_elem_of_In|done]. }
  pose proof (scan_files_targets _ _ _ _ _ _ Hg Hin' Hf) as Hname.
  apply elem_of_named in Hname as [i Hi].
  pose proof Hi as Hi'. unfold named in Hi'.
  destruct (g !! i) as [node|] eqn:Hnode; [|done]. injection Hi' as Hn.
  exists i, node. split; [done|]. split; [done|]. split.
  - destruct (links node) eqn:Hlinks; [done|exfalso].
    apply Habsent.
    assert (Hl : leaves_outside ([] ++ (fst <$> files)) g).
    { eapply scan_files_leaves; [done|]. intros nd Hnd. by apply elem_of_nil in Hnd. }
    simpl in Hl. rewrite <- Hn.
    assert (Hsub : name node ∈ fst <$> files).
    { apply Hl; [by eapply list_elem_of_lookup_2|by rewrite Hlinks]. }
    apply list_elem_of_fmap in Hsub as (entry & -> & Hentry).
    apply list_elem_of_fmap. exists entry. split; [done|].
    apply list_elem_of_In in Hentry. apply filter_In in Hentry as [Hentry _].
    by apply list_elem_of_In.
  - intros j Hj. apply constructGraph_ok in Hg as [Hnd _].
    by eapply named_unique.
Qed.

(** ** Reading and writing the state *)

Lemma lookup_lt_node (st : state) v :
  (v < length (nodes st))%nat → ∃ node, nodes st !! v = Some node.
Proof. intros H. by apply lookup_lt_is_Some_2. Qed.

Lemma index_of_set_index_eq v i st :
  (v < length (nodes st))%nat → index_of (set_index v i st) v = i.
Proof.
  intros (node & Hn)%lookup_lt_node. unfold index_of, set_index. simpl.
  by rewrite list_lookup_alter_eq, Hn.
Qed.

Lemma index_of_set_index_ne v w i st :
  w ≠ v → index_of (set_index v i st) w = index_of st w.
Proof.
  intros Hne. unfold index_of, set_index. simpl.
  by rewrite list_lookup_alter_ne.
Qed.

Lemma index_of_set_lowlink v w l st :
  index_of (set_lowlink v l st) w = index_of st w.
Proof.
  unfold index_of, set_lowlink. simpl. rewrite list_lookup_alter.
  case_decide; subst; by destruct (nodes st !! w).
Qed.

Lemma lowlink_of_set_lowlink_eq v l st :
  (v < length (nodes st))%nat → lowlink_of (set_lowlink v l st) v = l.
Proof.
  intros (node & Hn)%lookup_lt_node. unfold lowlink_of, set_lowlink. simpl.
  by rewrite list_lookup_alter_eq, Hn.
Qed.

Lemma lowlink_of_set_lowlink_ne v w l st :
  w ≠ v → lowlink_of (set_lowlink v l st) w = lowlink_of st w.
Proof.
  intros Hne. unfold lowlink_of, set_lowlink. simpl.
  by rewrite list_lookup_alter_ne.
Qed.

Lemma lowlink_of_set_index v w i st :
  lowlink_of (set_index v i st) w = lowlink_of st w.
Proof.
  unfold lowlink_of, set_index. simpl. rewrite list_lookup_alter.
  case_decide; subst; by destruct (nodes st !! w).
Qed.

Lemma links_of_set_index v w i st : links_of (set_index v i st) w = links_of st w.
Proof.
  unfold links_of, set_index. simpl. rewrite list_lookup_alter.
  case_decide; subst; by destruct (nodes st !! w).
Qed.

Lemma links_of_set_lowlink v w l st : links_of (set_lowlink v l st) w = links_of st w.
Proof.
  unfold links_of, set_lowlink. simpl. rewrite list_lookup_alter.
  case_decide; subst; by destruct (nodes st !! w).
Qed.

Lemma name_of_set_index v w i st : name_of (set_index v i st) w = name_of st w.
Proof.
  unfold name_of, set_index. simpl. rewrite list_lookup_alter.
  case_decide; subst; by destruct (nodes st !! w).
Qed.

Lemma name_of_set_lowlink v w l st : name_of (set_lowlink v l st) w = name_of st w.
Proof.
  unfold name_of, set_lowlink. simpl. rewrite list_lookup_alter.
  case_decide; subst; by destruct (nodes st !! w).
Qed.

Lemma length_set_index v i st : length (nodes (set_index v i st)) = length (nodes st).
Proof. unfold set_index. simpl. apply length_alter. Qed.

Lemma length_set_lowlink v l st : length (nodes (set_lowlink v l st)) = length (nodes st).
Proof. unfold set_lowlink. simpl. apply length_alter. Qed.

Lemma index_of_visited_lt st v : index_of st v ≠ -1 → (v < length (nodes st))%nat.
Proof.
  unfold index_of. destruct (nodes st !! v) eqn:E; [|done].
  intros _. by eapply lookup_lt_Some.
Qed.

Lemma on_stack_true st v : on_stack st v = true ↔ v ∈ nodeStack st.
Proof.
  unfold on_stack. rewrite existsb_exists. split.
  - intros (x & Hx & ->%Nat.eqb_eq). by apply list_elem_of_In.
  - intros H. exists v. split; [by apply list_elem_of_In|apply Nat.eqb_refl].
Qed.

Lemma on_stack_false st v : on_stack st v = false ↔ v ∉ nodeStack st.
Proof.
  rewrite <- on_stack_true. by destruct (on_stack st v).
Qed.

(** The state after the first four statements of [tarjan]. *)
Lemma enter_index_eq n st :
  (n < length (nodes st))%nat → index_of (enter n st) n = indexCount st.
Proof.
  intros Hn. unfold enter, push, set_stack, incr_indexCount, index_of. simpl.
  change (index_of (set_lowlink n (indexCount st) (set_index n (indexCount st) st)) n
          = indexCount st).
  rewrite index_of_set_lowlink. by apply index_of_set_index_eq.
Qed.

Lemma enter_index_ne n v st : v ≠ n → index_of (enter n st) v = index_of st v.
Proof.
  intros Hn. unfold enter, push, set_stack, incr_indexCount, index_of. simpl.
  change (index_of (set_lowlink n (indexCount st) (set_index n (indexCount st) st)) v
          = index_of st v).
  rewrite index_of_set_lowlink. by apply index_of_set_index_ne.
Qed.

Lemma enter_lowlink_eq n st :
  (n < length (nodes st))%nat → lowlink_of (enter n st) n = indexCount st.
Proof.
  intros Hn. unfold enter, push, set_stack, incr_indexCount, lowlink_of. simpl.
  change (lowlink_of (set_lowlink n (indexCount st) (set_index n (indexCount st) st)) n
          = indexCount st).
  apply lowlink_of_set_lowlink_eq. by rewrite length_set_index.
Qed.

Lemma enter_lowlink_ne n v st : v ≠ n → lowlink_of (enter n st) v = lowlink_of st v.
Proof.
  intros Hn. unfold enter, push, set_stack, incr_indexCount, lowlink_of. simpl.
  change (lowlink_of (set_lowlink n (indexCount st) (set_index n (indexCount st) st)) v
          = lowlink_of st v).
  rewrite lowlink_of_set_lowlink_ne by done. apply lowlink_of_set_index.
Qed.

Lemma enter_links n v st : links_of (enter n st) v = links_of st v.
Proof.
  unfold enter, push, set_stack, incr_indexCount, links_of. simpl.
  change (links_of (set_lowlink n (indexCount st) (set_index n (indexCount st) st)) v
          = links_of st v).
  by rewrite links_of_set_lowlink, links_of_set_index.
Qed.

Lemma enter_names n v st : name_of (enter n st) v = name_of st v.
Proof.
  unfold enter, push, set_stack, incr_indexCount, name_of. simpl.
  change (name_of (set_lowlink n (indexCount st) (set_index n (indexCount st) st)) v
          = name_of st v).
  by rewrite name_of_set_lowlink, name_of_set_index.
Qed.

Lemma enter_length n st : length (nodes (enter n st)) = length (nodes st).
Proof.
  unfold enter, push, set_stack, incr_indexCount. simpl.
  by rewrite !length_alter.
Qed.

(** [pop_cycle] takes everything above [n], and [n]. *)
Lemma pop_cycle_split n above below :
  n ∉ above → pop_cycle n (above ++ n :: below) = Ok (above ++ [n], below).
Proof.
  induction above as [|top above IH]; simpl; intros Hn.
  - by rewrite Nat.eqb_refl.
  - apply not_elem_of_cons in Hn as [Hne Hn].
    destruct (Nat.eqb_spec top n) as [->|_]; [done|].
    by rewrite IH.
Qed.

Arguments index_of : simpl never.
Arguments lowlink_of : simpl never.
Arguments links_of : simpl never.
Arguments name_of : simpl never.
Arguments enter : simpl never.

Lemma enter_stack n st : nodeStack (enter n st) = n :: nodeStack st.
Proof. reflexivity. Qed.

Lemma enter_count n st : indexCount (enter n st) = indexCount st + 1.
Proof. reflexivity. Qed.

Lemma enter_output n st : output (enter n st) = output st.
Proof. reflexivity. Qed.

Lemma enter_detected n st : cyclesDetected (enter n st) = cyclesDetected st.
Proof. reflexivity. Qed.

(** ** Correctness of the traversal *)

Section Traversal.

Variable g : list Node.
Hypothesis g_closed : ∀ u v, edge g u v → (v < length g)%nat.

Lemma inv_set_lowlink st n l : inv g st → inv g (set_lowlink n l st).
Proof.
  intros [H1 H2 H3 H4 H5 H6 H7 H8]. split; simpl.
  - by rewrite length_alter.
  - intros v. by rewrite links_of_set_lowlink.
  - intros v. by rewrite name_of_set_lowlink.
  - done.
  - intros v. by rewrite index_of_set_lowlink.
  - done.
  - intros v. by rewrite index_of_set_lowlink; apply H7.
  - intros v w. rewrite !index_of_set_lowlink. apply H8.
Qed.

Lemma inv_visited_lt st v : inv g st → index_of st v ≠ -1 → (v < length g)%nat.
Proof. intros Hinv Hv. rewrite <- (inv_length _ _ Hinv). by apply index_of_visited_lt. Qed.

(** The visited nodes off the stack reach only their like. *)
Lemma closed_reach st v w :
  inv g st → index_of st v ≠ -1 → v ∉ nodeStack st → reach g v w →
  index_of st w ≠ -1 ∧ w ∉ nodeStack st.
Proof.
  intros Hinv Hv Hoff Hr. induction Hr as [v|v u w Hvu _ IH]; [done|].
  destruct (inv_closed _ _ Hinv v u Hv Hoff Hvu) as [Hu Hu']. by apply IH.
Qed.

Lemma stack_bound st :
  inv g st → (length (nodeStack st) ≤ length g)%nat.
Proof.
  intros Hinv.
  assert (H : (length (nodeStack st) ≤ length (seq 0%nat (length g)))%nat);
    [|by rewrite length_seq in H].
  apply submseteq_length, NoDup_submseteq; [by apply (inv_nodup g)|].
  intros x Hx. apply elem_of_seq. split; [lia|]. simpl.
  eapply inv_visited_lt; [done|]. by apply (inv_stack g).
Qed.

Lemma enter_loop_inv n st :
  inv g st → index_of st n = -1 → (n < length g)%nat →
  loop_inv g n st [] (enter n st) [] [].
Proof.
  intros Hinv Hn Hlt.
  assert (Hlt' : (n < length (nodes st))%nat) by by rewrite (inv_length _ _ Hinv).
  assert (Hidx : ∀ v, v ≠ n → index_of (enter n st) v = index_of st v)
    by (intros; by apply enter_index_ne).
  assert (Hn' : index_of (enter n st) n = indexCount st) by by apply enter_index_eq.
  pose proof (inv_count _ _ Hinv) as Hc.
  assert (Hoff : n ∉ nodeStack st).
  { intros H. by apply (inv_stack _ _ Hinv) in H. }
  split.
  - split.
    + by rewrite enter_length; apply (inv_length g).
    + intros v. rewrite enter_links. apply (inv_links _ _ Hinv).
    + intros v. rewrite enter_names. apply (inv_names _ _ Hinv).
    + rewrite enter_count. lia.
    + intros v. rewrite enter_count. destruct (decide (v = n)) as [->|Hne].
      * rewrite Hn'. lia.
      * rewrite Hidx by done. pose proof (inv_index _ _ Hinv v). lia.
    + rewrite enter_stack. apply NoDup_cons. split; [done|apply (inv_nodup _ _ Hinv)].
    + intros v. rewrite enter_stack. intros [->|Hv]%elem_of_cons.
      * rewrite Hn'. lia.
      * assert (v ≠ n) by (intros ->; done). rewrite Hidx by done.
        by apply (inv_stack _ _ Hinv).
    + intros v w. rewrite enter_stack. intros Hv [Hvn Hvs]%not_elem_of_cons Hvw.
      rewrite Hidx in Hv by done.
      destruct (inv_closed _ _ Hinv v w Hv Hvs Hvw) as [Hw Hws].
      assert (w ≠ n) by (intros ->; done).
      rewrite Hidx by done. split; [done|]. by apply not_elem_of_cons.
  - intros v Hv. assert (v ≠ n) by (intros ->; done).
    by rewrite Hidx, enter_lowlink_ne.
  - intros v Hv. destruct (decide (v = n)) as [->|Hne].
    + right. rewrite Hn'. lia.
    + left. by rewrite Hidx.
  - done.
  - rewrite enter_count. lia.
  - rewrite Hn', enter_lowlink_eq by done. lia.
  - by rewrite enter_stack.
  - exists n. rewrite enter_stack. split; [apply list_elem_of_here|].
    split; [by rewrite Hn', enter_lowlink_eq|]. apply rtc_refl.
  - intros d Hd. by apply elem_of_nil in Hd.
  - intros d Hd. by apply elem_of_nil in Hd.
  - intros v. simpl. split.
    + intros Hv. left. destruct (decide (v = n)) as [|Hne]; [done|].
      rewrite Hidx in Hv by done. pose proof (inv_index _ _ Hinv v). lia.
    + intros [->|[H|H]]; [rewrite Hn'; lia|by apply elem_of_nil in H..].
  - apply NoDup_nil_2.
  - intros v Hv. by apply elem_of_nil in Hv.
  - apply Forall_nil_2.
  - rewrite enter_output. simpl. by rewrite app_nil_r.
  - rewrite enter_detected. simpl. by rewrite orb_false_r.
Qed.

Lemma loop_inv_on_stack n st seen sti new groups :
  loop_inv g n st seen sti new groups →
  n ∈ nodeStack sti ∧ index_of sti n ≠ -1 ∧ (n < length (nodes sti))%nat ∧
  (∀ d, d ∈ new → d ≠ n) ∧ (∀ x, x ∈ nodeStack st → x ≠ n) ∧
  (∀ x, x ∈ nodeStack st → x ∈ nodeStack sti).
Proof.
  intros L. pose proof (li_stack _ _ _ _ _ _ _ L) as Hs.
  pose proof (inv_nodup _ _ (li_inv _ _ _ _ _ _ _ L)) as Hnd.
  rewrite Hs in Hnd. apply NoDup_app in Hnd as (_ & Hd & Hnd).
  apply NoDup_cons in Hnd as [Hn _].
  assert (Hin : n ∈ nodeStack sti).
  { rewrite Hs. apply elem_of_app. right. apply list_elem_of_here. }
  pose proof (inv_stack _ _ (li_inv _ _ _ _ _ _ _ L) n Hin) as Hv.
  split; [done|]. split; [done|]. split; [by apply index_of_visited_lt|].
  split; [|split].
  - intros d Hdn ->. apply (Hd n Hdn). apply list_elem_of_here.
  - intros x Hx ->. done.
  - intros x Hx. rewrite Hs. apply elem_of_app. right. by apply elem_of_cons; right.
Qed.

(** Lowering the lowlink of [n] to the index of a node on the stack that
    [n] reaches keeps the invariant of the loop. *)
Lemma loop_inv_lower n st seen sti new groups m :
  loop_inv g n st seen sti new groups →
  index_of st n = -1 →
  m ≤ lowlink_of sti n →
  (∃ w, w ∈ nodeStack sti ∧ index_of sti w = m ∧ reach g n w) →
  loop_inv g n st seen (set_lowlink n m sti) new groups.
Proof.
  intros L Hn Hm Hwit.
  destruct (loop_inv_on_stack _ _ _ _ _ _ L) as (Hin & Hv & Hlt & Hnew & Hold & Hsub).
  destruct L as [L1 L2 L3 L4 L5 L6 L7 L8 L9 L10 L11 L12 L13 L14 L15 L16].
  assert (Hlow : lowlink_of (set_lowlink n m sti) n = m)
    by by apply lowlink_of_set_lowlink_eq.
  split; try done.
  - by apply inv_set_lowlink.
  - intros v Hvst. assert (v ≠ n) by (intros ->; done).
    rewrite index_of_set_lowlink, lowlink_of_set_lowlink_ne by done. by apply L2.
  - intros v. rewrite index_of_set_lowlink. apply L3.
  - by rewrite index_of_set_lowlink.
  - rewrite index_of_set_lowlink, Hlow. lia.
  - destruct Hwit as (w & Hw1 & Hw2 & Hw3). exists w.
    by rewrite index_of_set_lowlink, Hlow.
  - intros d Hd. destruct (L9 d Hd) as (Hc & Hl & Hch).
    rewrite Hlow, lowlink_of_set_lowlink_ne by by apply Hnew.
    split; [done|]. split; [lia|].
    intros w. rewrite index_of_set_lowlink. apply Hch.
  - intros w Hw. destruct (L10 w Hw) as [H1 H2]. rewrite index_of_set_lowlink, Hlow.
    split; [done|]. intros Hws. specialize (H2 Hws). lia.
  - intros v. rewrite index_of_set_lowlink. apply L11.
Qed.

Lemma loop_inv_seen n st seen sti new groups c :
  loop_inv g n st seen sti new groups →
  index_of sti c ≠ -1 →
  (c ∈ nodeStack st → lowlink_of sti n ≤ index_of st c) →
  loop_inv g n st (seen ++ [c]) sti new groups.
Proof.
  intros L Hc Hb.
  destruct L as [L1 L2 L3 L4 L5 L6 L7 L8 L9 L10 L11 L12 L13 L14 L15 L16].
  split; try done.
  intros w [Hw|Hw]%elem_of_app; [by apply L10|].
  apply list_elem_of_singleton in Hw as ->. done.
Qed.

Lemma connected_trans u v w : connected g u v → connected g v w → connected g u w.
Proof.
  intros [H1 H2] [H3 H4]. split; unfold reach in *; by etrans.
Qed.

Lemma connected_refl u : connected g u u.
Proof. split; apply rtc_refl. Qed.

(** The loop after the recursive call on an unvisited child [c] and the
    update of the lowlink of [n]. *)
Lemma loop_inv_child n st seen sti new groups c stc new_c groups_c :
  inv g st → index_of st n = -1 →
  (∀ x, x ∈ nodeStack st → reach g x n) →
  loop_inv g n st seen sti new groups →
  edge g n c → index_of sti c = -1 →
  visit_post g c sti stc new_c groups_c →
  loop_inv g n st (seen ++ [c])
    (set_lowlink n (Z.min (lowlink_of stc n) (lowlink_of stc c)) stc)
    (new_c ++ new) (groups ++ groups_c).
Proof.
  intros Hinv Hn Hpre L Hedge Hc P.
  destruct (loop_inv_on_stack _ _ _ _ _ _ L) as (Hin & Hv & Hlt & Hnew & Hold & Hsub).
  pose proof (inv_count _ _ Hinv) as Hcnt.
  destruct L as [L1 L2 L3 L4 L5 L6 L7 L8 L9 L10 L11 L12 L13 L14 L15 L16].
  destruct P as [P1 P2 P3 P4 P5 P6 P7 P8 P9 P10 P11 P12 P13 P14 P15 P16].
  destruct (P2 n Hv) as [Hni Hnl].
  assert (Hcn : c ≠ n) by (intros ->; done).
  assert (Hlt' : (n < length (nodes stc))%nat).
  { rewrite (inv_length _ _ P1), <- (inv_length _ _ L1). done. }
  set (m := Z.min (lowlink_of stc n) (lowlink_of stc c)).
  assert (Hlow : lowlink_of (set_lowlink n m stc) n = m)
    by by apply lowlink_of_set_lowlink_eq.
  assert (Hm : m ≤ lowlink_of sti n) by (unfold m; lia).
  assert (Hmc : m ≤ lowlink_of stc c) by (unfold m; lia).
  (* the nodes on the stack before the call keep their numbers *)
  assert (Hkeep : ∀ x, x ∈ nodeStack sti →
            index_of stc x = index_of sti x ∧ lowlink_of stc x = lowlink_of sti x).
  { intros x Hx. apply P2. by apply (inv_stack _ _ L1). }
  (* every node on the stack reaches [n] *)
  assert (Hreach : ∀ x, x ∈ nodeStack sti → reach g x n).
  { intros x. rewrite L7. intros [Hx|[->|Hx]%elem_of_cons]%elem_of_app.
    - by destruct (L9 x Hx) as [[_ ?] _].
    - apply rtc_refl.
    - by apply Hpre. }
  (* what the call left on the stack lies in the component of [n] *)
  assert (Hcomp : new_c ≠ [] → connected g n c).
  { intros Hne. destruct (P9 Hne) as (_ & _ & w & Hw1 & _ & Hw3). split.
    - by apply rtc_once.
    - unfold reach. etrans; [done|]. by apply Hreach. }
  assert (Hnewc : ∀ d, d ∈ new_c → d ≠ n ∧ new_c ≠ []).
  { intros d Hd. split.
    - intros ->. pose proof (inv_nodup _ _ P1) as Hnd. rewrite P7 in Hnd.
      apply NoDup_app in Hnd as (_ & Hnd & _). by apply (Hnd n).
    - intros ->. by apply elem_of_nil in Hd. }
  split.
  - by apply inv_set_lowlink.
  - intros v Hvst. assert (v ≠ n) by (intros ->; done).
    rewrite index_of_set_lowlink, lowlink_of_set_lowlink_ne by done.
    destruct (L2 v Hvst) as [E1 E2].
    assert (index_of sti v ≠ -1) by (rewrite E1; done).
    destruct (P2 v) as [E3 E4]; [done|]. by rewrite E3, E4.
  - intros v Hvst. rewrite index_of_set_lowlink.
    destruct (L3 v Hvst) as [E|E].
    + destruct (P3 v E) as [E'|E']; [by left|right; lia].
    + right. destruct (P2 v) as [-> _]; [lia|done].
  - by rewrite index_of_set_lowlink, Hni.
  - simpl. lia.
  - rewrite index_of_set_lowlink, Hlow, Hni. lia.
  - simpl. rewrite P7, L7. by rewrite app_assoc.
  - rewrite Hlow. simpl.
    destruct (Z.min_spec (lowlink_of stc n) (lowlink_of stc c)) as [[Hle Hmin]|[Hle Hmin]].
    + destruct L8 as (w & Hw1 & Hw2 & Hw3). exists w. split; [|split; [|done]].
      * rewrite P7. apply elem_of_app. by right.
      * rewrite index_of_set_lowlink. destruct (Hkeep w Hw1) as [-> _].
        fold m in Hmin. lia.
    + destruct (decide (new_c = [])) as [Hnil|Hne].
      * specialize (P8 Hnil). pose proof (inv_index _ _ L1 n). lia.
      * destruct (P9 Hne) as (_ & _ & w & Hw1 & Hw2 & Hw3).
        exists w. split; [|split].
        -- rewrite P7. apply elem_of_app. by right.
        -- rewrite index_of_set_lowlink. destruct (Hkeep w Hw1) as [-> _].
           fold m in Hmin. lia.
        -- unfold reach. etrans; [by apply rtc_once|done].
  - intros d [Hd|Hd]%elem_of_app.
    + destruct (Hnewc d Hd) as [Hdn Hne].
      destruct (P10 d Hd) as (Hcd & Hl & Hch).
      rewrite Hlow, lowlink_of_set_lowlink_ne by done.
      split; [by eapply connected_trans; [apply Hcomp|]|]. split; [lia|].
      intros w Hw. rewrite index_of_set_lowlink.
      destruct (Hch w Hw) as [H1 H2]. split; [done|].
      intros Hws. destruct (L2 w) as [<- _]; [by apply (inv_stack _ _ Hinv)|].
      apply H2. by apply Hsub.
    + destruct (L9 d Hd) as (Hcd & Hl & Hch).
      assert (Hds : d ∈ nodeStack sti).
      { rewrite L7. apply elem_of_app. by left. }
      destruct (Hkeep d Hds) as [_ Hdl].
      rewrite Hlow, lowlink_of_set_lowlink_ne, Hdl by by apply Hnew.
      split; [done|]. split; [lia|].
      intros w Hw. rewrite index_of_set_lowlink.
      destruct (Hch w Hw) as [H1 H2]. split; [|done].
      destruct (P2 w H1) as [-> _]. done.
  - intros w [Hw|Hw]%elem_of_app.
    + destruct (L10 w Hw) as [H1 H2]. rewrite index_of_set_lowlink, Hlow.
      split; [by destruct (P2 w H1) as [-> _]|].
      intros Hws. specialize (H2 Hws). lia.
    + apply list_elem_of_singleton in Hw as ->.
      rewrite index_of_set_lowlink, P4. split.
      * pose proof (inv_count _ _ L1). lia.
      * intros Hcs. exfalso. by apply (inv_stack _ _ L1 c (Hsub c Hcs)).
  - intros v. rewrite index_of_set_lowlink, concat_app. split.
    + intros Hge. destruct (decide (index_of sti v = -1)) as [E|E].
      * destruct (P3 v E) as [E'|E']; [lia|].
        apply P11 in E' as [?|?].
        -- right; left. apply elem_of_app. by left.
        -- right; right. apply elem_of_app. by right.
      * destruct (P2 v E) as [Ei _]. rewrite Ei in Hge.
        apply L11 in Hge as [?|[?|?]]; [by left| |].
        -- right; left. apply elem_of_app. by right.
        -- right; right. apply elem_of_app. by left.
    + intros [->|[[Hd|Hd]%elem_of_app|[Hd|Hd]%elem_of_app]].
      * rewrite Hni. lia.
      * assert (indexCount sti ≤ index_of stc v) by (apply P11; by left). lia.
      * assert (Hge : indexCount st ≤ index_of sti v) by (apply L11; auto).
        destruct (P2 v) as [-> _]; [lia|done].
      * assert (Hge : indexCount st ≤ index_of sti v) by (apply L11; auto).
        destruct (P2 v) as [-> _]; [lia|done].
      * assert (indexCount sti ≤ index_of stc v) by (apply P11; by right). lia.
  - rewrite concat_app. apply NoDup_app. split; [done|]. split; [|done].
    intros v Hv1 Hv2.
    assert (Hge : indexCount st ≤ index_of sti v) by (apply L11; auto).
    assert (index_of stc v < indexCount sti).
    { destruct (P2 v) as [-> _]; [lia|]. apply (inv_index _ _ L1). }
    assert (indexCount sti ≤ index_of stc v) by (apply P11; by right). lia.
  - intros v. rewrite concat_app. simpl. rewrite P7.
    intros [Hv1|Hv1]%elem_of_app.
    + intros [Hs|Hs]%elem_of_app; [|by apply (L13 v)].
      assert (Hge : indexCount st ≤ index_of sti v) by (apply L11; auto).
      assert (index_of stc v < indexCount sti).
      { destruct (P2 v) as [-> _]; [lia|]. apply (inv_index _ _ L1). }
      assert (indexCount sti ≤ index_of stc v) by (apply P11; by left). lia.
    + rewrite <- P7. by apply P13.
  - by apply Forall_app.
  - simpl. rewrite P15, L15, flat_map_app. by rewrite app_assoc.
  - simpl. rewrite P16, L16, existsb_app. by rewrite orb_assoc.
Qed.

Lemma loop_inv_reach n st seen sti new groups :
  (∀ x, x ∈ nodeStack st → reach g x n) →
  loop_inv g n st seen sti new groups →
  ∀ x, x ∈ nodeStack sti → reach g x n.
Proof.
  intros Hpre L x. rewrite (li_stack _ _ _ _ _ _ _ L).
  intros [Hx|[->|Hx]%elem_of_cons]%elem_of_app.
  - by destruct (li_new _ _ _ _ _ _ _ L x Hx) as [[_ ?] _].
  - apply rtc_refl.
  - by apply Hpre.
Qed.

(** The loop over the links of [n], given that the recursive calls behave. *)
Lemma visit_children_spec f n st :
  (∀ c stc, visit_pre g c stc f →
     ∃ stc' new groups, tarjan f c stc = Ok stc' ∧ visit_post g c stc stc' new groups) →
  inv g st → index_of st n = -1 →
  (∀ x, x ∈ nodeStack st → reach g x n) →
  (length g ≤ S f + length (nodeStack st))%nat →
  ∀ children seen sti new groups,
    loop_inv g n st seen sti new groups →
    (∀ c, c ∈ children → edge g n c) →
    ∃ st2 new2 groups2,
      visit_children (tarjan f) n children sti = Ok st2 ∧
      loop_inv g n st (seen ++ children) st2 new2 groups2.
Proof.
  intros IHf Hinv Hn Hpre Hfuel children.
  induction children as [|c rest IH]; intros seen sti new groups L Hedges.
  - exists sti, new, groups. by rewrite app_nil_r.
  - assert (Hedge : edge g n c) by (apply Hedges, list_elem_of_here).
    assert (Hrest : ∀ c', c' ∈ rest → edge g n c').
    { intros c' Hc'. apply Hedges. by apply elem_of_cons; right. }
    replace (seen ++ c :: rest) with ((seen ++ [c]) ++ rest)
      by by rewrite <- app_assoc.
    simpl. destruct (Z.eqb_spec (index_of sti c) (-1)) as [Hc|Hc].
    + destruct (IHf c sti) as (stc & new_c & groups_c & Hrun & P).
      { split; [apply (li_inv _ _ _ _ _ _ _ L)|]. split; [done|].
        split; [by eapply g_closed|]. split.
        - intros x Hx. unfold reach. etrans; [by eapply loop_inv_reach|].
          by apply rtc_once.
        - rewrite (li_stack _ _ _ _ _ _ _ L), length_app. simpl. lia. }
      rewrite Hrun. simpl. eapply IH; [|done].
      by eapply loop_inv_child.
    + destruct (on_stack sti c) eqn:Hon.
      * apply on_stack_true in Hon. eapply IH; [|done].
        destruct (loop_inv_on_stack _ _ _ _ _ _ L) as (_ & _ & _ & _ & _ & Hsub).
        apply loop_inv_seen.
        -- apply loop_inv_lower; [done..|lia|].
           destruct (Z.min_spec (lowlink_of sti n) (index_of sti c))
             as [[Hle ->]|[Hle ->]].
           ++ apply (li_low_wit _ _ _ _ _ _ _ L).
           ++ exists c. split; [done|]. split; [done|]. by apply rtc_once.
        -- by rewrite index_of_set_lowlink.
        -- intros Hcs.
           destruct (loop_inv_on_stack _ _ _ _ _ _ L) as (_ & _ & Hlt & _).
           rewrite lowlink_of_set_lowlink_eq by done.
           destruct (li_frame _ _ _ _ _ _ _ L c) as [<- _];
             [by apply (inv_stack _ _ Hinv)|]. lia.
      * apply on_stack_false in Hon. eapply IH; [|done].
        apply loop_inv_seen; [done..|].
        intros Hcs. exfalso. apply Hon.
        destruct (loop_inv_on_stack _ _ _ _ _ _ L) as (_ & _ & _ & _ & _ & Hsub).
        by apply Hsub.
Qed.

Lemma same_nodes_index st st' v : nodes st' = nodes st → index_of st' v = index_of st v.
Proof. unfold index_of. by intros ->. Qed.

Lemma same_nodes_lowlink st st' v : nodes st' = nodes st → lowlink_of st' v = lowlink_of st v.
Proof. unfold lowlink_of. by intros ->. Qed.

Lemma same_nodes_links st st' v : nodes st' = nodes st → links_of st' v = links_of st v.
Proof. unfold links_of. by intros ->. Qed.

Lemma same_nodes_name st st' v : nodes st' = nodes st → name_of st' v = name_of st v.
Proof. unfold name_of. by intros ->. Qed.

(** The end of [tarjan(n)] when the lowlink of [n] is its index: everything
    down to [n] leaves the stack, and that is the component of [n]. *)
Lemma pop_post n st st2 new groups st' :
  inv g st → index_of st n = -1 →
  loop_inv g n st (succ g n) st2 new groups →
  lowlink_of st2 n = index_of st2 n →
  nodes st' = nodes st2 → nodeStack st' = nodeStack st →
  indexCount st' = indexCount st2 →
  output st' = output st2 ++ cycle_lines g (new ++ [n]) →
  cyclesDetected st' = cyclesDetected st2 || (1 <? length (new ++ [n]))%nat →
  visit_post g n st st' [] (groups ++ [new ++ [n]]).
Proof.
  intros Hinv Hn L Heq Hnodes Hstack Hcount Hout Hdet.
  destruct (loop_inv_on_stack _ _ _ _ _ _ L) as (Hin & Hv & Hlt & Hnew & Hold & Hsub).
  destruct L as [L1 L2 L3 L4 L5 L6 L7 L8 L9 L10 L11 L12 L13 L14 L15 L16].
  assert (Hi : ∀ v, index_of st' v = index_of st2 v)
    by (intros; by apply same_nodes_index).
  assert (Hl : ∀ v, lowlink_of st' v = lowlink_of st2 v)
    by (intros; by apply same_nodes_lowlink).
  pose proof (inv_nodup _ _ L1) as Hnd. rewrite L7 in Hnd.
  apply NoDup_app in Hnd as (Hnd1 & Hnd2 & Hnd3).
  apply NoDup_cons in Hnd3 as [Hnd3 Hnd4].
  assert (Hgrp : ∀ v, v ∈ new ++ [n] → v ∈ nodeStack st2 ∧ v ∉ nodeStack st).
  { intros v [Hv'|Hv']%elem_of_app.
    - split; [rewrite L7; apply elem_of_app; by left|].
      intros Hs. apply (Hnd2 v Hv'). by apply elem_of_cons; right.
    - apply list_elem_of_singleton in Hv' as ->. done. }
  (* no link leaves the component for the stack below it *)
  assert (Hclosed : ∀ v w, v ∈ new ++ [n] → edge g v w →
            index_of st2 w ≠ -1 ∧ w ∉ nodeStack st).
  { intros v w [Hv'|Hv']%elem_of_app Hvw.
    - destruct (L9 v Hv') as (_ & Hlow & Hch). destruct (Hch w Hvw) as [H1 H2].
      split; [done|]. intros Hws. specialize (H2 Hws).
      pose proof (inv_index _ _ Hinv w). lia.
    - apply list_elem_of_singleton in Hv' as ->.
      destruct (L10 w Hvw) as [H1 H2].
      split; [done|]. intros Hws. specialize (H2 Hws).
      pose proof (inv_index _ _ Hinv w). lia. }
  assert (Hinv' : inv g st').
  { split.
    - rewrite Hnodes. apply (inv_length _ _ L1).
    - intros v. rewrite (same_nodes_links st2) by done. apply (inv_links _ _ L1).
    - intros v. rewrite (same_nodes_name st2) by done. apply (inv_names _ _ L1).
    - rewrite Hcount. apply (inv_count _ _ L1).
    - intros v. rewrite Hi, Hcount. apply (inv_index _ _ L1).
    - by rewrite Hstack.
    - intros v. rewrite Hstack, Hi. intros Hvs. by apply (inv_stack _ _ L1), Hsub.
    - intros v w. rewrite Hstack, !Hi. intros Hvv Hvs Hvw.
      destruct (decide (v ∈ nodeStack st2)) as [Hon|Hoff].
      + apply Hclosed with v; [|done]. rewrite L7 in Hon.
        apply elem_of_app in Hon as [?|[->|?]%elem_of_cons];
          [apply elem_of_app; by left| |done].
        apply elem_of_app. right. apply list_elem_of_here.
      + destruct (inv_closed _ _ L1 v w Hvv Hoff Hvw) as [H1 H2].
        split; [done|]. intros Hws. by apply H2, Hsub. }
  split; try done.
  - intros v Hvv. rewrite Hi, Hl. by apply L2.
  - intros v. rewrite Hi. apply L3.
  - by rewrite Hi.
  - by rewrite Hcount.
  - rewrite Hi, Hl. lia.
  - by rewrite Hi, Hl.
  - intros d Hd. by apply elem_of_nil in Hd.
  - intros v. rewrite Hi, L11, concat_app. simpl. rewrite app_nil_r.
    rewrite !elem_of_app, list_elem_of_singleton, elem_of_nil. tauto.
  - rewrite concat_app. simpl. rewrite app_nil_r.
    apply NoDup_app. split; [done|]. split.
    + intros v Hv1 Hv2. apply (L13 v Hv1). by apply Hgrp.
    + apply NoDup_app. split; [done|]. split; [|apply NoDup_singleton].
      intros v Hv1 ->%list_elem_of_singleton. apply (Hnd2 n Hv1), list_elem_of_here.
  - intros v. rewrite Hstack, concat_app. simpl. rewrite app_nil_r.
    intros [Hv1|Hv1]%elem_of_app.
    + intros Hs. by apply (L13 v Hv1), Hsub.
    + by apply Hgrp.
  - apply Forall_app. split; [done|]. apply Forall_singleton.
    exists n. intros v. split.
    + intros [Hv1|Hv1]%elem_of_app.
      * by destruct (L9 v Hv1) as [? _].
      * apply list_elem_of_singleton in Hv1 as ->. apply connected_refl.
    + intros [Hnv Hvn].
      assert (Hn' : index_of st' n ≠ -1) by by rewrite Hi.
      assert (Hoff : n ∉ nodeStack st') by by rewrite Hstack.
      destruct (closed_reach st' n v Hinv' Hn' Hoff Hnv) as [Hv1 Hv2].
      rewrite Hi in Hv1. rewrite Hstack in Hv2.
      destruct (decide (v ∈ nodeStack st2)) as [Hon|Hoff2].
      * rewrite L7 in Hon.
        apply elem_of_app in Hon as [?|[->|?]%elem_of_cons];
          [apply elem_of_app; by left| |done].
        apply elem_of_app. right. apply list_elem_of_here.
      * by destruct (closed_reach st2 v n L1 Hv1 Hoff2 Hvn) as [_ ?].
  - rewrite Hout, L15, flat_map_app. simpl. by rewrite app_nil_r, app_assoc.
  - rewrite Hdet, L16, existsb_app. simpl. by rewrite orb_false_r, orb_assoc.
Qed.

(** The end of [tarjan(n)] when the lowlink of [n] is below its index: [n]
    stays on the stack with what its call left there. *)
Lemma keep_post n st st2 new groups :
  inv g st → index_of st n = -1 →
  loop_inv g n st (succ g n) st2 new groups →
  lowlink_of st2 n ≠ index_of st2 n →
  visit_post g n st st2 (new ++ [n]) groups.
Proof.
  intros Hinv Hn L Hneq.
  destruct (loop_inv_on_stack _ _ _ _ _ _ L) as (Hin & Hv & Hlt & Hnew & Hold & Hsub).
  destruct L as [L1 L2 L3 L4 L5 L6 L7 L8 L9 L10 L11 L12 L13 L14 L15 L16].
  split; try done.
  - by rewrite L7, <- app_assoc.
  - intros H. by apply app_eq_nil in H as [_ ?].
  - intros _. split; [apply elem_of_app; right; apply list_elem_of_here|].
    split; [lia|].
    destruct L8 as (w & Hw1 & Hw2 & Hw3). exists w.
    assert (Hws : w ∈ nodeStack st).
    { rewrite L7 in Hw1.
      apply elem_of_app in Hw1 as [Hw1|[->|Hw1]%elem_of_cons]; [|lia|done].
      assert (indexCount st ≤ index_of st2 w) by (apply L11; auto). lia. }
    split; [done|]. split; [|done].
    destruct (L2 w) as [<- _]; [by apply (inv_stack _ _ Hinv)|done].
  - intros d [Hd|Hd]%elem_of_app; [by apply L9|].
    apply list_elem_of_singleton in Hd as ->.
    split; [apply connected_refl|]. split; [lia|]. intros w Hw. by apply L10.
  - intros v. rewrite L11, !elem_of_app, list_elem_of_singleton. tauto.
Qed.

Lemma close_component_spec n st st2 new groups :
  inv g st → index_of st n = -1 →
  loop_inv g n st (succ g n) st2 new groups →
  ∃ st' new' groups',
    close_component n st2 = Ok st' ∧ visit_post g n st st' new' groups'.
Proof.
  intros Hinv Hn L. unfold close_component.
  destruct (Z.eqb_spec (lowlink_of st2 n) (index_of st2 n)) as [Heq|Hneq].
  - destruct (loop_inv_on_stack _ _ _ _ _ _ L) as (_ & _ & _ & Hnew & _).
    rewrite (li_stack _ _ _ _ _ _ _ L), pop_cycle_split
      by (intros H; by apply (Hnew n H)).
    simpl. destruct (1 <? length (new ++ [n]))%nat eqn:Hlen.
    + eexists _, [], _. split; [done|].
      eapply pop_post; try done; simpl.
      * unfold cycle_lines. rewrite Hlen. do 4 f_equal.
        apply list_fmap_ext. intros i v _.
        rewrite <- (inv_names _ _ (li_inv _ _ _ _ _ _ _ L)). done.
      * by rewrite Hlen, orb_true_r.
    + eexists _, [], _. split; [done|].
      eapply pop_post; try done; simpl.
      * unfold cycle_lines. by rewrite Hlen, app_nil_r.
      * by rewrite Hlen, orb_false_r.
  - eexists _, _, _. split; [done|]. by apply keep_post.
Qed.

Lemma stack_bound_strict n st :
  inv g st → index_of st n = -1 → (n < length g)%nat →
  (length (nodeStack st) < length g)%nat.
Proof.
  intros Hinv Hn Hlt.
  pose proof (stack_bound _ (li_inv _ _ _ _ _ _ _ (enter_loop_inv n st Hinv Hn Hlt))) as H.
  rewrite enter_stack in H. simpl in H. lia.
Qed.

(** A call on an unvisited node returns, and establishes [visit_post]. *)
Lemma tarjan_spec fuel :
  ∀ n st, visit_pre g n st fuel →
    ∃ st' new groups, tarjan fuel n st = Ok st' ∧ visit_post g n st st' new groups.
Proof.
  induction fuel as [|f IH]; intros n st (Hinv & Hn & Hlt & Hpre & Hfuel).
  - pose proof (stack_bound_strict n st Hinv Hn Hlt). lia.
  - simpl. rewrite (inv_links _ _ Hinv).
    destruct (visit_children_spec f n st IH Hinv Hn Hpre Hfuel
                (succ g n) [] (enter n st) [] [])
      as (st2 & new & groups & Hrun & L).
    + by apply enter_loop_inv.
    + done.
    + rewrite Hrun. simpl. by eapply close_component_spec.
Qed.

(** *** Calls on visited nodes, and the loop of [main] *)

Lemma set_lowlink_same n st : set_lowlink n (lowlink_of st n) st = st.
Proof.
  unfold set_lowlink, lowlink_of. destruct st as [nds stk cnt out det]. simpl.
  f_equal. apply list_eq. intros j. rewrite list_lookup_alter.
  case_decide; [subst j|done].
  destruct (nds !! n) as [[nm ls i l]|]; done.
Qed.

(** In a loop whose links are all visited and where only [n] is on the
    stack, nothing changes. *)
Lemma visit_children_visited rec n children st :
  nodeStack st = [n] → lowlink_of st n = index_of st n →
  (∀ c, c ∈ children → index_of st c ≠ -1) →
  visit_children rec n children st = Ok st.
Proof.
  intros Hs Hl. induction children as [|c rest IH]; intros Hc; [done|].
  simpl. destruct (Z.eqb_spec (index_of st c) (-1)) as [E|_].
  { exfalso. by apply (Hc c), E; apply list_elem_of_here. }
  assert (Hrest : ∀ c', c' ∈ rest → index_of st c' ≠ -1).
  { intros c' Hc'. apply Hc. by apply elem_of_cons; right. }
  destruct (on_stack st c) eqn:Hon; [|by apply IH].
  apply on_stack_true in Hon. rewrite Hs in Hon.
  apply list_elem_of_singleton in Hon as ->.
  rewrite <- Hl, Z.min_id, set_lowlink_same. by apply IH.
Qed.

(** A call on a visited node whose links are all visited, the stack being
    empty: the node is numbered again, pushed and popped. *)
Lemma tarjan_visited f n st :
  nodeStack st = [] → 0 ≤ indexCount st → (n < length (nodes st))%nat →
  (∀ c, c ∈ links_of st n → index_of st c ≠ -1) →
  tarjan (S f) n st = Ok (set_stack [] (enter n st)).
Proof.
  intros Hs Hc Hn Hch. simpl.
  rewrite visit_children_visited.
  - simpl. unfold close_component.
    rewrite enter_lowlink_eq, enter_index_eq, Z.eqb_refl by done.
    rewrite enter_stack, Hs. simpl. by rewrite Nat.eqb_refl.
  - by rewrite enter_stack, Hs.
  - by rewrite enter_lowlink_eq, enter_index_eq.
  - intros c Hcl. destruct (decide (c = n)) as [->|Hne].
    + rewrite enter_index_eq by done. lia.
    + rewrite enter_index_ne by done. by apply Hch.
Qed.

Lemma inv_revisit n st :
  inv g st → nodeStack st = [] → index_of st n ≠ -1 →
  inv g (set_stack [] (enter n st)).
Proof.
  intros Hinv Hs Hn.
  assert (Hlt : (n < length (nodes st))%nat) by by apply index_of_visited_lt.
  pose proof (inv_count _ _ Hinv) as Hc.
  set (st' := set_stack [] (enter n st)).
  assert (Hi : ∀ v, index_of st' v = index_of (enter n st) v) by done.
  assert (Hvis : ∀ v, index_of st' v ≠ -1 ↔ index_of st v ≠ -1).
  { intros v. rewrite Hi. destruct (decide (v = n)) as [->|Hne].
    - rewrite enter_index_eq by done. split; [done|lia].
    - by rewrite enter_index_ne. }
  split.
  - change (length (nodes (enter n st)) = length g).
    rewrite enter_length. apply (inv_length _ _ Hinv).
  - intros v. change (links_of (enter n st) v = succ g v).
    rewrite enter_links. apply (inv_links _ _ Hinv).
  - intros v. change (name_of (enter n st) v = name_of (initial g) v).
    rewrite enter_names. apply (inv_names _ _ Hinv).
  - change (0 ≤ indexCount st + 1). lia.
  - intros v. change (index_of (enter n st) v < indexCount st + 1).
    destruct (decide (v = n)) as [->|Hne].
    + rewrite enter_index_eq by done. lia.
    + rewrite enter_index_ne by done. pose proof (inv_index _ _ Hinv v). lia.
  - apply NoDup_nil_2.
  - intros v Hv. by apply elem_of_nil in Hv.
  - intros v w Hv _ Hvw. split; [|apply not_elem_of_nil].
    apply Hvis. apply Hvis in Hv.
    eapply (inv_closed _ _ Hinv v w); [done| |done].
    rewrite Hs. apply not_elem_of_nil.
Qed.

(** One turn of the loop of [main]. *)
Lemma root_step n st groups :
  top_inv g st groups → (n < length g)%nat →
  ∃ st' groups',
    tarjan (length g) n st = Ok st' ∧
    top_inv g st' (groups ++ groups') ∧
    index_of st' n = indexCount st ∧
    (∀ v, index_of st v ≠ -1 → v ≠ n → index_of st' v = index_of st v) ∧
    (index_of st n ≠ -1 → st' = set_stack [] (enter n st) ∧ groups' = []).
Proof.
  intros [T1 T2 T3 T4 T5 T6 T7] Hn.
  pose proof (inv_count _ _ T1) as Hc.
  assert (Hlt : (n < length (nodes st))%nat) by by rewrite (inv_length _ _ T1).
  destruct (decide (index_of st n = -1)) as [Hu|Hv].
  - destruct (tarjan_spec (length g) n st) as (st' & new & groups' & Hrun & P).
    { split; [done|]. split; [done|]. split; [done|]. split; [|lia].
      intros x. rewrite T2. intros Hx. by apply elem_of_nil in Hx. }
    destruct P as [P1 P2 P3 P4 P5 P6 P7 P8 P9 P10 P11 P12 P13 P14 P15 P16].
    assert (Hnew : new = []).
    { destruct (decide (new = [])) as [|Hne]; [done|].
      destruct (P9 Hne) as (_ & _ & w & Hw & _). rewrite T2 in Hw.
      by apply elem_of_nil in Hw. }
    subst new. exists st', groups'. split; [done|]. split; [|split; [done|split]].
    + split; try done.
      * by rewrite P7, T2.
      * intros v. rewrite concat_app, elem_of_app, <- T3. split.
        -- intros Hv. destruct (decide (index_of st v = -1)) as [E|E]; [|by left].
           right. destruct (P3 v E) as [?|Hge]; [done|].
           apply P11 in Hge as [H|H]; [by apply elem_of_nil in H|done].
        -- intros [Hv|Hv].
           ++ by destruct (P2 v Hv) as [-> _].
           ++ assert (indexCount st ≤ index_of st' v) by (apply P11; by right). lia.
      * rewrite concat_app. apply NoDup_app. split; [done|]. split; [|done].
        intros v Hv1 Hv2. apply T3 in Hv1.
        destruct (P2 v Hv1) as [E _]. pose proof (inv_index _ _ T1 v).
        assert (indexCount st ≤ index_of st' v) by (apply P11; by right). lia.
      * by apply Forall_app.
      * by rewrite P15, T6, flat_map_app.
      * by rewrite P16, T7, existsb_app.
    + intros v Hv _. by destruct (P2 v Hv) as [-> _].
    + done.
  - destruct (length g) as [|f] eqn:Hlen; [lia|].
    exists (set_stack [] (enter n st)), []. split; [|split; [|split; [|split]]].
    + apply tarjan_visited; [done..|].
      intros c Hcl. rewrite (inv_links _ _ T1) in Hcl.
      eapply (inv_closed _ _ T1 n c); [done| |done].
      rewrite T2. apply not_elem_of_nil.
    + rewrite app_nil_r. split; try done.
      * by apply inv_revisit.
      * intros v. rewrite <- T3.
        change (index_of (enter n st) v ≠ -1 ↔ index_of st v ≠ -1).
        destruct (decide (v = n)) as [->|Hne].
        -- rewrite enter_index_eq by done. split; [done|lia].
        -- by rewrite enter_index_ne.
    + change (index_of (enter n st) n = indexCount st). by apply enter_index_eq.
    + intros v _ Hne. change (index_of (enter n st) v = index_of st v).
      by apply enter_index_ne.
    + done.
Qed.

Lemma top_inv_visited_mono st groups st' groups' v :
  top_inv g st groups → top_inv g st' (groups ++ groups') →
  index_of st v ≠ -1 → index_of st' v ≠ -1.
Proof.
  intros T T' Hv. apply (ti_visited _ _ _ T'). rewrite concat_app.
  apply elem_of_app. left. by apply (ti_visited _ _ _ T).
Qed.

(** The loop of [main] over any list of roots. *)
Lemma run_roots_spec roots :
  ∀ st groups, top_inv g st groups →
    (∀ r, r ∈ roots → (r < length g)%nat) →
    ∃ st' groups',
      run_roots (length g) roots st = Ok st' ∧
      top_inv g st' (groups ++ groups') ∧
      (∀ v, index_of st v ≠ -1 ∨ v ∈ roots → index_of st' v ≠ -1).
Proof.
  induction roots as [|r rest IH]; intros st groups T Hr.
  - exists st, []. rewrite app_nil_r. split; [done|]. split; [done|].
    intros v [?|Hv]; [done|by apply elem_of_nil in Hv].
  - destruct (root_step r st groups T) as (st1 & groups1 & Hrun & T1 & Hi & _).
    { apply Hr, list_elem_of_here. }
    destruct (IH st1 (groups ++ groups1) T1) as (st' & groups' & Hrun' & T' & Hvis).
    { intros r' Hr'. apply Hr. by apply elem_of_cons; right. }
    exists st', (groups1 ++ groups'). simpl. rewrite Hrun. simpl.
    split; [done|]. rewrite app_assoc. split; [done|].
    intros v [Hv|[->|Hv]%elem_of_cons]; apply Hvis; auto.
    + left. by eapply (top_inv_visited_mono st groups st1 groups1).
    + left. rewrite Hi. pose proof (inv_count _ _ (ti_inv _ _ _ T)). lia.
Qed.

End Traversal.

(** ** What [main] prints *)

Lemma fresh_closed g : fresh_graph g → ∀ u v, edge g u v → (v < length g)%nat.
Proof.
  intros Hf u v. unfold edge, succ. destruct (g !! u) as [node|] eqn:E.
  - intros Hv. apply list_elem_of_lookup_2 in E.
    unfold fresh_graph in Hf.
    rewrite Forall_forall in Hf. destruct (Hf node E) as [_ Hl].
    rewrite Forall_forall in Hl. by apply Hl.
  - intros Hv. by apply elem_of_nil in Hv.
Qed.

Lemma fresh_index g v : fresh_graph g → index_of (initial g) v = -1.
Proof.
  intros Hf. unfold index_of. simpl. destruct (g !! v) as [node|] eqn:E; [|done].
  apply list_elem_of_lookup_2 in E. unfold fresh_graph in Hf.
  rewrite Forall_forall in Hf. by destruct (Hf node E).
Qed.

Lemma fresh_top_inv g : fresh_graph g → top_inv g (initial g) [].
Proof.
  intros Hf. split; try done.
  - split; try done.
    + intros v. rewrite fresh_index by done. simpl. lia.
    + apply NoDup_nil_2.
    + intros v Hv. by apply elem_of_nil in Hv.
    + intros v w Hv. by rewrite fresh_index in Hv.
  - intros v. rewrite fresh_index by done. simpl. split; [done|].
    intros Hv. by apply elem_of_nil in Hv.
  - apply NoDup_nil_2.
Qed.

Lemma no_lines g groups :
  existsb (fun grp => (1 <? length grp)%nat) groups = false →
  flat_map (cycle_lines g) groups = [].
Proof.
  induction groups as [|grp rest IH]; simpl; [done|].
  intros [H1 H2]%orb_false_elim. unfold cycle_lines at 1. rewrite H1. simpl.
  by apply IH.
Qed.

(** [main] prints, for the strongly connected components of the graph in
    some order, the lines of those of more than one node, and the summary
    line when there is none. *)
Lemma detect_spec g :
  fresh_graph g →
  ∃ groups,
    detect g = Ok (if existsb (fun grp => (1 <? length grp)%nat) groups
                   then flat_map (cycle_lines g) groups
                   else ["No cyclic dependencies detected."]) ∧
    Forall (is_scc g) groups ∧
    NoDup (concat groups) ∧
    ∀ v, v ∈ concat groups ↔ (v < length g)%nat.
Proof.
  intros Hf.
  destruct (run_roots_spec g (fresh_closed g Hf) (seq 0 (length g))
              (initial g) [] (fresh_top_inv g Hf))
    as (st & groups & Hrun & T & Hvis).
  { intros r [_ Hr]%elem_of_seq. simpl in Hr. lia. }
  simpl in T. destruct T as [T1 T2 T3 T4 T5 T6 T7].
  exists groups. unfold detect. rewrite Hrun. simpl. split; [|split; [done|split; [done|]]].
  - unfold summary. rewrite T7, T6.
    destruct (existsb _ groups) eqn:E; [done|]. by rewrite no_lines.
  - intros v. rewrite <- T3. split.
    + by apply inv_visited_lt.
    + intros Hv. apply Hvis. right. apply elem_of_seq. simpl. lia.
Qed.

Lemma concat_NoDup_group (groups : list (list nat)) grp :
  NoDup (concat groups) → grp ∈ groups → NoDup grp.
Proof.
  induction groups as [|hd rest IH]; simpl.
  - intros _ H. by apply elem_of_nil in H.
  - intros (H1 & _ & H3)%NoDup_app [->|H]%elem_of_cons; [done|]. by apply IH.
Qed.

(** A list without repetition that is longer than one holds two distinct
    elements. *)
Lemma two_of_long (l : list nat) :
  NoDup l → (1 < length l)%nat → ∃ u v, u ∈ l ∧ v ∈ l ∧ u ≠ v.
Proof.
  destruct l as [|u [|v l']]; simpl; [lia..|].
  intros [Hu _]%NoDup_cons _. exists u, v.
  split; [apply list_elem_of_here|]. split.
  - apply elem_of_cons; right. apply list_elem_of_here.
  - intros ->. apply Hu, list_elem_of_here.
Qed.

(** When no two distinct nodes reach each other, nothing is reported. *)
Lemma single_components_no_report g :
  fresh_graph g →
  (∀ u v, connected g u v → u = v) →
  detect g = Ok ["No cyclic dependencies detected."].
Proof.
  intros Hf Hsingle.
  destruct (detect_spec g Hf) as (groups & -> & Hscc & Hnd & _).
  assert (E : existsb (fun grp => (1 <? length grp)%nat) groups = false);
    [|by rewrite E].
  apply not_true_is_false. intros (grp & Hgrp & Hlen)%existsb_exists.
  apply list_elem_of_In in Hgrp. apply Nat.ltb_lt in Hlen.
  destruct (two_of_long grp) as (u & v & Hu & Hv & Hne);
    [by eapply concat_NoDup_group|done|].
  rewrite Forall_forall in Hscc. destruct (Hscc grp Hgrp) as [r Hr].
  apply Hr in Hu, Hv. apply Hne.
  rewrite <- (Hsingle r u Hu). by apply Hsingle.
Qed.

Lemma distinct_connected_cycle g u v :
  connected g u v → u ≠ v → tc (edge g) u u.
Proof.
  intros [[?|H1]%rtc_tc [?|H2]%rtc_tc] Hne; try done.
  by eapply tc_trans.
Qed.

(** A graph whose links all go down a rank has no cycle. *)
Lemma acyclic_ranked g (rank : nat → nat) :
  (∀ u v, edge g u v → (rank v < rank u)%nat) → acyclic g.
Proof.
  intros Hrank v Hv.
  assert (H : ∀ a b, tc (edge g) a b → (rank b < rank a)%nat).
  { intros a b Hab. induction Hab as [a b Hab|a b c Hab _ IH]; [by apply Hrank|].
    specialize (Hrank a b Hab). lia. }
  specialize (H v v Hv). lia.
Qed.

(** C3.  For every graph without a directed cycle (self-loops included),
    as built by [constructGraph] (links in range, no node numbered), the
    analysis of [main] returns and prints the summary line and nothing
    else. *)
Theorem acyclic_reports_nothing g :
  fresh_graph g → acyclic g →
  detect g = Ok ["No cyclic dependencies detected."].
Proof.
  intros Hf Hacyc. apply single_components_no_report; [done|].
  intros u v Huv. destruct (decide (u = v)) as [|Hne]; [done|].
  exfalso. apply (Hacyc u). by eapply distinct_connected_cycle.
Qed.

Lemma acyclic_reports_nothing_witness :
  detect [mkNode "a.hpp" [1%nat] (-1) 0; mkNode "b.hpp" [] (-1) 0]
  = Ok ["No cyclic dependencies detected."].
Proof.
  apply acyclic_reports_nothing.
  - by apply (bool_decide_unpack _).
  - apply (acyclic_ranked _ (fun v => match v with O => 1%nat | _ => 0%nat end)).
    intros [|[|u]] v; unfold edge, succ; simpl.
    + intros ->%list_elem_of_singleton. lia.
    + intros H. by apply elem_of_nil in H.
    + intros H. by apply elem_of_nil in H.
Defined.

(** C1.  A header that includes itself: the directive is found, the
    graph gets a node with an edge to itself, which is a cycle of the
    graph, and [main] reports no cycle: it prints the summary line. *)
Theorem self_include_not_reported :
  let target := [("a.hpp", include_line "a.hpp")] in
  let g := [mkNode "a.hpp" [0%nat] (-1) 0] in
  includes_of (include_line "a.hpp") = ["#include " +:+ quoted "a.hpp"] ∧
  constructGraph target = Ok g ∧
  edge g 0 0 ∧ tc (edge g) 0%nat 0%nat ∧
  main target = Ok ["No cyclic dependencies detected."].
Proof.
  assert (He : edge [mkNode "a.hpp" [0%nat] (-1) 0] 0 0).
  { unfold edge, succ. simpl. apply list_elem_of_here. }
  repeat split; try reflexivity; [done|by apply tc_once].
Qed.

Lemma elem_of_concat (groups : list (list nat)) v :
  v ∈ concat groups ↔ ∃ grp, grp ∈ groups ∧ v ∈ grp.
Proof.
  rewrite list_elem_of_In, in_concat. split.
  - intros (grp & H1 & H2). exists grp. by rewrite !list_elem_of_In.
  - intros (grp & H1 & H2). exists grp. by rewrite <- !list_elem_of_In.
Qed.

Lemma lines_of_long g (groups : list (list nat)) :
  flat_map (cycle_lines g) groups =
  flat_map (cycle_lines g) (List.filter (fun grp => (1 <? length grp)%nat) groups).
Proof.
  induction groups as [|grp rest IH]; [done|]. simpl.
  destruct (1 <? length grp)%nat eqn:E; simpl; rewrite IH; [done|].
  unfold cycle_lines at 1. by rewrite E.
Qed.

Lemma no_long_groups (groups : list (list nat)) :
  existsb (fun grp => (1 <? length grp)%nat) groups = false ↔
  List.filter (fun grp => (1 <? length grp)%nat) groups = [].
Proof.
  induction groups as [|grp rest IH]; [done|]. simpl.
  destruct (1 <? length grp)%nat; simpl; [done|apply IH].
Qed.

Lemma concat_filter_sub (f : list nat → bool) (groups : list (list nat)) v :
  v ∈ concat (List.filter f groups) → v ∈ concat groups.
Proof.
  induction groups as [|grp rest IH]; [done|]. simpl.
  destruct (f grp); simpl; rewrite !elem_of_app; intros H; [|by right; apply IH].
  destruct H; [by left|by right; apply IH].
Qed.

Lemma concat_filter_NoDup (f : list nat → bool) (groups : list (list nat)) :
  NoDup (concat groups) → NoDup (concat (List.filter f groups)).
Proof.
  induction groups as [|grp rest IH]; [done|]. simpl.
  intros (H1 & H2 & H3)%NoDup_app. destruct (f grp); simpl; [|by apply IH].
  apply NoDup_app. split; [done|]. split; [|by apply IH].
  intros x Hx Hx'. apply (H2 x Hx). by eapply concat_filter_sub.
Qed.

Lemma two_distinct_long (l : list nat) u v :
  u ∈ l → v ∈ l → u ≠ v → (2 ≤ length l)%nat.
Proof.
  destruct l as [|a [|b l]]; simpl; [|..|lia].
  - intros H. by apply elem_of_nil in H.
  - intros ->%list_elem_of_singleton ->%list_elem_of_singleton. done.
Qed.

(** What [main] prints, by the components it reports: every reported group
    is a strongly connected component of two nodes or more, no node is
    reported twice, and every node that shares its component with another
    node is reported. *)
Lemma detect_reported g :
  fresh_graph g →
  ∃ reported,
    detect g = Ok (match reported with
                   | [] => ["No cyclic dependencies detected."]
                   | _ => flat_map (cycle_lines g) reported
                   end) ∧
    Forall (fun grp => is_scc g grp ∧ NoDup grp ∧ (2 ≤ length grp)%nat) reported ∧
    NoDup (concat reported) ∧
    ∀ u v, (v < length g)%nat → connected g v u → u ≠ v → v ∈ concat reported.
Proof.
  intros Hf. destruct (detect_spec g Hf) as (groups & Hrun & Hscc & Hnd & Hall).
  exists (List.filter (fun grp => (1 <? length grp)%nat) groups).
  rewrite Forall_forall in Hscc. split; [|split; [|split]].
  - rewrite Hrun, <- lines_of_long.
    destruct (existsb _ groups) eqn:E.
    + destruct (List.filter _ groups) eqn:E'; [|done].
      apply no_long_groups in E'. congruence.
    + apply no_long_groups in E. by rewrite E.
  - apply Forall_forall. intros grp [Hgrp Hlong]%list_elem_of_In%filter_In.
    apply list_elem_of_In in Hgrp. apply Nat.ltb_lt in Hlong.
    split; [by apply Hscc|]. split; [by eapply concat_NoDup_group|lia].
  - by apply concat_filter_NoDup.
  - intros u v Hv Huv Hne. apply Hall, elem_of_concat in Hv as (grp & Hgrp & Hv).
    apply elem_of_concat. exists grp. split; [|done].
    apply list_elem_of_In, filter_In. split; [by apply list_elem_of_In|].
    apply Nat.ltb_lt. destruct (Hscc grp Hgrp) as [r Hr].
    assert (Hu : u ∈ grp).
    { apply Hr. apply Hr in Hv. by eapply connected_trans. }
    pose proof (two_distinct_long grp u v Hu Hv Hne). lia.
Qed.

(** The miss is not one of this input alone.  In every graph, when node
    [n] has an edge to itself and shares its component with no other node,
    [n] is in none of the reported groups; each reported group has two
    nodes or more; and the summary line is printed when no group is
    reported. *)
Lemma self_loop_alone_not_reported g n :
  fresh_graph g → edge g n n →
  (∀ v, connected g n v → v = n) →
  ∃ reported,
    detect g = Ok (match reported with
                   | [] => ["No cyclic dependencies detected."]
                   | _ => flat_map (cycle_lines g) reported
                   end) ∧
    Forall (fun grp => (2 ≤ length grp)%nat ∧ n ∉ grp) reported.
Proof.
  intros Hf _ Halone.
  destruct (detect_reported g Hf) as (reported & Hrun & Hrep & _).
  exists reported. split; [done|].
  eapply Forall_impl; [done|]. intros grp ([r Hr] & Hnd & Hlen). split; [done|].
  intros Hn.
  destruct (two_of_long grp Hnd) as (u & v & Hu & Hv & Hne); [lia|].
  assert (Hsame : ∀ w, w ∈ grp → w = n).
  { intros w Hw. apply Halone. apply Hr in Hn, Hw.
    apply (connected_trans g n r w); [|done]. by destruct Hn. }
  rewrite (Hsame u Hu), (Hsame v Hv) in Hne. done.
Qed.

Lemma reach_in_range g u v :
  fresh_graph g → reach g u v → u = v ∨ (v < length g)%nat.
Proof.
  intros Hf Hr. induction Hr as [u|u w v Huw _ IH]; [by left|].
  destruct IH as [<-|IH]; [|by right]. right. by eapply fresh_closed.
Qed.

(** The state before the turn of the loop of [main] for node [k]. *)
Lemma before_root g k :
  fresh_graph g → (k ≤ length g)%nat →
  ∃ st groups,
    run_roots (length g) (seq 0 k) (initial g) = Ok st ∧ top_inv g st groups.
Proof.
  intros Hf Hk.
  destruct (run_roots_spec g (fresh_closed g Hf) (seq 0 k)
              (initial g) [] (fresh_top_inv g Hf))
    as (st & groups & Hrun & T & _).
  { intros r [_ Hr]%elem_of_seq. simpl in Hr. lia. }
  by exists st, groups.
Qed.

(** ** The stack during a run *)

Arguments enter_points : simpl never.

Lemma index_of_set_index_visited n i st v :
  i ≠ -1 → index_of st v ≠ -1 → index_of (set_index n i st) v ≠ -1.
Proof.
  intros Hi Hv. destruct (decide (v = n)) as [->|Hne].
  - rewrite index_of_set_index_eq; [done|]. by apply index_of_visited_lt.
  - by rewrite index_of_set_index_ne.
Qed.

Lemma good_set_index n i st : good st → i ≠ -1 → good (set_index n i st).
Proof.
  intros (H1 & H2 & H3) Hi. split; [done|]. split.
  - intros v w. rewrite links_of_set_index, length_set_index. apply H2.
  - intros v Hv. apply index_of_set_index_visited; [done|]. by apply H3.
Qed.

Lemma good_set_lowlink n l st : good st → good (set_lowlink n l st).
Proof.
  intros (H1 & H2 & H3). split; [done|]. split.
  - intros v w. rewrite links_of_set_lowlink, length_set_lowlink. apply H2.
  - intros v Hv. rewrite index_of_set_lowlink. by apply H3.
Qed.

Lemma good_incr st : good st → good (incr_indexCount st).
Proof.
  intros (H1 & H2 & H3). split; [simpl; lia|]. split; [done|done].
Qed.

Lemma good_push n st : good st → index_of st n ≠ -1 → good (push n st).
Proof.
  intros (H1 & H2 & H3) Hn. split; [done|]. split; [done|].
  intros v [->|Hv]%elem_of_cons; [done|]. by apply H3.
Qed.

Lemma good_set_stack stack st :
  good st → (∀ v, v ∈ stack → v ∈ nodeStack st) → good (set_stack stack st).
Proof.
  intros (H1 & H2 & H3) Hsub. split; [done|]. split; [done|].
  intros v Hv. by apply H3, Hsub.
Qed.

Lemma good_report cycle st : good st → good (report cycle st).
Proof. intros (H1 & H2 & H3). split; [done|]. split; done. Qed.

Lemma enter_points_good n st :
  good st → (n < length (nodes st))%nat →
  Forall good (enter_points n st) ∧ good (enter n st).
Proof.
  intros Hg Hn. pose proof Hg as (Hc & _).
  assert (G1 : good (set_index n (indexCount st) st))
    by (apply good_set_index; [done|lia]).
  assert (G2 : good (set_lowlink n (indexCount st) (set_index n (indexCount st) st)))
    by by apply good_set_lowlink.
  assert (G3 : good (enter n st)).
  { apply good_push; [by apply good_incr|].
    change (index_of (set_lowlink n (indexCount st)
                        (set_index n (indexCount st) st)) n ≠ -1).
    rewrite index_of_set_lowlink, index_of_set_index_eq by done. lia. }
  split; [|done]. unfold enter_points.
  apply Forall_cons; split; [done|]. apply Forall_cons; split; [done|].
  apply Forall_cons; split; [by apply good_incr|].
  apply Forall_cons; split; [exact G3|apply Forall_nil_2].
Qed.

Lemma pop_cycle_rest n stack cycle rest :
  pop_cycle n stack = Ok (cycle, rest) → ∀ v, v ∈ rest → v ∈ stack.
Proof.
  revert cycle. induction stack as [|top stack IH]; intros cycle; simpl; [done|].
  destruct (Nat.eqb top n).
  - intros [= <- <-] v Hv. by apply elem_of_cons; right.
  - destruct (pop_cycle n stack) as [[c r]|] eqn:E; simpl; [|done].
    intros [= <- <-] v Hv. apply elem_of_cons; right. by eapply IH.
Qed.

Lemma pop_points_good n stack st :
  good st → (∀ v, v ∈ stack → v ∈ nodeStack st) → Forall good (pop_points n stack st).
Proof.
  intros Hg. induction stack as [|top stack IH]; intros Hsub; simpl;
    [apply Forall_nil_2|].
  assert (Hsub' : ∀ v, v ∈ stack → v ∈ nodeStack st).
  { intros v Hv. apply Hsub. by apply elem_of_cons; right. }
  apply Forall_cons. split; [by apply good_set_stack|].
  destruct (Nat.eqb top n); [apply Forall_nil_2|by apply IH].
Qed.

Lemma close_component_good n st st' :
  good st → close_component n st = Ok st' →
  good st' ∧ length (nodes st') = length (nodes st).
Proof.
  intros Hg. unfold close_component.
  destruct (lowlink_of st n =? index_of st n); [|by intros [= <-]].
  destruct (pop_cycle n (nodeStack st)) as [[cycle rest]|] eqn:E; simpl; [|done].
  assert (G : good (set_stack rest st)).
  { apply good_set_stack; [done|]. by eapply pop_cycle_rest. }
  destruct (1 <? length cycle)%nat; intros [= <-]; [|done].
  split; [by apply good_report|done].
Qed.

Lemma close_points_good n st : good st → Forall good (close_points n st).
Proof.
  intros Hg. unfold close_points.
  destruct (lowlink_of st n =? index_of st n); [|apply Forall_nil_2].
  apply Forall_app. split; [by apply pop_points_good|].
  destruct (close_component n st) as [st'|] eqn:E; [|apply Forall_nil_2].
  apply Forall_singleton. by destruct (close_component_good n st st' Hg E).
Qed.

Lemma children_points_good f n :
  (∀ c st, good st → (c < length (nodes st))%nat →
     Forall good (tarjan_points f c st) ∧
     ∀ st', tarjan f c st = Ok st' →
       good st' ∧ length (nodes st') = length (nodes st)) →
  ∀ children st, good st →
    (∀ c, c ∈ children → (c < length (nodes st))%nat) →
    Forall good (children_points (tarjan f) (tarjan_points f) n children st) ∧
    ∀ st', visit_children (tarjan f) n children st = Ok st' →
      good st' ∧ length (nodes st') = length (nodes st).
Proof.
  intros IHf children. induction children as [|c rest IH]; intros st Hg Hch.
  - split; [apply Forall_nil_2|]. by intros st' [= <-].
  - assert (Hc : (c < length (nodes st))%nat) by apply Hch, list_elem_of_here.
    assert (Hrest : ∀ c', c' ∈ rest → (c' < length (nodes st))%nat).
    { intros c' Hc'. apply Hch. by apply elem_of_cons; right. }
    simpl. destruct (index_of st c =? -1).
    + destruct (IHf c st Hg Hc) as [Hp Hr].
      destruct (tarjan f c st) as [stc|] eqn:E; simpl.
      * destruct (Hr stc eq_refl) as [Gc Hlen].
        set (st'' := set_lowlink n _ stc).
        assert (G'' : good st'') by by apply good_set_lowlink.
        destruct (IH st'' G'') as [Hp' Hr'].
        { intros c' Hc'. unfold st''. rewrite length_set_lowlink, Hlen. by apply Hrest. }
        split.
        -- apply Forall_app. split; [done|]. by apply Forall_cons.
        -- intros st' Hst'. destruct (Hr' st' Hst') as [? ->].
           split; [done|]. unfold st''. by rewrite length_set_lowlink.
      * split; [|done]. apply Forall_app. split; [done|apply Forall_nil_2].
    + destruct (on_stack st c).
      * set (st'' := set_lowlink n _ st).
        assert (G'' : good st'') by by apply good_set_lowlink.
        destruct (IH st'' G'') as [Hp' Hr'].
        { intros c' Hc'. unfold st''. rewrite length_set_lowlink. by apply Hrest. }
        split; [by apply Forall_cons|].
        intros st' Hst'. destruct (Hr' st' Hst') as [? ->].
        split; [done|]. unfold st''. by rewrite length_set_lowlink.
      * by apply IH.
Qed.

Lemma tarjan_S f n st :
  tarjan (S f) n st =
  match visit_children (tarjan f) n (links_of st n) (enter n st) with
  | Ok st' => close_component n st'
  | Raise e => Raise e
  end.
Proof. reflexivity. Qed.

Lemma tarjan_points_S f n st :
  tarjan_points (S f) n st =
  enter_points n st ++
  children_points (tarjan f) (tarjan_points f) n (links_of st n) (enter n st) ++
  match visit_children (tarjan f) n (links_of st n) (enter n st) with
  | Ok st' => close_points n st'
  | Raise _ => []
  end.
Proof. reflexivity. Qed.

(** Every point of a call, and the state it returns, is [good]. *)
Lemma tarjan_points_good fuel :
  ∀ n st, good st → (n < length (nodes st))%nat →
    Forall good (tarjan_points fuel n st) ∧
    ∀ st', tarjan fuel n st = Ok st' →
      good st' ∧ length (nodes st') = length (nodes st).
Proof.
  induction fuel as [|f IH]; intros n st Hg Hn.
  - split; [apply Forall_nil_2|done].
  - rewrite tarjan_points_S, tarjan_S.
    destruct (enter_points_good n st Hg Hn) as [He Ge].
    destruct (children_points_good f n IH (links_of st n) (enter n st) Ge) as [Hp Hr].
    { intros c Hc. rewrite enter_length. destruct Hg as (_ & Hl & _). by eapply Hl. }
    destruct (visit_children (tarjan f) n (links_of st n) (enter n st)) as [st2|] eqn:E;
      cbv beta iota.
    + destruct (Hr st2 eq_refl) as [G2 Hlen]. split.
      * apply Forall_app. split; [done|]. apply Forall_app. split; [done|].
        by apply close_points_good.
      * intros st' Hst'. destruct (close_component_good n st2 st' G2 Hst') as [? ->].
        split; [done|]. by rewrite Hlen, enter_length.
    + split; [|done]. apply Forall_app. split; [done|].
      apply Forall_app. split; [done|apply Forall_nil_2].
Qed.

Lemma children_points_visited rec rec_points n children st :
  nodeStack st = [n] → lowlink_of st n = index_of st n →
  (∀ c, c ∈ children → index_of st c ≠ -1) →
  Forall (fun p => p = st) (children_points rec rec_points n children st).
Proof.
  intros Hs Hl. induction children as [|c rest IH]; intros Hc; [apply Forall_nil_2|].
  simpl. destruct (Z.eqb_spec (index_of st c) (-1)) as [E|_].
  { exfalso. by apply (Hc c), E; apply list_elem_of_here. }
  assert (Hrest : ∀ c', c' ∈ rest → index_of st c' ≠ -1).
  { intros c' Hc'. apply Hc. by apply elem_of_cons; right. }
  destruct (on_stack st c) eqn:Hon; [|by apply IH].
  apply on_stack_true in Hon. rewrite Hs in Hon.
  apply list_elem_of_singleton in Hon as ->.
  rewrite <- Hl, Z.min_id, set_lowlink_same. apply Forall_cons. split; [done|by apply IH].
Qed.

(** The points of a call on a visited node whose links are all visited,
    the stack being empty: the stack never holds more than that node. *)
Lemma tarjan_points_visited f n st :
  nodeStack st = [] → 0 ≤ indexCount st → (n < length (nodes st))%nat →
  (∀ c, c ∈ links_of st n → index_of st c ≠ -1) →
  Forall (fun p => nodeStack p = [] ∨ nodeStack p = [n]) (tarjan_points (S f) n st).
Proof.
  intros Hs Hc Hn Hch.
  assert (H1 : nodeStack (enter n st) = [n]) by by rewrite enter_stack, Hs.
  assert (H2 : lowlink_of (enter n st) n = index_of (enter n st) n)
    by by rewrite enter_lowlink_eq, enter_index_eq.
  assert (H3 : ∀ c, c ∈ links_of st n → index_of (enter n st) c ≠ -1).
  { intros c Hcl. destruct (decide (c = n)) as [->|Hne].
    - rewrite enter_index_eq by done. lia.
    - rewrite enter_index_ne by done. by apply Hch. }
  rewrite tarjan_points_S, visit_children_visited by done.
  apply Forall_app. split; [|apply Forall_app; split].
  - unfold enter_points.
    repeat (apply Forall_cons; split); simpl; rewrite ?Hs; auto.
  - eapply Forall_impl; [by apply children_points_visited|].
    intros p ->. by right.
  - unfold close_points, close_component. rewrite H2, Z.eqb_refl, H1. simpl.
    rewrite Nat.eqb_refl. simpl. repeat (apply Forall_cons; split); auto.
Qed.

Lemma inv_good g st :
  (∀ u v, edge g u v → (v < length g)%nat) → inv g st → good st.
Proof.
  intros Hcl Hinv. split; [by apply (inv_count g)|]. split.
  - intros v w. rewrite (inv_links _ _ Hinv), (inv_length _ _ Hinv). apply Hcl.
  - intros v. apply (inv_stack _ _ Hinv).
Qed.

(** C10.  In a run of [main] on a graph as [constructGraph] builds it, take
    the turn of the loop for node [k]: the stack is empty before the turn,
    the call returns, and the stack is empty after it; at every point of
    the call each node on the stack is numbered; and when [k] was already
    visited the stack holds nothing but [k] at every point of the call, and
    the call prints nothing and leaves the flag as it was. *)
Theorem stack_empty_between_roots g k :
  fresh_graph g → (k < length g)%nat →
  ∃ st st',
    run_roots (length g) (seq 0 k) (initial g) = Ok st ∧
    tarjan (length g) k st = Ok st' ∧
    nodeStack st = [] ∧ nodeStack st' = [] ∧
    Forall stack_numbered (tarjan_points (length g) k st) ∧
    (index_of st k ≠ -1 →
       Forall (fun p => nodeStack p = [] ∨ nodeStack p = [k])
              (tarjan_points (length g) k st) ∧
       output st' = output st ∧ cyclesDetected st' = cyclesDetected st).
Proof.
  intros Hf Hk.
  destruct (before_root g k Hf) as (st & groups & Hrun & T); [lia|].
  destruct (root_step g (fresh_closed g Hf) k st groups T Hk)
    as (st' & groups' & Hrun' & T' & _ & _ & Hre).
  pose proof (ti_inv _ _ _ T) as Hinv.
  assert (Hlt : (k < length (nodes st))%nat) by by rewrite (inv_length _ _ Hinv).
  exists st, st'. split; [done|]. split; [done|].
  split; [apply (ti_stack _ _ _ T)|]. split; [apply (ti_stack _ _ _ T')|]. split.
  - destruct (tarjan_points_good (length g) k st) as [Hp _]; [|done|].
    { by apply (inv_good g), Hinv; apply fresh_closed. }
    eapply Forall_impl; [done|]. by intros p (_ & _ & ?).
  - intros Hv. destruct (Hre Hv) as [-> _]. split; [|done].
    destruct (length g) as [|f] eqn:Hlen; [lia|].
    apply tarjan_points_visited; [apply (ti_stack _ _ _ T)|
                                  apply (inv_count _ _ Hinv)|done|].
    intros c Hc. rewrite (inv_links _ _ Hinv) in Hc.
    eapply (inv_closed _ _ Hinv k c); [done| |done].
    rewrite (ti_stack _ _ _ T). apply not_elem_of_nil.
Qed.

Lemma stack_empty_between_roots_witness :
  let g := [mkNode "a.hpp" [1%nat] (-1) 0; mkNode "b.hpp" [0%nat] (-1) 0] in
  ∃ st st',
    run_roots (length g) (seq 0 1) (initial g) = Ok st ∧
    tarjan (length g) 1 st = Ok st' ∧
    nodeStack st = [] ∧ nodeStack st' = [] ∧
    Forall stack_numbered (tarjan_points (length g) 1 st) ∧
    (index_of st 1 ≠ -1 →
       Forall (fun p => nodeStack p = [] ∨ nodeStack p = [1%nat])
              (tarjan_points (length g) 1 st) ∧
       output st' = output st ∧ cyclesDetected st' = cyclesDetected st).
Proof.
  intros g. apply (stack_empty_between_roots g 1).
  - by apply (bool_decide_unpack _).
  - simpl. lia.
Defined.

(** ** One cycle *)

Lemma linked_app_r g l1 l2 : linked g (l1 ++ l2) → linked g l2.
Proof.
  induction l1 as [|u l1 IH]; [done|]. simpl.
  destruct (l1 ++ l2) eqn:E.
  - intros _. apply app_eq_nil in E as [_ ->]. done.
  - intros [_ H]. by apply IH.
Qed.

Lemma linked_reach g u l : linked g (u :: l) → ∀ v, v ∈ l → reach g u v.
Proof.
  revert u. induction l as [|w l IH]; intros u Hl v Hv.
  - by apply elem_of_nil in Hv.
  - destruct Hl as [Huw Hl]. apply elem_of_cons in Hv as [->|Hv].
    + by apply rtc_once.
    + unfold reach. etrans; [by apply rtc_once|]. by apply IH.
Qed.

(** The nodes of a cycle reach each other. *)
Lemma cycle_connected g cyc u v :
  is_cycle g cyc → u ∈ cyc → v ∈ cyc → reach g u v.
Proof.
  intros [_ Hl] Hu Hv. destruct cyc as [|c0 t]; [by apply elem_of_nil in Hu|].
  change (linked g ((c0 :: t) ++ [c0])) in Hl.
  assert (Hto : ∀ x, x ∈ c0 :: t → reach g x c0).
  { intros x [->|Hx]%elem_of_cons; [apply rtc_refl|].
    apply list_elem_of_split in Hx as (t1 & t2 & ->).
    replace ((c0 :: t1 ++ x :: t2) ++ [c0])
      with ((c0 :: t1) ++ x :: (t2 ++ [c0])) in Hl
      by (simpl; by rewrite <- app_assoc).
    apply linked_app_r in Hl. eapply linked_reach; [done|].
    apply elem_of_app. right. apply list_elem_of_here. }
  assert (Hfrom : ∀ x, x ∈ c0 :: t → reach g c0 x).
  { intros x [->|Hx]%elem_of_cons; [apply rtc_refl|].
    eapply linked_reach; [done|]. apply elem_of_app. by left. }
  unfold reach. etrans; [by apply Hto|by apply Hfrom].
Qed.

Lemma no_lines_short g (groups : list (list nat)) :
  (∀ grp, grp ∈ groups → (length grp ≤ 1)%nat) →
  flat_map (cycle_lines g) groups = [] ∧
  existsb (fun grp => (1 <? length grp)%nat) groups = false.
Proof.
  induction groups as [|grp rest IH]; intros H; [done|].
  assert (Hg : (1 <? length grp)%nat = false).
  { apply Nat.ltb_ge, H, list_elem_of_here. }
  destruct IH as [IH1 IH2].
  { intros grp' Hgrp'. apply H. by apply elem_of_cons; right. }
  simpl. unfold cycle_lines at 1. by rewrite Hg, IH1, IH2.
Qed.

Lemma chain_concat (names : list string) :
  chain names = String.concat " <- " (names ++ take 1 names).
Proof.
  destruct names as [|a l]; [done|]. unfold chain.
  change (take 1 (a :: l)) with [a]. simpl.
  assert (H : ∀ l, fold_right (fun nm line => nm +:+ " <- " +:+ line) a l
                   = String.concat " <- " (l ++ [a])).
  { clear l. induction l as [|b l IH]; [done|]. simpl. rewrite IH.
    destruct (l ++ [a]) eqn:E; [|done].
    by apply app_eq_nil in E as [_ ?]. }
  rewrite H. destruct (l ++ [a]) eqn:E; [|reflexivity].
  by apply app_eq_nil in E as [_ ?].
Qed.

Lemma names_NoDup g (l : list nat) :
  NoDup (name <$> g) → NoDup l → (∀ v, v ∈ l → (v < length g)%nat) →
  NoDup (name_of (initial g) <$> l).
Proof.
  intros Hnames Hl Hrange. apply NoDup_fmap_2_strong; [|done].
  intros v w Hv Hw. unfold name_of. simpl.
  destruct (lookup_lt_is_Some_2 g v (Hrange v Hv)) as [nv Ev].
  destruct (lookup_lt_is_Some_2 g w (Hrange w Hw)) as [nw Ew].
  rewrite Ev, Ew. intros Heq.
  eapply (NoDup_lookup (name <$> g) v w (name nv)); [done|..].
  - by rewrite list_lookup_fmap, Ev.
  - by rewrite list_lookup_fmap, Ew, Heq.
Qed.

(** In a cycle of two nodes or more, every node is linked to from another
    one, so lies in the registry. *)
Lemma cycle_in_range g cyc v :
  fresh_graph g → is_cycle g cyc → (2 ≤ length cyc)%nat → v ∈ cyc →
  (v < length g)%nat.
Proof.
  intros Hf Hcyc Hlen Hv.
  destruct cyc as [|c0 [|c1 t]] eqn:E; simpl in Hlen; [lia..|]. rewrite <- E in *.
  assert (H0 : c0 ∈ cyc) by (rewrite E; apply list_elem_of_here).
  assert (H1 : c1 ∈ cyc).
  { rewrite E. apply elem_of_cons; right. apply list_elem_of_here. }
  assert (Hne : c0 ≠ c1).
  { destruct Hcyc as [Hnd _]. rewrite E in Hnd.
    apply NoDup_cons in Hnd as [Hnd _]. intros ->. apply Hnd, list_elem_of_here. }
  destruct (decide (v = c0)) as [->|Hv0].
  - pose proof (cycle_connected g cyc c1 c0 Hcyc H1 H0) as Hr.
    by destruct (reach_in_range g c1 c0 Hf Hr) as [?|?].
  - pose proof (cycle_connected g cyc c0 v Hcyc H0 Hv) as Hr.
    by destruct (reach_in_range g c0 v Hf Hr) as [?|?].
Qed.

(** *** Nodes on a cycle *)

Lemma linked_app_l g l1 l2 : linked g (l1 ++ l2) → linked g l1.
Proof.
  induction l1 as [|u l1 IH]; [done|]. destruct l1 as [|v l1]; [done|].
  simpl. intros [Huv H]. split; [done|]. by apply IH.
Qed.

Lemma linked_join g l1 x l2 :
  linked g (l1 ++ [x]) → linked g (x :: l2) → linked g (l1 ++ x :: l2).
Proof.
  intros H1 H2. induction l1 as [|u l1 IH]; [done|].
  destruct l1 as [|v l1].
  - simpl in *. by destruct H1.
  - simpl in *. destruct H1 as [Huv H1]. split; [done|]. by apply IH.
Qed.

(** A walk may skip what lies between two visits of one node. *)
Lemma linked_cut g l1 x l2 l3 :
  linked g (l1 ++ x :: l2 ++ x :: l3) → linked g (l1 ++ x :: l3).
Proof.
  intros H. apply linked_join.
  - replace (l1 ++ x :: l2 ++ x :: l3) with ((l1 ++ [x]) ++ l2 ++ x :: l3) in H
      by by rewrite <- app_assoc.
    by apply linked_app_l in H.
  - replace (l1 ++ x :: l2 ++ x :: l3) with ((l1 ++ x :: l2) ++ x :: l3) in H
      by by rewrite <- app_assoc.
    by apply linked_app_r in H.
Qed.

Lemma tc_walk g u v : tc (edge g) u v → ∃ l, linked g (u :: l ++ [v]).
Proof.
  induction 1 as [u v Huv|u w v Huw _ [l IH]].
  - by exists [].
  - exists (w :: l). by split.
Qed.

Lemma repeated_split (l : list nat) :
  ¬ NoDup l → ∃ x l1 l2 l3, l = l1 ++ x :: l2 ++ x :: l3.
Proof.
  induction l as [|a l IH]; intros Hnd.
  - destruct Hnd. apply NoDup_nil_2.
  - destruct (decide (a ∈ l)) as [Ha|Ha].
    + apply list_elem_of_split in Ha as (l2 & l3 & ->). by exists a, [], l2, l3.
    + destruct IH as (x & l1 & l2 & l3 & ->).
      { intros H. apply Hnd. by apply NoDup_cons. }
      by exists x, (a :: l1), l2, l3.
Qed.

(** A closed walk through [v] holds a cycle through [v]. *)
Lemma closed_walk_cycle g k :
  ∀ l v, (length l < k)%nat → linked g (v :: l ++ [v]) →
    ∃ cyc, is_cycle g cyc ∧ v ∈ cyc.
Proof.
  induction k as [|k IH]; intros l v Hlen Hl; [lia|].
  destruct (decide (NoDup (v :: l))) as [Hnd|Hnd].
  - exists (v :: l). split; [by split|apply list_elem_of_here].
  - destruct (decide (v ∈ l)) as [Hv|Hv].
    + apply list_elem_of_split in Hv as (l1 & l2 & ->).
      apply (IH l1 v).
      * rewrite length_app in Hlen. simpl in Hlen. lia.
      * replace (v :: (l1 ++ v :: l2) ++ [v])
          with ((v :: l1 ++ [v]) ++ l2 ++ [v]) in Hl
          by (by repeat (simpl; rewrite <- ?app_assoc)).
        by apply linked_app_l in Hl.
    + destruct (repeated_split l) as (x & l1 & l2 & l3 & ->).
      { intros H. apply Hnd. by apply NoDup_cons. }
      apply (IH (l1 ++ x :: l3) v).
      * rewrite !length_app in *. simpl in *. rewrite length_app in Hlen.
        simpl in Hlen. lia.
      * replace (v :: (l1 ++ x :: l2 ++ x :: l3) ++ [v])
          with ((v :: l1) ++ x :: l2 ++ x :: (l3 ++ [v])) in Hl
          by (by repeat (simpl; rewrite <- ?app_assoc)).
        apply linked_cut in Hl.
        by replace (v :: (l1 ++ x :: l3) ++ [v])
          with ((v :: l1) ++ x :: l3 ++ [v])
          by (by repeat (simpl; rewrite <- ?app_assoc)).
Qed.

(** The nodes [v] with a path of one edge or more from [v] to [v] are the
    nodes of the directed cycles. *)
Lemma on_cycle_iff g v :
  tc (edge g) v v ↔ ∃ cyc, is_cycle g cyc ∧ v ∈ cyc.
Proof.
  split.
  - intros [l Hl]%tc_walk. by apply (closed_walk_cycle g (S (length l)) l v); [lia|].
  - intros (cyc & Hcyc & Hv).
    destruct cyc as [|c0 [|c1 t]] eqn:E.
    + by apply elem_of_nil in Hv.
    + apply list_elem_of_singleton in Hv as ->.
      destruct Hcyc as [_ [H _]]. by apply tc_once.
    + rewrite <- E in *.
      assert (∃ u, u ∈ cyc ∧ u ≠ v) as (u & Hu & Hne).
      { destruct Hcyc as [Hnd _]. rewrite E in Hnd.
        apply NoDup_cons in Hnd as [Hnd _].
        destruct (decide (v = c0)) as [->|Hv0].
        - exists c1. split.
          + rewrite E. apply elem_of_cons; right. apply list_elem_of_here.
          + intros ->. apply Hnd, list_elem_of_here.
        - exists c0. split; [rewrite E; apply list_elem_of_here|done]. }
      apply (distinct_connected_cycle g v u); [|done].
      split; by apply (cycle_connected g cyc).
Qed.

(** When every node on a cycle is a node of the cycle [cyc], of two nodes
    or more, one chain is printed, for the nodes of [cyc]. *)
Lemma cyclic_nodes_reported_once g cyc :
  fresh_graph g → NoDup (name <$> g) →
  is_cycle g cyc → (2 ≤ length cyc)%nat →
  (∀ v, tc (edge g) v v → v ∈ cyc) →
  ∃ names,
    detect g = Ok ["Cyclic dependency detected:";
                   String.concat " <- " (names ++ take 1 names)] ∧
    NoDup names ∧
    names ≡ₚ name_of (initial g) <$> cyc ∧
    length names = length cyc.
Proof.
  intros Hf Hnames Hcyc Hlen Honly.
  destruct (detect_spec g Hf) as (groups & Hrun & Hscc & Hnd & Hall).
  rewrite Forall_forall in Hscc.
  (* two distinct nodes of one component lie on the cycle *)
  assert (Hon : ∀ u v, connected g u v → u ≠ v → u ∈ cyc).
  { intros u v Huv Hne. apply Honly. by eapply distinct_connected_cycle. }
  destruct cyc as [|c0 t] eqn:Ecyc; [simpl in Hlen; lia|]. rewrite <- Ecyc in *.
  assert (Hc0 : c0 ∈ cyc) by (rewrite Ecyc; apply list_elem_of_here).
  (* the component that holds the cycle *)
  assert (Hc0' : c0 ∈ concat groups) by by apply Hall, (cycle_in_range g cyc).
  apply elem_of_concat in Hc0' as (grp & Hgrp & Hc0grp).
  destruct (Hscc grp Hgrp) as [r Hr].
  assert (Hset : ∀ v, v ∈ grp ↔ v ∈ cyc).
  { intros v. split.
    - intros Hv. destruct (decide (v = c0)) as [->|Hne]; [done|].
      apply (Hon v c0); [|done]. apply Hr in Hv, Hc0grp.
      destruct Hv, Hc0grp. split; unfold reach in *; by etrans.
    - intros Hv. apply Hr. apply Hr in Hc0grp.
      apply (connected_trans g r c0 v); [done|].
      split; by apply (cycle_connected g cyc). }
  assert (Hndgrp : NoDup grp) by by eapply concat_NoDup_group.
  assert (Hperm : grp ≡ₚ cyc) by (apply NoDup_Permutation; [done|apply Hcyc|done]).
  assert (Hleng : length grp = length cyc) by by rewrite Hperm.
  (* every other component is a single node *)
  apply list_elem_of_split in Hgrp as (pre & post & ->).
  pose proof Hnd as Hnd'. rewrite concat_app in Hnd'. simpl in Hnd'.
  apply NoDup_app in Hnd' as (_ & Hd1 & Hnd').
  apply NoDup_app in Hnd' as (_ & Hd2 & _).
  assert (Hshort : ∀ grp', grp' ∈ pre ∨ grp' ∈ post → (length grp' ≤ 1)%nat).
  { intros grp' Hgrp'. apply Nat.nlt_ge. intros Hlong.
    assert (Hin' : grp' ∈ pre ++ grp :: post).
    { rewrite elem_of_app, elem_of_cons. tauto. }
    destruct (two_of_long grp') as (u & v & Hu & Hv & Hne);
      [by eapply concat_NoDup_group|done|].
    destruct (Hscc grp' Hin') as [r' Hr'].
    assert (Hugrp : u ∈ grp).
    { apply Hset, (Hon u v); [|done]. apply Hr' in Hu, Hv.
      destruct Hu, Hv. split; unfold reach in *; by etrans. }
    destruct Hgrp' as [Hp|Hp].
    - apply (Hd1 u); [apply elem_of_concat; by exists grp'|].
      apply elem_of_app. by left.
    - apply (Hd2 u Hugrp). apply elem_of_concat. by exists grp'. }
  destruct (no_lines_short g pre) as [Hpre1 Hpre2]; [by auto|].
  destruct (no_lines_short g post) as [Hpost1 Hpost2]; [by auto|].
  assert (Hlong : (1 <? length grp)%nat = true) by (apply Nat.ltb_lt; lia).
  exists (name_of (initial g) <$> grp).
  split; [|split; [|split]].
  - rewrite Hrun, existsb_app, flat_map_app. simpl.
    rewrite Hlong, orb_true_r, Hpre1, Hpost1, app_nil_r. simpl.
    unfold cycle_lines. by rewrite Hlong, chain_concat.
  - apply names_NoDup; [done..|]. intros v Hv.
    by apply (cycle_in_range g cyc), Hset.
  - by apply fmap_Permutation.
  - by rewrite length_fmap.
Qed.


(** C4.  For every graph as [constructGraph] builds it (links in range, no
    node numbered, names distinct) in which [cyc] is a directed cycle of
    two nodes or more and every directed cycle runs through nodes of [cyc]
    only, the analysis prints the line that announces a cycle, one chain,
    and nothing else.  The chain joins, with arrows, a list of names and
    then the first of them again; that list has no repetition and is a
    permutation of the names of the nodes of [cyc], so its length is that
    of [cyc]. *)
Theorem one_cycle_reported_once g cyc :
  fresh_graph g → NoDup (name <$> g) →
  is_cycle g cyc → (2 ≤ length cyc)%nat →
  (∀ cyc' v, is_cycle g cyc' → v ∈ cyc' → v ∈ cyc) →
  ∃ names,
    detect g = Ok ["Cyclic dependency detected:";
                   String.concat " <- " (names ++ take 1 names)] ∧
    NoDup names ∧
    names ≡ₚ name_of (initial g) <$> cyc ∧
    length names = length cyc.
Proof.
  intros Hf Hnames Hcyc Hlen Honly.
  apply cyclic_nodes_reported_once; [done..|].
  intros v (cyc' & Hcyc' & Hv)%on_cycle_iff. by apply (Honly cyc').
Qed.

Lemma one_cycle_reported_once_witness :
  let g := [mkNode "a.hpp" [1%nat] (-1) 0; mkNode "b.hpp" [2%nat] (-1) 0;
            mkNode "c.hpp" [0%nat] (-1) 0; mkNode "d.hpp" [0%nat] (-1) 0] in
  ∃ names,
    detect g = Ok ["Cyclic dependency detected:";
                   String.concat " <- " (names ++ take 1 names)] ∧
    NoDup names ∧
    names ≡ₚ name_of (initial g) <$> [0%nat; 1%nat; 2%nat] ∧
    length names = length [0%nat; 1%nat; 2%nat].
Proof.
  intros g. apply (one_cycle_reported_once g [0%nat; 1%nat; 2%nat]).
  - by apply (bool_decide_unpack _).
  - by apply (bool_decide_unpack _).
  - split; [by apply (bool_decide_unpack _)|].
    simpl. unfold edge, succ. simpl. repeat split; apply list_elem_of_here.
  - simpl. lia.
  - intros cyc' v Hcyc' Hv.
    assert (Hon : tc (edge g) v v) by (apply on_cycle_iff; by exists cyc').
    assert (H : ∀ x y, edge g x y → y ∈ [0%nat; 1%nat; 2%nat]).
    { intros [|[|[|[|x]]]] y; unfold edge, succ; simpl;
        rewrite ?list_elem_of_singleton, ?elem_of_nil; try done; intros ->;
        rewrite !elem_of_cons; auto. }
    assert (H' : ∀ a b, tc (edge g) a b → b ∈ [0%nat; 1%nat; 2%nat]).
    { intros a b Hab. induction Hab as [x y Hxy|x y z _ _ IH]; [by apply (H x)|done]. }
    by apply (H' v).
Defined.

(** ** From the directory to the lines printed *)

Lemma unnumbered_addLink self n (nodes : list Node) :
  Forall (fun node => index node = -1) nodes →
  Forall (fun node => index node = -1) (addLink self n nodes).
Proof.
  intros H. unfold addLink. destruct (inNodes nodes n).
  - by apply Forall_alter.
  - apply Forall_alter; [|done]. apply Forall_app. split; [done|].
    by apply Forall_singleton.
Qed.

Lemma unnumbered_add_includes self incs (nodes nodes' : list Node) :
  add_includes self incs nodes = Ok nodes' →
  Forall (fun node => index node = -1) nodes →
  Forall (fun node => index node = -1) nodes'.
Proof.
  revert nodes. induction incs as [|inc rest IH]; intros nodes; simpl.
  - by intros [= <-].
  - destruct (Re.filenameRE_search inc) as [f|]; [|done].
    intros H Hn. eapply IH; [done|]. by apply unnumbered_addLink.
Qed.

Lemma unnumbered_scan_files files (nodes nodes' : list Node) :
  scan_files files nodes = Ok nodes' →
  Forall (fun node => index node = -1) nodes →
  Forall (fun node => index node = -1) nodes'.
Proof.
  revert nodes. induction files as [|[filename text] rest IH]; intros nodes; simpl.
  - by intros [= <-].
  - destruct (scan_file filename text nodes) as [nodes1|] eqn:E; simpl; [|done].
    intros H Hn. eapply IH; [done|]. unfold scan_file in E.
    destruct (inNodes nodes filename).
    + by eapply unnumbered_add_includes.
    + eapply unnumbered_add_includes; [done|]. apply Forall_app. split; [done|].
      by apply Forall_singleton.
Qed.

(** The graphs that [constructGraph] returns are those the theorems on
    [detect] are about. *)
Lemma constructGraph_fresh target g :
  constructGraph target = Ok g → fresh_graph g ∧ NoDup (name <$> g).
Proof.
  intros H. destruct (constructGraph_ok target g H) as [Hnd Hl]. split; [|done].
  pose proof (unnumbered_scan_files _ _ _ H (Forall_nil_2 _)) as Hi.
  unfold fresh_graph. rewrite Forall_forall in Hi, Hl. apply Forall_forall.
  intros node Hnode. split; [by apply Hi|by apply Hl].
Qed.

(** The scenarios of the description, end to end. *)
Example three_cycle_scenario :
  main [("a.hpp", include_line "b.hpp"); ("b.hpp", include_line "c.hpp");
        ("c.hpp", include_line "a.hpp")]
  = Ok ["Cyclic dependency detected:"; "c.hpp <- b.hpp <- a.hpp <- c.hpp"].
Proof. reflexivity. Qed.

Example no_cycle_scenario :
  main [("a.hpp", include_line "b.hpp"); ("b.hpp", EmptyString)]
  = Ok ["No cyclic dependencies detected."].
Proof. reflexivity. Qed.

Example commented_include_scenario :
  main [("a.hpp", "// " +:+ include_line "a.hpp")]
  = Ok ["No cyclic dependencies detected."].
Proof. reflexivity. Qed.

Example block_comment_scenario :
  includes_of ("/* " +:+ include_line "a.hpp" +:+ "   " +:+ include_line "b.hpp"
               +:+ "*/" +:+ include_line "c.hpp")
  = ["#include " +:+ quoted "c.hpp"].
Proof. reflexivity. Qed.

(** ** Where the code departs from its description *)

(** [add_includes] raises exactly when one of the directives holds no file
    name. *)
Lemma add_includes_raises node incs nodes :
  (∃ inc, inc ∈ incs ∧ Re.filenameRE_search inc = None) ↔
  add_includes node incs nodes = Raise AttributeError.
Proof.
  revert nodes. induction incs as [|inc rest IH]; intros nodes; simpl.
  - split; [|done]. intros (inc & H & _). by apply elem_of_nil in H.
  - destruct (Re.filenameRE_search inc) as [f|] eqn:E.
    + rewrite <- IH. split.
      * intros (inc' & [->|H]%elem_of_cons & Hn); [congruence|by exists inc'].
      * intros (inc' & H & Hn). exists inc'. split; [|done].
        by apply elem_of_cons; right.
    + split; [done|]. intros _. exists inc. split; [apply list_elem_of_here|done].
Qed.

(** A name that [filenameRE] matches is a run of characters of its class
    followed by one of the two extensions. *)
Lemma class_run_spec s run rest :
  Re.class_run s = (run, rest) →
  s = run +:+ rest ∧
  Forall (fun c => Re.filename_class c = true) (list_ascii_of_string run).
Proof.
  revert run rest. induction s as [|c s IH]; intros run rest; simpl.
  - intros [= <- <-]. split; [done|apply Forall_nil_2].
  - destruct (Re.filename_class c) eqn:E.
    + destruct (Re.class_run s) as [run' rest'] eqn:E'. intros [= <- <-].
      destruct (IH run' rest' eq_refl) as [-> Hrun]. split; [done|].
      simpl. by apply Forall_cons.
    + intros [= <- <-]. split; [done|apply Forall_nil_2].
Qed.

Lemma filenameRE_search_spec s m :
  Re.filenameRE_search s = Some m →
  ∃ run ext, m = run +:+ ext ∧ (ext = ".hpp" ∨ ext = ".h") ∧
    Forall (fun c => Re.filename_class c = true) (list_ascii_of_string run).
Proof.
  assert (Hm : ∀ s, Re.filenameRE_match s = Some m →
            ∃ run ext, m = run +:+ ext ∧ (ext = ".hpp" ∨ ext = ".h") ∧
              Forall (fun c => Re.filename_class c = true) (list_ascii_of_string run)).
  { intros s'. unfold Re.filenameRE_match.
    destruct (Re.class_run s') as [run rest] eqn:E.
    destruct (class_run_spec s' run rest E) as [_ Hrun].
    unfold Re.extension_match.
    destruct (prefix_rest ".hpp" rest) as [r1|];
      [|destruct (prefix_rest ".h" rest) as [r2|]]; simpl; [| |done].
    - intros [= <-]. exists run, ".hpp". auto.
    - intros [= <-]. exists run, ".h". auto. }
  induction s as [|c s IH].
  - intros H. apply (Hm EmptyString). revert H. unfold Re.filenameRE_search.
    by destruct (Re.filenameRE_match EmptyString).
  - change (Re.filenameRE_search (String c s))
      with (match Re.filenameRE_match (String c s) with
            | Some m0 => Some m0
            | None => Re.filenameRE_search s
            end).
    destruct (Re.filenameRE_match (String c s)) eqn:E; [|done].
    intros [= <-]. by apply (Hm (String c s)).
Qed.


(** C2.  A matched directive whose quoted text holds no file name: the
    search of [filenameRE] finds nothing, and [constructGraph] (so [main])
    ends with the exception raised by the call of [group] on [None]. *)
Theorem directive_without_filename_raises :
  includes_of (include_line "util.c") = ["#include " +:+ quoted "util.c"] ∧
  Re.filenameRE_search ("#include " +:+ quoted "util.c") = None ∧
  constructGraph [("a.hpp", include_line "util.c")] = Raise AttributeError ∧
  main [("a.hpp", include_line "util.c")] = Raise AttributeError.
Proof. repeat split; reflexivity. Qed.

(** C6.  A line comment on the last line of a header, with no end of line
    after it: [stripComments] leaves it in place, the directive it holds is
    matched, and the graph gets its edge; here the edge closes a cycle that
    [main] reports. *)
Theorem last_line_comment_is_scanned :
  let text := "// #include " +:+ quoted "a.hpp" in
  stripComments text = text ∧
  includes_of text = ["#include " +:+ quoted "a.hpp"] ∧
  constructGraph [("a.hpp", include_line "b.hpp"); ("b.hpp", text)]
    = Ok [mkNode "a.hpp" [1%nat] (-1) 0; mkNode "b.hpp" [0%nat] (-1) 0] ∧
  main [("a.hpp", include_line "b.hpp"); ("b.hpp", text)]
    = Ok ["Cyclic dependency detected:"; "b.hpp <- a.hpp <- b.hpp"].
Proof. repeat split; reflexivity. Qed.

(** C7.  The class of [filenameRE] is written with the range from [A] to
    the small [z], which holds six characters that are no letters; the
    underscore is one, and the name extracted from a directive can hold
    it. *)
Theorem extracted_name_with_underscore :
  Re.filenameRE_search ("#include " +:+ quoted "my_file.h") = Some "my_file.h" ∧
  Re.filename_class "_" = true ∧
  is_letter "_" = false.
Proof. repeat split; reflexivity. Qed.

(** ** Traversals started at visited nodes change no line printed *)

Lemma shifted_in_range d a b v :
  shifted d a b → v ∈ nodeStack a →
  (v < length (nodes a))%nat ∧ (v < length (nodes b))%nat.
Proof.
  intros H Hv. assert ((v < length (nodes a))%nat)
    by (apply index_of_visited_lt; by apply (sh_numbered _ _ _ H)).
  split; [done|]. by rewrite <- (sh_length _ _ _ H).
Qed.

Lemma shifted_set_lowlink d a b n m m' :
  shifted d a b → n ∈ nodeStack a → m = m' + d →
  shifted d (set_lowlink n m a) (set_lowlink n m' b).
Proof.
  intros H Hn Hm. destruct (shifted_in_range d a b n H Hn) as [Ha Hb].
  destruct H as [H1 H2 H3 H4 H5 H6 H7 H8 H9 H10 H11 H12 H13].
  split; try done.
  - by rewrite !length_set_lowlink.
  - intros v. by rewrite !links_of_set_lowlink.
  - intros v. by rewrite !name_of_set_lowlink.
  - intros v w. rewrite links_of_set_lowlink, length_set_lowlink. apply H4.
  - intros v. by rewrite !index_of_set_lowlink.
  - intros v Hv. rewrite index_of_set_lowlink. by apply H12.
  - intros v Hv. rewrite !index_of_set_lowlink.
    destruct (H13 v Hv) as [Hi Hl]. split; [done|].
    destruct (decide (v = n)) as [->|Hne].
    + by rewrite !lowlink_of_set_lowlink_eq.
    + by rewrite !lowlink_of_set_lowlink_ne.
Qed.

Lemma shifted_enter d a b n :
  shifted d a b → (n < length (nodes a))%nat →
  shifted d (enter n a) (enter n b).
Proof.
  intros H Ha. assert (Hb : (n < length (nodes b))%nat)
    by by rewrite <- (sh_length _ _ _ H).
  destruct H as [H1 H2 H3 H4 H5 H6 H7 H8 H9 H10 H11 H12 H13].
  split.
  - by rewrite !enter_length.
  - intros v. by rewrite !enter_links.
  - intros v. by rewrite !enter_names.
  - intros v w. rewrite enter_links, enter_length. apply H4.
  - by rewrite !enter_stack, H5.
  - by rewrite !enter_output.
  - by rewrite !enter_detected.
  - rewrite !enter_count. lia.
  - rewrite enter_count. lia.
  - rewrite enter_count. lia.
  - intros v. destruct (decide (v = n)) as [->|Hne].
    + rewrite !enter_index_eq by done. lia.
    + by rewrite !enter_index_ne.
  - intros v. rewrite enter_stack. intros [->|Hv]%elem_of_cons.
    + rewrite enter_index_eq by done. lia.
    + destruct (decide (v = n)) as [->|Hne].
      * rewrite enter_index_eq by done. lia.
      * rewrite enter_index_ne by done. by apply H12.
  - intros v. rewrite enter_stack. intros Hv.
    destruct (decide (v = n)) as [->|Hne].
    + rewrite !enter_index_eq, !enter_lowlink_eq by done. lia.
    + rewrite !enter_index_ne, !enter_lowlink_ne by done.
      apply elem_of_cons in Hv as [?|Hv]; [done|]. by apply H13.
Qed.

(** [pop_cycle] finds [n] and leaves what lies below it. *)
Lemma pop_cycle_suffix n above below :
  ∃ cycle above', pop_cycle n (above ++ n :: below) = Ok (cycle, above' ++ below).
Proof.
  induction above as [|top above (cycle & above' & IH)]; simpl.
  - rewrite Nat.eqb_refl. by exists [n], [].
  - destruct (Nat.eqb top n).
    + exists [top], (above ++ [n]). by rewrite <- app_assoc.
    + rewrite IH. simpl. by exists (top :: cycle), above'.
Qed.

Lemma shifted_set_stack d a b stack :
  shifted d a b → (∀ v, v ∈ stack → v ∈ nodeStack a) →
  shifted d (set_stack stack a) (set_stack stack b).
Proof.
  intros [H1 H2 H3 H4 H5 H6 H7 H8 H9 H10 H11 H12 H13] Hsub.
  split; try done.
  - intros v Hv. by apply H12, Hsub.
  - intros v Hv. by apply H13, Hsub.
Qed.

Lemma shifted_report d a b cycle :
  shifted d a b → shifted d (report cycle a) (report cycle b).
Proof.
  intros [H1 H2 H3 H4 H5 H6 H7 H8 H9 H10 H11 H12 H13].
  split; try done. simpl. rewrite H6. do 4 f_equal.
  apply list_fmap_ext. intros i v _. apply H3.
Qed.

Lemma shifted_close d a b n above below :
  shifted d a b → nodeStack a = above ++ n :: below →
  match close_component n a, close_component n b with
  | Ok a', Ok b' =>
      shifted d a' b' ∧
      index_of a' n = index_of b' n + d ∧ lowlink_of a' n = lowlink_of b' n + d ∧
      length (nodes a') = length (nodes a) ∧
      ∃ new, nodeStack a' = new ++ below
  | Raise e, Raise e' => e = e'
  | _, _ => False
  end.
Proof.
  intros H Hs.
  assert (Hn : n ∈ nodeStack a).
  { rewrite Hs. apply elem_of_app. right. apply list_elem_of_here. }
  destruct (sh_numbers _ _ _ H n Hn) as [Hi Hl].
  unfold close_component. rewrite <- (sh_stack _ _ _ H), Hs.
  destruct (Z.eqb_spec (lowlink_of a n) (index_of a n)) as [E|E];
    destruct (Z.eqb_spec (lowlink_of b n) (index_of b n)) as [E'|E']; try lia.
  - destruct (pop_cycle_suffix n above below) as (cycle & above' & Hpop).
    rewrite Hpop. simpl.
    assert (Hsh : shifted d (set_stack (above' ++ below) a)
                            (set_stack (above' ++ below) b)).
    { apply shifted_set_stack; [done|]. intros v Hv. rewrite Hs.
      by apply (pop_cycle_rest n _ cycle _ Hpop). }
    destruct (1 <? length cycle)%nat.
    + split; [by apply shifted_report|]. split; [done|]. split; [done|].
      split; [done|]. by exists above'.
    + split; [done|]. split; [done|]. split; [done|]. split; [done|].
      by exists above'.
  - split; [done|]. split; [done|]. split; [done|]. split; [done|].
    exists (above ++ [n]). by rewrite <- app_assoc.
Qed.

Lemma sim_children f d n below :
  (∀ c a b, shifted d a b → (c < length (nodes a))%nat →
     alike d c a (tarjan f c a) (tarjan f c b)) →
  ∀ children a b, shifted d a b →
    (∃ above, nodeStack a = above ++ n :: below) →
    (∀ c, c ∈ children → (c < length (nodes a))%nat) →
    match visit_children (tarjan f) n children a,
          visit_children (tarjan f) n children b with
    | Ok a', Ok b' =>
        shifted d a' b' ∧ length (nodes a') = length (nodes a) ∧
        ∃ above, nodeStack a' = above ++ n :: below
    | Raise e, Raise e' => e = e'
    | _, _ => False
    end.
Proof.
  intros IHf children. induction children as [|c rest IH]; intros a b H Hs Hch.
  - done.
  - assert (Hc : (c < length (nodes a))%nat) by apply Hch, list_elem_of_here.
    assert (Hrest : ∀ c', c' ∈ rest → (c' < length (nodes a))%nat).
    { intros c' Hc'. apply Hch. by apply elem_of_cons; right. }
    assert (Hn : ∀ a', (∃ above, nodeStack a' = above ++ n :: below) →
                       n ∈ nodeStack a').
    { intros a' [above ->]. apply elem_of_app. right. apply list_elem_of_here. }
    simpl.
    destruct (Z.eqb_spec (index_of a c) (-1)) as [E|E];
      destruct (Z.eqb_spec (index_of b c) (-1)) as [E'|E'];
      try (by apply (sh_visited _ _ _ H) in E);
      try (by apply (sh_visited _ _ _ H) in E').
    + specialize (IHf c a b H Hc). unfold alike in IHf.
      destruct (tarjan f c a) as [a1|ea], (tarjan f c b) as [b1|eb]; try done.
      simpl. destruct IHf as (H1 & Hci & Hcl & Hlen & new & Hs1).
      destruct Hs as [above Hs].
      assert (Hs1' : ∃ above', nodeStack a1 = above' ++ n :: below).
      { exists (new ++ above). by rewrite Hs1, Hs, app_assoc. }
      destruct (sh_numbers _ _ _ H1 n (Hn a1 Hs1')) as [_ Hnl].
      set (a2 := set_lowlink n _ a1). set (b2 := set_lowlink n _ b1).
      assert (H2 : shifted d a2 b2).
      { apply shifted_set_lowlink; [done|by apply Hn|]. rewrite Hnl, Hcl.
        by rewrite Z.add_min_distr_r. }
      specialize (IH a2 b2 H2 Hs1').
      destruct (visit_children (tarjan f) n rest a2) as [a3|],
               (visit_children (tarjan f) n rest b2) as [b3|]; try done.
      * destruct IH as (H3 & Hlen3 & Hs3).
        { intros c' Hc'. unfold a2. rewrite length_set_lowlink, Hlen. by apply Hrest. }
        split; [done|]. split; [|done].
        rewrite Hlen3. unfold a2. by rewrite length_set_lowlink.
      * apply IH. intros c' Hc'. unfold a2.
        rewrite length_set_lowlink, Hlen. by apply Hrest.
      * apply IH. intros c' Hc'. unfold a2.
        rewrite length_set_lowlink, Hlen. by apply Hrest.
      * apply IH. intros c' Hc'. unfold a2.
        rewrite length_set_lowlink, Hlen. by apply Hrest.
    + assert (Hon : on_stack a c = on_stack b c)
        by (unfold on_stack; by rewrite (sh_stack _ _ _ H)).
      rewrite <- Hon. destruct (on_stack a c) eqn:Eon.
      * apply on_stack_true in Eon.
        destruct (sh_numbers _ _ _ H c Eon) as [Hci _].
        destruct (sh_numbers _ _ _ H n (Hn a Hs)) as [_ Hnl].
        set (a2 := set_lowlink n _ a). set (b2 := set_lowlink n _ b).
        assert (H2 : shifted d a2 b2).
        { apply shifted_set_lowlink; [done|by apply Hn|]. rewrite Hnl, Hci.
          by rewrite Z.add_min_distr_r. }
        specialize (IH a2 b2 H2 Hs).
        destruct (visit_children (tarjan f) n rest a2) as [a3|],
                 (visit_children (tarjan f) n rest b2) as [b3|]; try done.
        -- destruct IH as (H3 & Hlen3 & Hs3).
           { intros c' Hc'. unfold a2. rewrite length_set_lowlink. by apply Hrest. }
           split; [done|]. split; [|done].
           rewrite Hlen3. unfold a2. by rewrite length_set_lowlink.
        -- apply IH. intros c' Hc'. unfold a2. rewrite length_set_lowlink.
           by apply Hrest.
        -- apply IH. intros c' Hc'. unfold a2. rewrite length_set_lowlink.
           by apply Hrest.
        -- apply IH. intros c' Hc'. unfold a2. rewrite length_set_lowlink.
           by apply Hrest.
      * by apply IH.
Qed.

(** Two calls from states that agree but for a shift end alike. *)
Lemma sim_tarjan d fuel :
  ∀ n a b, shifted d a b → (n < length (nodes a))%nat →
    alike d n a (tarjan fuel n a) (tarjan fuel n b).
Proof.
  induction fuel as [|f IH]; intros n a b H Hn; [done|].
  rewrite !tarjan_S. rewrite <- (sh_links _ _ _ H).
  pose proof (sim_children f d n (nodeStack a) IH (links_of a n)
                (enter n a) (enter n b) (shifted_enter d a b n H Hn)) as Hloop.
  destruct (visit_children (tarjan f) n (links_of a n) (enter n a)) as [a1|],
           (visit_children (tarjan f) n (links_of a n) (enter n b)) as [b1|];
    unfold alike.
  - destruct Hloop as (H1 & Hlen & above & Hs).
    { exists []. by rewrite enter_stack. }
    { intros c Hc. rewrite enter_length. by apply (sh_range _ _ _ H n). }
    pose proof (shifted_close d a1 b1 n above (nodeStack a) H1 Hs) as Hclose.
    destruct (close_component n a1) as [a2|], (close_component n b1) as [b2|];
      try done.
    destruct Hclose as (H2 & Hi & Hl & Hlen2 & Hs2).
    split; [done|]. split; [done|]. split; [done|]. split; [|done].
    by rewrite Hlen2, Hlen, enter_length.
  - exfalso. apply Hloop; [exists []; by rewrite enter_stack|].
    intros c Hc. rewrite enter_length. by apply (sh_range _ _ _ H n).
  - exfalso. apply Hloop; [exists []; by rewrite enter_stack|].
    intros c Hc. rewrite enter_length. by apply (sh_range _ _ _ H n).
  - apply Hloop; [exists []; by rewrite enter_stack|].
    intros c Hc. rewrite enter_length. by apply (sh_range _ _ _ H n).
Qed.

Lemma shifted_revisit d a b r :
  shifted d a b → nodeStack a = [] → index_of a r ≠ -1 →
  shifted (d + 1) (set_stack [] (enter r a)) b.
Proof.
  intros H Hs Hr.
  assert (Ha : (r < length (nodes a))%nat) by by apply index_of_visited_lt.
  destruct H as [H1 H2 H3 H4 H5 H6 H7 H8 H9 H10 H11 H12 H13].
  split.
  - change (length (nodes (enter r a)) = length (nodes b)). by rewrite enter_length.
  - intros v. change (links_of (enter r a) v = links_of b v). by rewrite enter_links.
  - intros v. change (name_of (enter r a) v = name_of b v). by rewrite enter_names.
  - intros v w. change (w ∈ links_of (enter r a) v → (w < length (nodes (enter r a)))%nat).
    rewrite enter_links, enter_length. apply H4.
  - simpl. by rewrite <- H5.
  - done.
  - done.
  - change (indexCount a + 1 = indexCount b + (d + 1)). lia.
  - change (0 ≤ indexCount a + 1). lia.
  - done.
  - intros v. change (index_of (enter r a) v = -1 ↔ index_of b v = -1).
    destruct (decide (v = r)) as [->|Hne].
    + rewrite enter_index_eq by done. split; [lia|]. intros E. by apply H11 in E.
    + by rewrite enter_index_ne.
  - intros v Hv. by apply elem_of_nil in Hv.
  - intros v Hv. by apply elem_of_nil in Hv.
Qed.

Lemma shifted_refl g : fresh_graph g → shifted 0 (initial g) (initial g).
Proof.
  intros Hf. split; try done.
  - intros v w. apply (fresh_closed g Hf).
  - intros v Hv. by apply elem_of_nil in Hv.
  - intros v Hv. by apply elem_of_nil in Hv.
Qed.

(** The loop of [main] and the loop of the specification, side by side. *)
Lemma sim_roots g roots :
  (∀ u v, edge g u v → (v < length g)%nat) →
  ∀ a b groups d, top_inv g a groups → shifted d a b →
    (∀ r, r ∈ roots → (r < length g)%nat) →
    ∃ a' b' d',
      run_roots (length g) roots a = Ok a' ∧
      run_roots_unvisited (length g) roots b = Ok b' ∧
      shifted d' a' b'.
Proof.
  intros Hcl. induction roots as [|r rest IH]; intros a b groups d T H Hr.
  - by exists a, b, d.
  - assert (Hlt : (r < length g)%nat) by apply Hr, list_elem_of_here.
    assert (Hrest : ∀ r', r' ∈ rest → (r' < length g)%nat).
    { intros r' Hr'. apply Hr. by apply elem_of_cons; right. }
    destruct (root_step g Hcl r a groups T Hlt)
      as (a1 & groups1 & Hrun & T1 & _ & _ & Hre).
    simpl. rewrite Hrun. simpl.
    destruct (Z.eqb_spec (index_of b r) (-1)) as [E|E].
    + assert (Hsim : alike d r a (tarjan (length g) r a) (tarjan (length g) r b)).
      { apply sim_tarjan; [done|]. by rewrite (inv_length _ _ (ti_inv _ _ _ T)). }
      rewrite Hrun in Hsim. unfold alike in Hsim.
      destruct (tarjan (length g) r b) as [b1|]; [|done]. simpl.
      destruct Hsim as (H1 & _). by apply (IH a1 b1 (groups ++ groups1) d).
    + assert (Hv : index_of a r ≠ -1).
      { intros E'. by apply (sh_visited _ _ _ H) in E'. }
      destruct (Hre Hv) as [-> _].
      apply (IH _ b (groups ++ groups1) (d + 1)); [done| |done].
      apply shifted_revisit; [done|apply (ti_stack _ _ _ T)|done].
Qed.

(** The traversals that [main] starts at visited nodes change none of the
    lines printed: the loop of [main] prints what the loop of the
    specification prints. *)
Lemma detect_as_specified g : fresh_graph g → detect g = detect_unvisited g.
Proof.
  intros Hf.
  destruct (sim_roots g (seq 0 (length g)) (fresh_closed g Hf)
              (initial g) (initial g) [] 0 (fresh_top_inv g Hf) (shifted_refl g Hf))
    as (a & b & d & Ha & Hb & H).
  { intros r [_ Hr]%elem_of_seq. simpl in Hr. lia. }
  unfold detect, detect_unvisited. rewrite Ha, Hb. simpl. f_equal.
  unfold summary. by rewrite (sh_detected _ _ _ H), (sh_output _ _ _ H).
Qed.

(** C5 (counterexample).  With [a.hpp] including [b.hpp], the node of
    [b.hpp] is numbered 1 by the traversal started at [a.hpp]; the loop of
    [main] starts a traversal at it all the same, which numbers it 2, where
    the loop of the specification leaves it alone: the two loops end in
    different states. *)
Lemma visited_root_counterexample :
  let g := [mkNode "a.hpp" [1%nat] (-1) 0; mkNode "b.hpp" [] (-1) 0] in
  (∃ st st',
     run_roots (length g) [0%nat] (initial g) = Ok st ∧
     index_of st 1 = 1 ∧
     run_roots (length g) [1%nat] st = Ok st' ∧
     index_of st' 1 = 2 ∧ indexCount st' = 3 ∧
     run_roots_unvisited (length g) [1%nat] st = Ok st) ∧
  run_roots (length g) (seq 0 (length g)) (initial g)
  ≠ run_roots_unvisited (length g) (seq 0 (length g)) (initial g).
Proof.
  intros g. split.
  - exists (mkState [mkNode "a.hpp" [1%nat] 0 0; mkNode "b.hpp" [] 1 1] [] 2 [] false),
           (mkState [mkNode "a.hpp" [1%nat] 0 0; mkNode "b.hpp" [] 2 2] [] 3 [] false).
    repeat split; vm_compute; reflexivity.
  - assert (∃ st, run_roots (length g) (seq 0 (length g)) (initial g) = Ok st ∧
                  indexCount st = 3) as (sa & -> & Ha)
      by (eexists; split; [vm_compute; reflexivity|reflexivity]).
    assert (∃ st, run_roots_unvisited (length g) (seq 0 (length g)) (initial g)
                  = Ok st ∧ indexCount st = 2) as (sb & -> & Hb)
      by (eexists; split; [vm_compute; reflexivity|reflexivity]).
    intros [= ->]. lia.
Qed.

(** C5 (amended).  The loop of [main] starts a traversal at every node of
    the registry, in order, visited or not: the turn for node [k] returns
    with [k] numbered by the counter as it stood before the turn.  The test
    of the sentinel guards the recursion only: no other node visited before
    the turn is numbered again.  When [k] was visited before, the turn
    numbers it again, pushes it and pops it, and does nothing else; so the
    lines printed are those of the loop that starts at unvisited nodes
    only. *)
Theorem every_node_is_a_root g :
  fresh_graph g →
  detect g = detect_unvisited g ∧
  ∀ k, (k < length g)%nat →
    ∃ st st',
      run_roots (length g) (seq 0 k) (initial g) = Ok st ∧
      tarjan (length g) k st = Ok st' ∧
      index_of st' k = indexCount st ∧
      (∀ v, index_of st v ≠ -1 → v ≠ k → index_of st' v = index_of st v) ∧
      (index_of st k ≠ -1 → st' = set_stack [] (enter k st)).
Proof.
  intros Hf. split; [by apply detect_as_specified|]. intros k Hk.
  destruct (before_root g k Hf) as (st & groups & Hrun & T); [lia|].
  destruct (root_step g (fresh_closed g Hf) k st groups T Hk)
    as (st' & groups' & Hrun' & _ & Hi & Hold & Hre).
  exists st, st'. repeat split; try done. intros Hv. by destruct (Hre Hv).
Qed.

Lemma every_node_is_a_root_witness :
  let g := [mkNode "a.hpp" [1%nat] (-1) 0; mkNode "b.hpp" [] (-1) 0] in
  detect g = detect_unvisited g ∧
  ∀ k, (k < length g)%nat →
    ∃ st st',
      run_roots (length g) (seq 0 k) (initial g) = Ok st ∧
      tarjan (length g) k st = Ok st' ∧
      index_of st' k = indexCount st ∧
      (∀ v, index_of st v ≠ -1 → v ≠ k → index_of st' v = index_of st v) ∧
      (index_of st k ≠ -1 → st' = set_stack [] (enter k st)).
Proof.
  intros g. apply (every_node_is_a_root g).
  by apply (bool_decide_unpack _).
Defined.

(** * Further properties of the code *)

(** ** Texts *)

Lemma str_app_cons (x : ascii) (a b : string) : String x a +:+ b = String x (a +:+ b).
Proof. reflexivity. Qed.

Lemma str_app_nil_l (a : string) : EmptyString +:+ a = a.
Proof. reflexivity. Qed.

Lemma str_app_assoc (a b c : string) : (a +:+ b) +:+ c = a +:+ b +:+ c.
Proof.
  induction a as [|x a IH]; [done|]. by rewrite !str_app_cons, IH.
Qed.

Lemma str_app_nil_r (a : string) : a +:+ EmptyString = a.
Proof. induction a as [|x a IH]; [done|]. by rewrite str_app_cons, IH. Qed.

Lemma str_length_app (a b : string) :
  String.length (a +:+ b) = (String.length a + String.length b)%nat.
Proof. induction a as [|x a IH]; [done|]. rewrite str_app_cons. simpl. by rewrite IH. Qed.

Lemma chars_cons (x : ascii) (a : string) : chars (String x a) = x :: chars a.
Proof. reflexivity. Qed.

Lemma chars_app (a b : string) : chars (a +:+ b) = chars a ++ chars b.
Proof.
  induction a as [|x a IH]; [done|]. by rewrite str_app_cons, !chars_cons, IH.
Qed.

Lemma chars_length (a : string) : length (chars a) = String.length a.
Proof. induction a as [|x a IH]; [done|]. rewrite chars_cons. simpl. by rewrite IH. Qed.

Lemma prefix_rest_Some p s r : prefix_rest p s = Some r ↔ s = p +:+ r.
Proof.
  revert s. induction p as [|a p IH]; intros s; simpl.
  - split; [by intros [= ->]|by intros ->].
  - destruct s as [|b s]; [done|].
    destruct (Ascii.eqb_spec a b) as [->|Hne].
    + rewrite IH. split; [by intros ->|by intros [= ->]].
    + split; [done|]. intros [= ? ?]. done.
Qed.

Lemma prefix_rest_app p r : prefix_rest p (p +:+ r) = Some r.
Proof. by apply prefix_rest_Some. Qed.

Lemma substring_all (s : string) : substring 0 (String.length s) s = s.
Proof. induction s as [|c s IH]; simpl; [done|by rewrite IH]. Qed.

Lemma substring_split (s : string) (k : nat) :
  (k ≤ String.length s)%nat →
  s = substring 0 k s +:+ substring k (String.length s - k) s.
Proof.
  revert k. induction s as [|c s IH]; intros k Hk; simpl in *.
  - by destruct k.
  - destruct k as [|k]; simpl.
    + by rewrite substring_all.
    + rewrite str_app_cons. f_equal. apply IH. lia.
Qed.

Lemma substring_drop (p s : string) :
  substring (String.length p) (String.length s) (p +:+ s) = s.
Proof.
  induction p as [|c p IH]; simpl; [|done].
  destruct s as [|c s]; simpl; [done|]. by rewrite substring_all.
Qed.

(** [s.endswith(suffix)] holds exactly of the texts that are [suffix] after
    some text. *)
Lemma endswith_spec (s suffix : string) :
  endswith s suffix = true ↔ ∃ p, s = p +:+ suffix.
Proof.
  unfold endswith. rewrite andb_true_iff, Nat.leb_le, String.eqb_eq. split.
  - intros [Hle Hsub]. exists (substring 0 (String.length s - String.length suffix) s).
    pose proof (substring_split s (String.length s - String.length suffix)) as H.
    replace (String.length s - (String.length s - String.length suffix))%nat
      with (String.length suffix) in H by lia.
    rewrite Hsub in H. apply H. lia.
  - intros [p ->]. rewrite str_length_app. split; [lia|].
    replace (String.length p + String.length suffix - String.length suffix)%nat
      with (String.length p) by lia.
    apply substring_drop.
Qed.

(** X1.  [isValidFile] accepts exactly the names that end in [.h] or in
    [.hpp]: some text, possibly empty, followed by one of the two
    extensions, in this spelling. *)
Theorem isValidFile_iff (file : string) :
  isValidFile file = true ↔ ∃ stem, file = stem +:+ ".h" ∨ file = stem +:+ ".hpp".
Proof.
  unfold isValidFile. rewrite orb_true_iff, !endswith_spec. split.
  - intros [[p ->]|[p ->]]; exists p; auto.
  - intros [p [->| ->]]; [left|right]; by exists p.
Qed.

(** ** [stripComments] *)

Lemma sub_comments_sublist (skip : nat) (s : string) :
  chars (Re.sub_comments skip s) `sublist_of` chars s.
Proof.
  revert skip. induction s as [|c s IH]; intros skip; simpl; [done|].
  destruct skip as [|k]; [|by apply sublist_cons].
  destruct (Re.commentRE_match (String c s)) as [[|k]|].
  - by apply sublist_skip.
  - by apply sublist_cons.
  - by apply sublist_skip.
Qed.

(** X2.  [stripComments] only deletes: the characters of its result are
    characters of the input, in the order of the input, so the result is
    never longer than the input and holds no more line feeds. *)
Theorem stripComments_only_deletes (input : string) :
  chars (stripComments input) `sublist_of` chars input ∧
  (String.length (stripComments input) ≤ String.length input)%nat ∧
  (newlines (stripComments input) ≤ newlines input)%nat.
Proof.
  pose proof (sub_comments_sublist 0 input) as H. split; [done|]. split.
  - rewrite <- !chars_length. by apply sublist_length.
  - unfold newlines. unfold stripComments.
    induction H as [|x l1 l2 _ IH|x l1 l2 _ IH]; simpl; [done| |].
    + destruct (ascii_dec x LF); lia.
    + destruct (ascii_dec x LF); lia.
Qed.

Lemma occurs_prefix p s r : prefix_rest p s = Some r → occurs p s = true.
Proof. intros H. destruct s; simpl; by rewrite H. Qed.

Lemma occurs_tail p c s : occurs p (String c s) = false → occurs p s = false.
Proof. simpl. by destruct (prefix_rest p (String c s)). Qed.

Lemma occurs_head p c s : occurs p (String c s) = false → prefix_rest p (String c s) = None.
Proof. simpl. by destruct (prefix_rest p (String c s)). Qed.

Lemma occurs_suffix p a b : occurs p (a +:+ b) = false → occurs p b = false.
Proof.
  induction a as [|c a IH]; [done|]. rewrite str_app_cons.
  intros H. by apply IH, (occurs_tail p c).
Qed.

Lemma block_close_None (s : string) : occurs "*/" s = false → Re.block_close s = None.
Proof.
  induction s as [|c s IH]; [done|]. intros H.
  change (Re.block_close (String c s))
    with (match prefix_rest "*/" (String c s) with
          | Some _ => Some 2%nat
          | None => S <$> Re.block_close s
          end).
  rewrite (occurs_head _ _ _ H), IH; [done|by eapply occurs_tail].
Qed.

Lemma line_close_None (s : string) :
  LF ∉ chars s → CR ∉ chars s → Re.line_close s = None.
Proof.
  induction s as [|c s IH]; [done|]. rewrite chars_cons, !not_elem_of_cons.
  intros [H1 H2] [H3 H4]. simpl.
  destruct (Ascii.eqb_spec c LF); [done|]. rewrite IH by done.
  by destruct (Ascii.eqb_spec c CR).
Qed.

(** X3.  [stripComments] returns unchanged every text that holds no
    complete comment: one in which the opening or the closing mark of a
    block comment does not occur, and in which two slashes in a row do not
    occur or no end of line (line feed or carriage return) does.  So a
    block comment that is never closed stays, and so does a line comment
    that no end of line follows. *)
Theorem stripComments_unchanged (input : string) :
  occurs "/*" input = false ∨ occurs "*/" input = false →
  occurs "//" input = false ∨ ((LF ∉ chars input) ∧ (CR ∉ chars input)) →
  stripComments input = input.
Proof.
  unfold stripComments. induction input as [|c s IH]; [done|]. intros Hb Hl.
  assert (Hm : Re.commentRE_match (String c s) = None).
  { unfold Re.commentRE_match.
    destruct (prefix_rest "/*" (String c s)) as [r|] eqn:E1.
    - destruct Hb as [Hb|Hb]; [by rewrite (occurs_prefix _ _ _ E1) in Hb|].
      apply prefix_rest_Some in E1. rewrite E1 in Hb.
      by rewrite (block_close_None r (occurs_suffix _ _ _ Hb)).
    - destruct (prefix_rest "//" (String c s)) as [r|] eqn:E2; [|done].
      destruct Hl as [Hl|[Hl1 Hl2]]; [by rewrite (occurs_prefix _ _ _ E2) in Hl|].
      apply prefix_rest_Some in E2. rewrite E2, chars_app in Hl1, Hl2.
      rewrite not_elem_of_app in Hl1, Hl2.
      destruct Hl1 as [_ Hl1], Hl2 as [_ Hl2]. by rewrite line_close_None. }
  simpl. simpl in Hm. rewrite Hm. f_equal. apply IH.
  - destruct Hb as [Hb|Hb]; [left|right]; by eapply occurs_tail.
  - destruct Hl as [Hl|[Hl1 Hl2]]; [left; by eapply occurs_tail|right].
    rewrite chars_cons, not_elem_of_cons in Hl1, Hl2. tauto.
Qed.

Lemma stripComments_unchanged_witness :
  stripComments "int x; /* never closed" = "int x; /* never closed" ∧
  stripComments "int y; // the last line" = "int y; // the last line".
Proof.
  split.
  - apply (stripComments_unchanged "int x; /* never closed").
    + right. reflexivity.
    + left. reflexivity.
  - apply (stripComments_unchanged "int y; // the last line").
    + left. reflexivity.
    + right. split; by apply (bool_decide_unpack _).
Defined.

Lemma prefix_rest_cons (a b : ascii) (p s : string) :
  prefix_rest (String a p) (String b s) = if Ascii.eqb a b then prefix_rest p s else None.
Proof. reflexivity. Qed.

Lemma sub_comments_skip (a b : string) :
  Re.sub_comments (String.length a) (a +:+ b) = Re.sub_comments 0 b.
Proof. induction a as [|c a IH]; [done|]. rewrite str_app_cons. simpl. apply IH. Qed.

Lemma sub_comments_keep (pre s : string) :
  "/"%char ∉ chars pre →
  Re.sub_comments 0 (pre +:+ s) = pre +:+ Re.sub_comments 0 s.
Proof.
  induction pre as [|c pre IH]; [done|].
  rewrite chars_cons, not_elem_of_cons, !str_app_cons. intros [Hc Hpre].
  assert (Hm : Re.commentRE_match (String c (pre +:+ s)) = None).
  { unfold Re.commentRE_match. rewrite !prefix_rest_cons.
    destruct (Ascii.eqb_spec "/" c) as [?|_]; [congruence|done]. }
  simpl. simpl in Hm. rewrite Hm. f_equal. by apply IH.
Qed.

Lemma block_close_first (body rest : string) :
  occurs "*/" body = false →
  Re.block_close (body +:+ "*/" +:+ rest) = Some (String.length body + 2)%nat.
Proof.
  induction body as [|c b IH]; [done|]. intros H. rewrite str_app_cons.
  change (Re.block_close (String c (b +:+ "*/" +:+ rest)))
    with (match prefix_rest "*/" (String c (b +:+ "*/" +:+ rest)) with
          | Some _ => Some 2%nat
          | None => S <$> Re.block_close (b +:+ "*/" +:+ rest)
          end).
  assert (Hp : prefix_rest "*/" (String c (b +:+ "*/" +:+ rest)) = None).
  { pose proof (occurs_head _ _ _ H) as Hh. rewrite prefix_rest_cons in *.
    destruct (Ascii.eqb "*" c); [|done].
    destruct b as [|d b]; [done|]. rewrite str_app_cons.
    rewrite prefix_rest_cons in *. by destruct (Ascii.eqb "/" d). }
  rewrite Hp, IH; [done|by eapply occurs_tail].
Qed.

Lemma line_close_first (body rest : string) :
  LF ∉ chars body →
  Re.line_close (body +:+ String LF rest) = Some (String.length body + 1)%nat.
Proof.
  induction body as [|c b IH]; [done|].
  rewrite chars_cons, not_elem_of_cons, str_app_cons. intros [Hc Hb]. simpl.
  destruct (Ascii.eqb_spec c LF); [done|]. by rewrite IH.
Qed.

Lemma line_close_last_CR (body tail : string) :
  LF ∉ chars body → LF ∉ chars tail → CR ∉ chars tail →
  Re.line_close (body +:+ String CR tail) = Some (String.length body + 1)%nat.
Proof.
  intros Hb H1 H2. induction body as [|c b IH].
  - rewrite str_app_nil_l. simpl. by rewrite line_close_None.
  - rewrite chars_cons, not_elem_of_cons in Hb. destruct Hb as [Hc Hb].
    rewrite str_app_cons. simpl.
    destruct (Ascii.eqb_spec c LF); [done|]. by rewrite IH.
Qed.

(** X4.  A block comment that follows text without a slash is removed
    from its opening mark to the first closing mark after it, and
    [stripComments] goes on with what follows: comments do not nest, and
    the text before the comment is kept as it is. *)
Theorem stripComments_block (pre body rest : string) :
  "/"%char ∉ chars pre → occurs "*/" body = false →
  stripComments (pre +:+ "/*" +:+ body +:+ "*/" +:+ rest)
  = pre +:+ stripComments rest.
Proof.
  intros Hpre Hbody. unfold stripComments. rewrite sub_comments_keep by done.
  f_equal.
  change ("/*" +:+ body +:+ "*/" +:+ rest)
    with (String "/" (String "*" (body +:+ "*/" +:+ rest))).
  assert (Hm : Re.commentRE_match (String "/" (String "*" (body +:+ "*/" +:+ rest)))
               = Some (S (S (String.length body + 2)))).
  { unfold Re.commentRE_match. simpl prefix_rest. cbv beta iota. by rewrite block_close_first. }
  simpl. simpl in Hm. rewrite Hm.
  rewrite <- (str_app_assoc body "*/" rest), <- (sub_comments_skip (body +:+ "*/") rest).
  f_equal. by rewrite str_length_app.
Qed.

Lemma stripComments_block_witness :
  stripComments "int x; /* a /* b */ int y; */" = "int x;  int y; */".
Proof.
  apply (stripComments_block "int x; " " a /* b " " int y; */").
  - by apply (bool_decide_unpack _).
  - reflexivity.
Defined.

(** X5.  A line comment that follows text without a slash is removed
    from its two slashes to the first line feed after them, the line feed
    included: the line of the comment is joined with the next one. *)
Theorem stripComments_line (pre body rest : string) :
  "/"%char ∉ chars pre → LF ∉ chars body →
  stripComments (pre +:+ "//" +:+ body +:+ String LF rest)
  = pre +:+ stripComments rest.
Proof.
  intros Hpre Hbody. unfold stripComments. rewrite sub_comments_keep by done.
  f_equal.
  change ("//" +:+ body +:+ String LF rest)
    with (String "/" (String "/" (body +:+ String LF rest))).
  assert (Hm : Re.commentRE_match (String "/" (String "/" (body +:+ String LF rest)))
               = Some (S (S (String.length body + 1)))).
  { unfold Re.commentRE_match. simpl prefix_rest. cbv beta iota. by rewrite line_close_first. }
  simpl. simpl in Hm. rewrite Hm.
  change (String LF rest) with (String LF EmptyString +:+ rest).
  rewrite <- (str_app_assoc body _ rest),
    <- (sub_comments_skip (body +:+ String LF EmptyString) rest).
  f_equal. by rewrite str_length_app.
Qed.

Lemma stripComments_line_witness :
  stripComments ("int x; // first" +:+ String LF "int y;") = "int x; int y;".
Proof.
  apply (stripComments_line "int x; " " first" "int y;").
  - by apply (bool_decide_unpack _).
  - by apply (bool_decide_unpack _).
Defined.

(** X6.  In a text whose lines end in carriage returns alone, a line
    comment does not stop at the end of its line: when no line feed
    follows the two slashes, the comment runs to the last carriage return
    of the text, and every line in between is removed with it. *)
Theorem stripComments_line_CR (pre body tail : string) :
  "/"%char ∉ chars pre →
  LF ∉ chars body → LF ∉ chars tail → CR ∉ chars tail →
  stripComments (pre +:+ "//" +:+ body +:+ String CR tail)
  = pre +:+ stripComments tail.
Proof.
  intros Hpre Hbody Ht1 Ht2. unfold stripComments. rewrite sub_comments_keep by done.
  f_equal.
  change ("//" +:+ body +:+ String CR tail)
    with (String "/" (String "/" (body +:+ String CR tail))).
  assert (Hm : Re.commentRE_match (String "/" (String "/" (body +:+ String CR tail)))
               = Some (S (S (String.length body + 1)))).
  { unfold Re.commentRE_match. simpl prefix_rest. cbv beta iota. by rewrite line_close_last_CR. }
  simpl. simpl in Hm. rewrite Hm.
  change (String CR tail) with (String CR EmptyString +:+ tail).
  rewrite <- (str_app_assoc body _ tail),
    <- (sub_comments_skip (body +:+ String CR EmptyString) tail).
  f_equal. by rewrite str_length_app.
Qed.

Lemma stripComments_line_CR_witness :
  stripComments ("// one" +:+ String CR ("#include " +:+ quoted "a.h" +:+ String CR "int y;"))
  = "int y;".
Proof.
  apply (stripComments_line_CR EmptyString
           (" one" +:+ String CR ("#include " +:+ quoted "a.h")) "int y;").
  - by apply (bool_decide_unpack _).
  - by apply (bool_decide_unpack _).
  - by apply (bool_decide_unpack _).
  - by apply (bool_decide_unpack _).
Defined.

(** ** The directives of a text *)

Lemma newlines_cons (c : ascii) (s : string) :
  newlines (String c s) = ((if Ascii.eqb c LF then 1 else 0) + newlines s)%nat.
Proof.
  unfold newlines. rewrite chars_cons. simpl.
  destruct (ascii_dec c LF) as [->|Hne]; [done|].
  by destruct (Ascii.eqb_spec c LF).
Qed.

Lemma newlines_app (a b : string) : newlines (a +:+ b) = (newlines a + newlines b)%nat.
Proof. unfold newlines. by rewrite chars_app, count_occ_app. Qed.

Lemma to_last_quote_None (s : string) :
  Re.to_last_quote s = None ↔ quote_free_line s = true.
Proof.
  induction s as [|c s IH]; [done|]. simpl.
  destruct (Ascii.eqb_spec c LF); [done|].
  destruct (Re.to_last_quote s) as [m|].
  - destruct (Ascii.eqb c dquote); [done|]. split; [done|].
    intros H. by apply IH in H.
  - destruct (Ascii.eqb c dquote); [done|]. split; [|done]. intros _. by apply IH.
Qed.

Lemma to_last_quote_Some (s t : string) :
  Re.to_last_quote s = Some t →
  ∃ rest, s = t +:+ rest ∧ quote_free_line rest = true.
Proof.
  revert t. induction s as [|c s IH]; intros t; [done|]. simpl.
  destruct (Ascii.eqb_spec c LF); [done|].
  destruct (Re.to_last_quote s) as [m|] eqn:E.
  - intros [= <-]. destruct (IH m eq_refl) as (rest & -> & Hrest). by exists rest.
  - destruct (Ascii.eqb c dquote); [|done]. intros [= <-]. exists s.
    split; [done|]. by apply to_last_quote_None.
Qed.

Lemma to_last_quote_line (body rest : string) :
  LF ∉ chars body → quote_free_line rest = true →
  Re.to_last_quote (body +:+ String dquote rest) = Some (body +:+ String dquote EmptyString).
Proof.
  intros Hb Hrest. induction body as [|c b IH].
  - rewrite !str_app_nil_l. simpl. apply to_last_quote_None in Hrest. by rewrite Hrest.
  - rewrite chars_cons, not_elem_of_cons in Hb. destruct Hb as [Hc Hb].
    rewrite !str_app_cons. simpl. destruct (Ascii.eqb_spec c LF); [done|].
    by rewrite IH.
Qed.

Lemma findall_includes_skip (a b : string) :
  Re.findall_includes (String.length a) (a +:+ b) = Re.findall_includes 0 b.
Proof. induction a as [|c a IH]; [done|]. rewrite str_app_cons. simpl. apply IH. Qed.

Lemma findall_includes_step (c : ascii) (s : string) :
  Re.findall_includes 0 (String c s) =
  match Re.includeRE_match (String c s) with
  | Some m => m :: Re.findall_includes (String.length m - 1) s
  | None => Re.findall_includes 0 s
  end.
Proof. reflexivity. Qed.

(** A match of [includeRE] at the head of [s]: the opening text, then the
    rest of the line up to its last double quote. *)
Lemma includeRE_match_Some (s m : string) :
  Re.includeRE_match s = Some m →
  ∃ t rest, m = Re.include_open +:+ t ∧ s = m +:+ rest ∧ quote_free_line rest = true.
Proof.
  unfold Re.includeRE_match.
  destruct (prefix_rest Re.include_open s) as [r|] eqn:E; [|done].
  apply prefix_rest_Some in E as ->.
  destruct (Re.to_last_quote r) as [t|] eqn:Et; [|done]. intros [= <-].
  apply to_last_quote_Some in Et as (rest & -> & Hrest).
  exists t, rest. by rewrite str_app_assoc.
Qed.

Lemma findall_includes_count (n : nat) :
  ∀ s, (String.length s ≤ n)%nat →
    (length (Re.findall_includes 0 s) ≤ S (newlines s))%nat ∧
    (quote_free_line s = true → (length (Re.findall_includes 0 s) ≤ newlines s)%nat).
Proof.
  induction n as [|n IH]; intros s Hn.
  - destruct s; simpl in *; [|lia]. split; [lia|done].
  - destruct s as [|c s]; [split; [simpl; lia|done]|].
    simpl in Hn. rewrite findall_includes_step, newlines_cons.
    destruct (Re.includeRE_match (String c s)) as [m|] eqn:E.
    + apply includeRE_match_Some in E as (t & rest & -> & Hs & Hrest).
      change (Re.include_open +:+ t)
        with (String "#" ("include " +:+ String dquote EmptyString +:+ t)) in *.
      rewrite str_app_cons in Hs. injection Hs as -> ->.
      assert (Hlen : (String.length rest ≤ n)%nat).
      { rewrite str_length_app in Hn. lia. }
      change ("#" =? LF)%char with false. cbv iota.
      split; [|intros Hq; by vm_compute in Hq].
      set (m' := "include " +:+ String dquote EmptyString +:+ t) in *.
      replace (String.length (String "#" m') - 1)%nat with (String.length m')
        by (simpl; lia).
      rewrite findall_includes_skip.
      destruct (IH rest Hlen) as [_ HB]. rewrite newlines_app. simpl length.
      specialize (HB Hrest). lia.
    + destruct (IH s) as [HA HB]; [lia|]. split; [lia|].
      simpl. destruct (Ascii.eqb_spec c LF); [intros _; lia|].
      destruct (Ascii.eqb c dquote); [done|]. intros Hq. specialize (HB Hq). lia.
Qed.

Lemma sub_comments_newlines (skip : nat) (s : string) :
  (newlines (Re.sub_comments skip s) ≤ newlines s)%nat.
Proof.
  pose proof (sub_comments_sublist skip s) as H. unfold newlines.
  induction H as [|x l1 l2 _ IH|x l1 l2 _ IH]; simpl; [done| |];
    destruct (ascii_dec x LF); lia.
Qed.

(** X7.  The scanner finds at most one directive on a line: [includeRE]
    takes the rest of the line up to its last double quote, so the matches
    in a text are at most one more than its line feeds, and so are the
    directives that [constructGraph] reads from a header. *)
Theorem one_directive_per_line (text : string) :
  (length (Re.findall_includes 0 text) ≤ S (newlines text))%nat ∧
  (length (includes_of text) ≤ S (newlines text))%nat.
Proof.
  split.
  - by apply (findall_includes_count (String.length text)).
  - unfold includes_of, stripComments.
    pose proof (sub_comments_newlines 0 text).
    pose proof (findall_includes_count _ (Re.sub_comments 0 text) (Nat.le_refl _)) as [H1 _].
    lia.
Qed.

(** ** From a name to its directive and back *)

Lemma stripComments_no_slash (text : string) :
  "/"%char ∉ chars text → stripComments text = text.
Proof.
  intros H. unfold stripComments.
  rewrite <- (str_app_nil_r text) at 1. rewrite sub_comments_keep by done.
  apply str_app_nil_r.
Qed.

Lemma class_char_not (c : ascii) (l : list ascii) :
  Re.filename_class c = false →
  Forall (fun x => Re.filename_class x = true) l → c ∉ l.
Proof.
  intros Hc Hl Hin. rewrite Forall_forall in Hl. apply Hl in Hin. congruence.
Qed.

Lemma class_run_app (run rest : string) :
  Forall (fun c => Re.filename_class c = true) (chars run) →
  match rest with
  | EmptyString => True
  | String c _ => Re.filename_class c = false
  end →
  Re.class_run (run +:+ rest) = (run, rest).
Proof.
  intros Hrun Hrest. induction run as [|c run IH].
  - rewrite str_app_nil_l. destruct rest as [|c rest]; [done|]. simpl. by rewrite Hrest.
  - rewrite chars_cons in Hrun. apply Forall_cons in Hrun as [Hc Hrun].
    rewrite str_app_cons. simpl. by rewrite Hc, IH.
Qed.

Lemma filenameRE_search_step (c : ascii) (s : string) :
  Re.filenameRE_search (String c s) =
  match Re.filenameRE_match (String c s) with
  | Some m => Some m
  | None => Re.filenameRE_search s
  end.
Proof. reflexivity. Qed.

Lemma filenameRE_search_here (s m : string) :
  Re.filenameRE_match s = Some m → Re.filenameRE_search s = Some m.
Proof.
  intros H. destruct s as [|c s]; [by vm_compute in H|].
  by rewrite filenameRE_search_step, H.
Qed.

Lemma include_line_eq (file : string) :
  include_line file
  = Re.include_open +:+ (file +:+ String dquote EmptyString) +:+ String LF EmptyString.
Proof.
  unfold include_line, quoted.
  change ("#include " +:+ String dquote (file +:+ String dquote EmptyString)
            +:+ String LF EmptyString)
    with (Re.include_open +:+ ((file +:+ String dquote EmptyString) +:+ String LF EmptyString)).
  done.
Qed.

(** X8.  A header name made of characters of the class of [filenameRE]
    and one of the two extensions survives the way through the scanner:
    the line that includes it yields exactly one directive, and the name
    extracted from the directive is the name that was written. *)
Theorem directive_round_trip (stem ext : string) :
  Forall (fun c => Re.filename_class c = true) (chars stem) →
  ext = ".h" ∨ ext = ".hpp" →
  includes_of (include_line (stem +:+ ext)) = ["#include " +:+ quoted (stem +:+ ext)] ∧
  Re.filenameRE_search ("#include " +:+ quoted (stem +:+ ext)) = Some (stem +:+ ext).
Proof.
  intros Hstem Hext.
  assert (Hslash : "/"%char ∉ chars stem) by by apply class_char_not.
  assert (Hlf : LF ∉ chars stem) by by apply class_char_not.
  assert (Hext' : ("/"%char ∉ chars ext) ∧ (LF ∉ chars ext)).
  { destruct Hext as [-> | ->]; split; by apply (bool_decide_unpack _). }
  destruct Hext' as [He1 He2]. split.
  - unfold includes_of. rewrite stripComments_no_slash.
    + rewrite include_line_eq.
      set (m := Re.include_open +:+ (stem +:+ ext) +:+ String dquote EmptyString).
      assert (Hm : Re.includeRE_match (m +:+ String LF EmptyString) = Some m).
      { unfold Re.includeRE_match, m.
        rewrite !str_app_assoc, prefix_rest_app.
        change (String dquote EmptyString +:+ String LF EmptyString)
          with (String dquote (String LF EmptyString)).
        rewrite <- str_app_assoc, to_last_quote_line; [by rewrite !str_app_assoc| |done].
        rewrite chars_app, not_elem_of_app. done. }
      change (Re.include_open +:+ (stem +:+ ext +:+ String dquote EmptyString)
                +:+ String LF EmptyString)
        with (Re.include_open +:+ ((stem +:+ ext +:+ String dquote EmptyString)
                +:+ String LF EmptyString)).
      rewrite <- str_app_assoc. fold m.
      assert (Hhd : ∃ m', m = String "#" m') by (by eexists).
      destruct Hhd as [m' Hm']. rewrite Hm' in *. rewrite str_app_cons in *.
      rewrite findall_includes_step, Hm. f_equal; [by rewrite <- Hm'|].
      replace (String.length (String "#" m') - 1)%nat with (String.length m')
        by (simpl; lia).
      by rewrite findall_includes_skip.
    + rewrite include_line_eq, !chars_app, !not_elem_of_app.
      repeat split; try done; by apply (bool_decide_unpack _).
  - change ("#include " +:+ quoted (stem +:+ ext))
      with (String "#" (String "i" (String "n" (String "c" (String "l" (String "u"
              (String "d" (String "e" (String " " (String dquote
                 ((stem +:+ ext) +:+ String dquote EmptyString))))))))))).
    do 10 (rewrite filenameRE_search_step;
           match goal with
           | |- context [Re.filenameRE_match ?s] =>
               change (Re.filenameRE_match s) with (@None string)
           end; cbv iota).
    apply filenameRE_search_here. unfold Re.filenameRE_match.
    rewrite str_app_assoc, class_run_app by (by destruct Hext as [-> | ->]).
    by destruct Hext as [-> | ->].
Qed.

Lemma directive_round_trip_witness :
  includes_of (include_line "my_file.hpp") = ["#include " +:+ quoted "my_file.hpp"] ∧
  Re.filenameRE_search ("#include " +:+ quoted "my_file.hpp") = Some "my_file.hpp".
Proof.
  apply (directive_round_trip "my_file" ".hpp").
  - by apply (bool_decide_unpack _).
  - by right.
Defined.

(** ** The registry, once more *)

(** X9.  [Node.inNodes] finds the first node of the registry that has the
    name asked for, and answers [False] exactly when no node has it. *)
Theorem inNodes_first (nodes : list Node) (n : string) :
  (∀ i, inNodes nodes n = Some i ↔
        named nodes i n ∧ ∀ j, (j < i)%nat → ¬ named nodes j n) ∧
  (inNodes nodes n = None ↔ n ∉ name <$> nodes).
Proof.
  split.
  - induction nodes as [|node rest IH]; intros i.
    + simpl. split; [done|]. by intros [H _].
    + simpl. destruct (String.eqb_spec n (name node)) as [->|Hne].
      * split.
        -- intros [= <-]. split; [done|]. intros j Hj. lia.
        -- intros [_ Hfirst]. destruct i as [|i]; [done|].
           exfalso. apply (Hfirst 0%nat); [lia|done].
      * destruct i as [|i].
        -- split; [by destruct (inNodes rest n)|].
           intros [H _]. unfold named in H. simpl in H. congruence.
        -- split.
           ++ destruct (inNodes rest n) as [k|] eqn:E; simpl; [|done].
              intros [= <-]. destruct (proj1 (IH k) eq_refl) as [H1 H2].
              split; [done|]. intros [|j] Hj.
              ** unfold named. simpl. congruence.
              ** apply (H2 j). lia.
           ++ intros [H1 H2].
              assert (E : inNodes rest n = Some i); [|by rewrite E].
              apply IH. split; [done|]. intros j Hj. apply (H2 (S j)). lia.
  - split; [apply inNodes_None|].
    intros Hn. destruct (inNodes nodes n) as [i|] eqn:E; [|done].
    exfalso. apply Hn. apply inNodes_Some in E as (node & Hnode & <-).
    apply list_elem_of_fmap. exists node. split; [done|].
    by eapply list_elem_of_lookup_2.
Qed.

Lemma inNodes_names (a b : list Node) (n : string) :
  name <$> a = name <$> b → inNodes a n = inNodes b n.
Proof.
  revert b. induction a as [|x a IH]; intros [|y b]; simpl; try done.
  intros [= -> H]. by rewrite (IH b H).
Qed.

Lemma inNodes_snoc (nodes : list Node) (n : string) :
  inNodes nodes n = None → inNodes (nodes ++ [new_node n]) n = Some (length nodes).
Proof.
  induction nodes as [|node rest IH]; simpl.
  - by rewrite String.eqb_refl.
  - destruct (String.eqb n (name node)); [done|].
    destruct (inNodes rest n); [done|]. intros _. by rewrite IH.
Qed.

(** After [addLink], the name that was linked is in the registry, at the
    position that [inNodes] gives. *)
Lemma inNodes_addLink (self : nat) (n : string) (nodes : list Node) :
  inNodes (addLink self n nodes) n
  = Some (default (length nodes) (inNodes nodes n)).
Proof.
  unfold addLink. destruct (inNodes nodes n) as [t|] eqn:E; simpl.
  - by rewrite (inNodes_names _ nodes n (names_alter_link _ _ _)).
  - rewrite (inNodes_names _ (nodes ++ [new_node n]) n (names_alter_link _ _ _)).
    by apply inNodes_snoc.
Qed.

(** X10.  [addLink] does not look for a link that is already there: a
    second call with the same name appends the same target to the links
    once more, and adds no node to the registry. *)
Theorem addLink_twice (self : nat) (n : string) (nodes : list Node) (node : Node) :
  nodes !! self = Some node →
  ∃ t node',
    addLink self n (addLink self n nodes) !! self = Some node' ∧
    links node' = links node ++ [t; t] ∧
    name node' = name node ∧
    named (addLink self n (addLink self n nodes)) t n ∧
    length (addLink self n (addLink self n nodes)) = length (addLink self n nodes).
Proof.
  intros Hself.
  destruct (addLink_target self n nodes node Hself) as (t & node1 & H1 & Hl1 & Hn1).
  pose proof (inNodes_addLink self n nodes) as Hin.
  assert (Ht : t = default (length nodes) (inNodes nodes n)).
  { unfold addLink in H1. destruct (inNodes nodes n) as [t'|] eqn:E; simpl.
    - rewrite list_lookup_alter_eq, Hself in H1. injection H1 as <-.
      simpl in Hl1. by apply app_inj_tail in Hl1 as [_ ->].
    - rewrite list_lookup_alter_eq, lookup_app_l_Some with (x := node) in H1 by done.
      injection H1 as <-. simpl in Hl1. by apply app_inj_tail in Hl1 as [_ ->]. }
  rewrite <- Ht in Hin.
  exists t, (append_link t node1).
  assert (E : addLink self n (addLink self n nodes)
              = alter (append_link t) self (addLink self n nodes)).
  { unfold addLink at 1. by rewrite Hin. }
  rewrite E, length_alter.
  split; [by rewrite list_lookup_alter_eq, H1|]. split.
  { simpl. rewrite Hl1, <- app_assoc. done. } split.
  { simpl. unfold addLink in H1.
    destruct (inNodes nodes n).
    - rewrite list_lookup_alter_eq, Hself in H1. by injection H1 as <-.
    - rewrite list_lookup_alter_eq, lookup_app_l_Some with (x := node) in H1 by done.
      by injection H1 as <-. }
  split; [|done].
  unfold named in *.
  by rewrite <- list_lookup_fmap, names_alter_link, list_lookup_fmap.
Qed.

Lemma addLink_twice_witness :
  ∃ t node',
    addLink 0 "b.h" (addLink 0 "b.h" [new_node "a.h"]) !! 0%nat = Some node' ∧
    links node' = [] ++ [t; t] ∧
    name node' = "a.h" ∧
    named (addLink 0 "b.h" (addLink 0 "b.h" [new_node "a.h"])) t "b.h" ∧
    length (addLink 0 "b.h" (addLink 0 "b.h" [new_node "a.h"]))
    = length (addLink 0 "b.h" [new_node "a.h"]).
Proof.
  apply (addLink_twice 0 "b.h" [new_node "a.h"] (new_node "a.h")). reflexivity.
Defined.

(** ** [Node.__str__] *)

Lemma fold_left_ext_in {A B : Type} (f g : A → B → A) (l : list B) (a : A) :
  (∀ x b, b ∈ l → f x b = g x b) → fold_left f l a = fold_left g l a.
Proof.
  revert a. induction l as [|b l IH]; intros a H; simpl; [done|].
  rewrite H by apply list_elem_of_here. apply IH.
  intros x b' Hb'. apply H. by apply elem_of_cons; right.
Qed.

Lemma link_name_prefix (nodes nodes' : list Node) (t : nat) :
  (name <$> nodes) `prefix_of` (name <$> nodes') → (t < length nodes)%nat →
  link_name nodes' t = link_name nodes t.
Proof.
  intros Hp Ht. destruct (lookup_lt_is_Some_2 nodes t Ht) as [node Hnode].
  assert (Hn : named nodes t (name node)) by (unfold named; by rewrite Hnode).
  pose proof (named_prefix _ _ _ _ Hp Hn) as Hn'. unfold named in Hn'.
  unfold link_name. rewrite Hnode. destruct (nodes' !! t); [|done].
  simpl in Hn'. by injection Hn'.
Qed.

(** X11.  What [str] gives for a node grows with its links: after
    [addLink] with a name, the text of the node is its text before the
    call followed by one more line, a tab and the name linked.  The node is
    one whose links point into the registry. *)
Theorem str_after_addLink (self : nat) (n : string) (nodes : list Node) (node : Node) :
  nodes !! self = Some node →
  Forall (fun t => (t < length nodes)%nat) (links node) →
  ∃ node', addLink self n nodes !! self = Some node' ∧
    __str__ (addLink self n nodes) node'
    = __str__ nodes node +:+ (String TAB EmptyString +:+ n) +:+ String LF EmptyString.
Proof.
  intros Hself Hl.
  destruct (addLink_target self n nodes node Hself) as (t & node' & H1 & Hl1 & Hn1).
  exists node'. split; [done|].
  assert (Hname : name node' = name node).
  { unfold addLink in H1. destruct (inNodes nodes n).
    - rewrite list_lookup_alter_eq, Hself in H1. by injection H1 as <-.
    - rewrite list_lookup_alter_eq, lookup_app_l_Some with (x := node) in H1 by done.
      by injection H1 as <-. }
  unfold __str__. rewrite Hl1, Hname, fold_left_app. simpl.
  assert (Ht : link_name (addLink self n nodes) t = n).
  { unfold link_name. unfold named in Hn1.
    destruct (addLink self n nodes !! t); simpl in Hn1; [by injection Hn1|done]. }
  rewrite Ht. f_equal. apply fold_left_ext_in.
  intros x b Hb. rewrite Forall_forall in Hl.
  by rewrite (link_name_prefix nodes _ b (names_addLink_prefix self n nodes) (Hl b Hb)).
Qed.

Lemma str_after_addLink_witness :
  ∃ node', addLink 0 "c.h" [mkNode "a.h" [1%nat] (-1) 0; new_node "b.h"] !! 0%nat
           = Some node' ∧
    __str__ (addLink 0 "c.h" [mkNode "a.h" [1%nat] (-1) 0; new_node "b.h"]) node'
    = __str__ [mkNode "a.h" [1%nat] (-1) 0; new_node "b.h"] (mkNode "a.h" [1%nat] (-1) 0)
      +:+ (String TAB EmptyString +:+ "c.h") +:+ String LF EmptyString.
Proof.
  apply (str_after_addLink 0 "c.h" [mkNode "a.h" [1%nat] (-1) 0; new_node "b.h"]
           (mkNode "a.h" [1%nat] (-1) 0)).
  - reflexivity.
  - by apply (bool_decide_unpack _).
Defined.

(** ** [constructGraph]: when it fails *)

Lemma add_includes_result (node : nat) (incs : list string) (nodes : list Node) :
  (∃ nodes', add_includes node incs nodes = Ok nodes') ∨
  add_includes node incs nodes = Raise AttributeError.
Proof.
  revert nodes. induction incs as [|inc rest IH]; intros nodes; simpl.
  - left. by eexists.
  - destruct (Re.filenameRE_search inc); [apply IH|by right].
Qed.

Lemma scan_file_raises (filename text : string) (nodes : list Node) :
  (scan_file filename text nodes = Raise AttributeError ↔
   ∃ inc, inc ∈ includes_of text ∧ Re.filenameRE_search inc = None) ∧
  (∀ e, scan_file filename text nodes = Raise e → e = AttributeError).
Proof.
  unfold scan_file. destruct (inNodes nodes filename) as [self|].
  - split; [symmetry; apply add_includes_raises|]. intros e He.
    destruct (add_includes_result self (includes_of text) nodes) as [[? H]|H];
      congruence.
  - split; [symmetry; apply add_includes_raises|]. intros e He.
    destruct (add_includes_result (length nodes) (includes_of text)
                (nodes ++ [new_node filename])) as [[? H]|H]; congruence.
Qed.

Lemma scan_files_raises (files : list (string * string)) (nodes : list Node) :
  (scan_files files nodes = Raise AttributeError ↔
   ∃ file text inc, (file, text) ∈ files ∧ inc ∈ includes_of text ∧
                    Re.filenameRE_search inc = None) ∧
  (∀ e, scan_files files nodes = Raise e → e = AttributeError).
Proof.
  revert nodes. induction files as [|[filename text] rest IH]; intros nodes; simpl.
  - split; [|done]. split; [done|]. intros (? & ? & ? & H & _). by apply elem_of_nil in H.
  - destruct (scan_file_raises filename text nodes) as [Hiff Hexn].
    destruct (scan_file filename text nodes) as [nodes1|e] eqn:E; simpl.
    + destruct (IH nodes1) as [IH1 IH2]. split; [|done]. rewrite IH1. split.
      * intros (file & text' & inc & Hin & Hinc & Hnone).
        exists file, text', inc. split; [by apply elem_of_cons; right|done].
      * intros (file & text' & inc & [Heq|Hin]%elem_of_cons & Hinc & Hnone).
        -- injection Heq as -> ->.
           assert (H : @Ok (list Node) nodes1 = Raise AttributeError); [|done].
           apply Hiff. by exists inc.
        -- by exists file, text', inc.
    + pose proof (Hexn e eq_refl) as ->. split; [|by intros e [= <-]].
      split; [|done]. intros _. destruct (proj1 Hiff eq_refl) as (inc & Hinc & Hnone).
      exists filename, text, inc. split; [apply list_elem_of_here|done].
Qed.

Lemma elem_of_valid_files (target : list (string * string)) (file text : string) :
  (file, text) ∈ List.filter (fun entry => isValidFile (fst entry)) target ↔
  (file, text) ∈ target ∧ isValidFile file = true.
Proof. by rewrite !list_elem_of_In, filter_In. Qed.

(** ** [constructGraph]: the nodes it creates *)

Lemma filenameRE_search_valid (s m : string) :
  Re.filenameRE_search s = Some m → isValidFile m = true.
Proof.
  intros (run & ext & -> & Hext & _)%filenameRE_search_spec.
  unfold isValidFile. apply orb_true_iff. rewrite !endswith_spec.
  destruct Hext as [-> | ->]; [right|left]; by exists run.
Qed.

Lemma created_addLink (self : nat) (n : string) (nodes : list Node) :
  isValidFile n = true →
  Forall node_as_created nodes → Forall node_as_created (addLink self n nodes).
Proof.
  intros Hn H. unfold addLink. destruct (inNodes nodes n).
  - by apply Forall_alter.
  - apply Forall_alter; [|done]. apply Forall_app. split; [done|].
    by apply Forall_singleton.
Qed.

Lemma created_add_includes (self : nat) (incs : list string) (nodes nodes' : list Node) :
  add_includes self incs nodes = Ok nodes' →
  Forall node_as_created nodes → Forall node_as_created nodes'.
Proof.
  revert nodes. induction incs as [|inc rest IH]; intros nodes; simpl.
  - by intros [= <-].
  - destruct (Re.filenameRE_search inc) as [f|] eqn:E; [|done].
    intros H Hn. eapply IH; [done|]. apply created_addLink; [|done].
    by eapply filenameRE_search_valid.
Qed.

Lemma created_scan_files (files : list (string * string)) (nodes nodes' : list Node) :
  scan_files files nodes = Ok nodes' →
  Forall (fun entry => isValidFile (fst entry) = true) files →
  Forall node_as_created nodes → Forall node_as_created nodes'.
Proof.
  revert nodes. induction files as [|[filename text] rest IH]; intros nodes; simpl.
  - by intros [= <-].
  - destruct (scan_file filename text nodes) as [nodes1|] eqn:E; simpl; [|done].
    intros H [Hv Hrest]%Forall_cons Hn. eapply IH; [done..|].
    unfold scan_file in E. destruct (inNodes nodes filename).
    + by eapply created_add_includes.
    + eapply created_add_includes; [done|]. apply Forall_app. split; [done|].
      by apply Forall_singleton.
Qed.

(** X13.  Every node of the graph that [constructGraph] returns is as
    [Node.__init__] made it, but for its links: its index is the sentinel,
    its lowlink is zero, and its name ends in one of the two extensions,
    whether the node stands for a listed file or for a name found in a
    directive. *)
Theorem constructGraph_nodes (target : list (string * string)) (g : list Node) :
  constructGraph target = Ok g →
  Forall (fun node => isValidFile (name node) = true ∧
                      index node = -1 ∧ lowlink node = 0) g.
Proof.
  intros H. eapply (created_scan_files _ [] g H); [|apply Forall_nil_2].
  apply Forall_forall. intros [file text] Hin.
  by apply elem_of_valid_files in Hin as [_ Hv].
Qed.

Lemma constructGraph_nodes_witness :
  Forall (fun node => isValidFile (name node) = true ∧
                      index node = -1 ∧ lowlink node = 0)
    [mkNode "a.hpp" [1%nat] (-1) 0; mkNode ".h" [] (-1) 0].
Proof.
  apply (constructGraph_nodes [("a.hpp", include_line "file2.h"); ("notes.txt", "x")]).
  reflexivity.
Defined.

(** ** [constructGraph]: the links it creates *)

Lemma succ_snoc (nodes : list Node) (n : string) (i : nat) :
  succ (nodes ++ [new_node n]) i = succ nodes i.
Proof.
  unfold succ. destruct (decide (i < length nodes)%nat) as [Hlt|Hge].
  - by rewrite lookup_app_l.
  - rewrite lookup_app_r, (lookup_ge_None_2 nodes i) by lia.
    by destruct (i - length nodes)%nat as [|[|k]].
Qed.

Lemma succ_alter_link (t self : nat) (nodes : list Node) (i : nat) :
  (self < length nodes)%nat →
  succ (alter (append_link t) self nodes) i
  = if decide (i = self) then succ nodes self ++ [t] else succ nodes i.
Proof.
  intros Hself. unfold succ. case_decide as Hi.
  - subst i. rewrite list_lookup_alter_eq.
    destruct (lookup_lt_is_Some_2 nodes self Hself) as [node ->]. done.
  - by rewrite list_lookup_alter_ne.
Qed.

(** The links after [addLink]: those of [self] have one more, the position
    of the node of the name linked. *)
Lemma succ_addLink (self : nat) (n : string) (nodes : list Node) :
  (self < length nodes)%nat →
  ∃ t, named (addLink self n nodes) t n ∧
    ∀ i, succ (addLink self n nodes) i
         = if decide (i = self) then succ nodes self ++ [t] else succ nodes i.
Proof.
  intros Hself. exists (default (length nodes) (inNodes nodes n)). split.
  - pose proof (inNodes_addLink self n nodes) as H.
    apply inNodes_Some in H as (node & Hnode & Hname).
    unfold named. by rewrite Hnode, <- Hname.
  - intros i. unfold addLink. destruct (inNodes nodes n) as [t|]; simpl.
    + by apply succ_alter_link.
    + rewrite succ_alter_link by (rewrite length_app; lia).
      by rewrite !succ_snoc.
Qed.

Lemma addLink_length (self : nat) (n : string) (nodes : list Node) :
  (length nodes ≤ length (addLink self n nodes))%nat.
Proof.
  unfold addLink. destruct (inNodes nodes n); rewrite length_alter; [done|].
  rewrite length_app. lia.
Qed.

(** The links after the directives of one file: those of the node of the
    file have grown by one target per directive, in the order of the
    directives. *)
Lemma add_includes_links (self : nat) (incs : list string) (nodes nodes' : list Node) :
  add_includes self incs nodes = Ok nodes' → (self < length nodes)%nat →
  ∃ targets,
    Forall2 (fun inc t => ∃ f, Re.filenameRE_search inc = Some f ∧ named nodes' t f)
            incs targets ∧
    ∀ i, succ nodes' i
         = if decide (i = self) then succ nodes self ++ targets else succ nodes i.
Proof.
  revert nodes. induction incs as [|inc rest IH]; intros nodes; simpl.
  - intros [= <-] _. exists []. split; [constructor|].
    intros i. case_decide; [subst; by rewrite app_nil_r|done].
  - destruct (Re.filenameRE_search inc) as [f|] eqn:E; [|done]. intros H Hself.
    destruct (succ_addLink self f nodes Hself) as (t & Ht & Hsucc).
    destruct (IH _ H) as (targets & Hall & Hsucc').
    { pose proof (addLink_length self f nodes). lia. }
    exists (t :: targets). split.
    + constructor; [|done]. exists f. split; [done|].
      eapply named_prefix; [|done]. by eapply add_includes_names.
    + intros i. rewrite Hsucc', !Hsucc. case_decide; [|done].
      rewrite decide_True by done. by rewrite <- app_assoc.
Qed.

Lemma scan_file_links (filename text : string) (nodes nodes' : list Node) :
  scan_file filename text nodes = Ok nodes' →
  ∃ self targets,
    named nodes' self filename ∧
    Forall2 (fun inc t => ∃ f, Re.filenameRE_search inc = Some f ∧ named nodes' t f)
            (includes_of text) targets ∧
    ∀ i, succ nodes' i
         = if decide (i = self) then succ nodes self ++ targets else succ nodes i.
Proof.
  unfold scan_file. destruct (inNodes nodes filename) as [self|] eqn:E; intros H.
  - destruct (add_includes_links _ _ _ _ H) as (targets & Hall & Hsucc).
    { by eapply inNodes_lt. }
    exists self, targets. split; [|done].
    eapply named_prefix; [by eapply add_includes_names|].
    apply inNodes_Some in E as (node & Hnode & <-). unfold named. by rewrite Hnode.
  - destruct (add_includes_links _ _ _ _ H) as (targets & Hall & Hsucc).
    { rewrite length_app. simpl. lia. }
    exists (length nodes), targets. split; [|split; [done|]].
    + eapply named_prefix; [by eapply add_includes_names|].
      unfold named. by rewrite list_lookup_middle.
    + intros i. rewrite Hsucc, !succ_snoc. done.
Qed.

Lemma names_add_includes (self : nat) (incs : list string) (nodes nodes' : list Node) n :
  add_includes self incs nodes = Ok nodes' → n ∈ name <$> nodes' →
  n ∈ name <$> nodes ∨ ∃ inc, inc ∈ incs ∧ Re.filenameRE_search inc = Some n.
Proof.
  revert nodes. induction incs as [|inc rest IH]; intros nodes; simpl.
  - intros [= <-] Hn. by left.
  - destruct (Re.filenameRE_search inc) as [f|] eqn:E; [|done]. intros H Hn.
    destruct (IH _ H Hn) as [Hn'|(inc' & Hin & Hs)].
    + rewrite names_addLink in Hn'. destruct (inNodes nodes f); [by left|].
      apply elem_of_app in Hn' as [?| ->%list_elem_of_singleton]; [by left|].
      right. exists inc. split; [apply list_elem_of_here|done].
    + right. exists inc'. split; [by apply elem_of_cons; right|done].
Qed.

Lemma names_scan_file (filename text : string) (nodes nodes' : list Node) n :
  scan_file filename text nodes = Ok nodes' → n ∈ name <$> nodes' →
  n ∈ name <$> nodes ∨ n = filename ∨ extracted text n.
Proof.
  unfold scan_file. destruct (inNodes nodes filename) as [self|]; intros H Hn.
  - destruct (names_add_includes _ _ _ _ _ H Hn) as [?|?]; auto.
  - destruct (names_add_includes _ _ _ _ _ H Hn) as [Hn'|?]; auto.
    rewrite fmap_app in Hn'.
    apply elem_of_app in Hn' as [?| ->%list_elem_of_singleton]; auto.
Qed.

Lemma named_elem_of (nodes : list Node) (i : nat) (n : string) :
  named nodes i n → n ∈ name <$> nodes.
Proof.
  unfold named. rewrite <- list_lookup_fmap. apply list_elem_of_lookup_2.
Qed.

Lemma edge_named (nodes : list Node) (i j : nat) :
  registry_ok nodes → edge nodes i j →
  ∃ a b, named nodes i a ∧ named nodes j b.
Proof.
  intros [_ Hl] He. unfold edge, succ in He.
  destruct (nodes !! i) as [node|] eqn:Ei; [|by apply elem_of_nil in He].
  rewrite Forall_forall in Hl. pose proof (Hl node (list_elem_of_lookup_2 _ _ _ Ei)) as Hn.
  rewrite Forall_forall in Hn. apply Hn in He.
  destruct (lookup_lt_is_Some_2 nodes j He) as [node' Ej].
  exists (name node), (name node'). unfold named. by rewrite Ei, Ej.
Qed.

Lemma graph_of_scan_file done filename text nodes nodes' :
  scan_file filename text nodes = Ok nodes' →
  graph_of done nodes → graph_of (done ++ [(filename, text)]) nodes'.
Proof.
  intros H [Hok Hfiles Htargets Hnodes Hedges].
  assert (Hok' : registry_ok nodes') by by eapply scan_file_ok.
  destruct (scan_file_names _ _ _ _ H) as [Hprefix Hfile].
  destruct (scan_file_links _ _ _ _ H) as (self & targets & Hself & Hall & Hsucc).
  assert (Hmono : ∀ n, n ∈ name <$> nodes → n ∈ name <$> nodes').
  { intros n Hn. destruct Hprefix as [k ->]. apply elem_of_app. by left. }
  assert (Hnew : ∀ b, extracted text b → ∃ t, t ∈ targets ∧ named nodes' t b).
  { intros b (inc & Hinc & Hs).
    apply list_elem_of_lookup_1 in Hinc as [k Hk].
    destruct (Forall2_lookup_l _ _ _ _ _ Hall Hk) as (t & Ht & f & Hf & Hnamed).
    exists t. split; [by eapply list_elem_of_lookup_2|]. congruence. }
  split.
  - done.
  - intros a text' [Hin|Hin]%elem_of_app.
    + apply Hmono. by eapply Hfiles.
    + apply list_elem_of_singleton in Hin. by injection Hin as -> ->.
  - intros a text' b [Hin|Hin]%elem_of_app Hb.
    + apply Hmono. by eapply Htargets.
    + apply list_elem_of_singleton in Hin. injection Hin as -> ->.
      destruct (Hnew b Hb) as (t & _ & Ht). by eapply named_elem_of.
  - intros n Hn. rewrite fmap_app. simpl.
    destruct (names_scan_file _ _ _ _ _ H Hn) as [Hn'|[->|Hn']].
    + destruct (Hnodes n Hn') as [?|(a & text' & Hin & Hb)].
      * left. apply elem_of_app. by left.
      * right. exists a, text'. split; [|done]. apply elem_of_app. by left.
    + left. apply elem_of_app. right. apply list_elem_of_here.
    + right. exists filename, text. split; [|done].
      apply elem_of_app. right. apply list_elem_of_here.
  - intros i j a b Hi Hj. unfold edge. rewrite Hsucc. split.
    + intros He.
      assert (Hold : edge nodes i j → ∃ text', (a, text') ∈ done ++ [(filename, text)]
                                              ∧ extracted text' b).
      { intros Hold. destruct (edge_named nodes i j Hok Hold) as (a' & b' & Hi' & Hj').
        destruct (proj1 (Hedges i j a' b' Hi' Hj') Hold) as (text' & Hin & Hb).
        pose proof (named_prefix _ _ _ _ Hprefix Hi') as Hi''.
        pose proof (named_prefix _ _ _ _ Hprefix Hj') as Hj''.
        unfold named in *. rewrite Hi in Hi''. rewrite Hj in Hj''.
        injection Hi'' as ->. injection Hj'' as ->.
        exists text'. split; [|done]. apply elem_of_app. by left. }
      case_decide as Hd; [|by apply Hold]. subst i.
      apply elem_of_app in He as [He|He]; [by apply Hold|].
      unfold named in Hi, Hself. rewrite Hi in Hself. injection Hself as ->.
      exists text. split; [apply elem_of_app; right; apply list_elem_of_here|].
      apply list_elem_of_lookup_1 in He as [k Hk].
      destruct (Forall2_lookup_r _ _ _ _ _ Hall Hk) as (inc & Hinc & f & Hf & Hnamed).
      unfold named in Hnamed. rewrite Hj in Hnamed. injection Hnamed as ->.
      exists inc. split; [by eapply list_elem_of_lookup_2|done].
    + intros (text' & [Hin|Hin]%elem_of_app & Hb).
      * assert (He : edge nodes i j).
        { destruct (elem_of_named nodes a (Hfiles _ _ Hin)) as [i0 Hi0].
          destruct (elem_of_named nodes b (Htargets _ _ _ Hin Hb)) as [j0 Hj0].
          destruct Hok' as [Hnd _].
          pose proof (named_unique _ _ _ _ Hnd Hi (named_prefix _ _ _ _ Hprefix Hi0)) as ->.
          pose proof (named_unique _ _ _ _ Hnd Hj (named_prefix _ _ _ _ Hprefix Hj0)) as ->.
          apply (Hedges i0 j0 a b Hi0 Hj0). by exists text'. }
        case_decide; [subst; apply elem_of_app; by left|done].
      * apply list_elem_of_singleton in Hin. injection Hin as -> ->.
        destruct Hok' as [Hnd _].
        pose proof (named_unique _ _ _ _ Hnd Hi Hself) as ->.
        rewrite decide_True by done. apply elem_of_app. right.
        destruct (Hnew b Hb) as (t & Ht & Hnamed).
        by rewrite (named_unique _ _ _ _ Hnd Hj Hnamed).
Qed.

Lemma graph_of_scan_files files : ∀ done nodes nodes',
  scan_files files nodes = Ok nodes' →
  graph_of done nodes → graph_of (done ++ files) nodes'.
Proof.
  induction files as [|[filename text] rest IH]; intros done nodes nodes'; simpl.
  - intros [= <-]. by rewrite app_nil_r.
  - destruct (scan_file filename text nodes) as [nodes1|] eqn:E; simpl; [|done].
    intros H G. rewrite cons_middle, app_assoc. eapply IH; [done|].
    by eapply graph_of_scan_file.
Qed.

Lemma graph_of_nil : graph_of [] [].
Proof.
  split.
  - apply registry_ok_nil.
  - intros a text H. by apply elem_of_nil in H.
  - intros a text b H. by apply elem_of_nil in H.
  - intros n H. by apply elem_of_nil in H.
  - intros i j a b H. done.
Qed.

Lemma constructGraph_graph_of (target : list (string * string)) (g : list Node) :
  constructGraph target = Ok g →
  graph_of (List.filter (fun entry => isValidFile (fst entry)) target) g.
Proof.
  intros H. apply (graph_of_scan_files _ [] [] g H graph_of_nil).
Qed.

(** X14.  The graph that [constructGraph] returns is the graph of the
    directives: its nodes are named by the headers of the directory and
    by the names extracted from their directives, and by nothing else;
    and there is a link from the node of one name to the node of another
    exactly when a header of the first name holds a directive from which
    the second name is extracted. *)
Theorem constructGraph_graph (target : list (string * string)) (g : list Node) :
  constructGraph target = Ok g →
  (∀ n, n ∈ name <$> g ↔
        (n ∈ fst <$> target ∧ isValidFile n = true) ∨ ∃ a, includes target a n) ∧
  (∀ i j a b, named g i a → named g j b → (edge g i j ↔ includes target a b)).
Proof.
  intros H. destruct (constructGraph_graph_of target g H)
    as [Hok Hfiles Htargets Hnodes Hedges].
  split.
  - intros n. split.
    + intros Hn. destruct (Hnodes n Hn) as [Hf|(a & text & Hin & Hb)].
      * left. apply list_elem_of_fmap in Hf as ([file text] & -> & Hin).
        apply elem_of_valid_files in Hin as [Hin Hv]. split; [|done].
        apply list_elem_of_fmap. by exists (file, text).
      * right. apply elem_of_valid_files in Hin as [Hin Hv]. by exists a, text.
    + intros [[Hf Hv]|(a & text & Hin & Hv & Hb)].
      * apply list_elem_of_fmap in Hf as ([file text] & -> & Hin).
        apply (Hfiles file text). by apply elem_of_valid_files.
      * apply (Htargets a text); [|done]. by apply elem_of_valid_files.
  - intros i j a b Hi Hj. rewrite (Hedges i j a b Hi Hj). unfold includes. split.
    + intros (text & [Hin Hv]%elem_of_valid_files & Hb). by exists text.
    + intros (text & Hin & Hv & Hb). exists text. by rewrite elem_of_valid_files.
Qed.

Lemma constructGraph_graph_witness :
  let target := [("a.hpp", include_line "b.hpp"); ("b.hpp", include_line "a.hpp")] in
  let g := [mkNode "a.hpp" [1%nat] (-1) 0; mkNode "b.hpp" [0%nat] (-1) 0] in
  (∀ n, n ∈ name <$> g ↔
        (n ∈ fst <$> target ∧ isValidFile n = true) ∨ ∃ a, includes target a n) ∧
  (∀ i j a b, named g i a → named g j b → (edge g i j ↔ includes target a b)).
Proof.
  intros target g. apply (constructGraph_graph target g). reflexivity.
Defined.

(** ** [main], from the directory to the report *)

Lemma main_detect (target : list (string * string)) (g : list Node) :
  constructGraph target = Ok g → main target = detect g.
Proof. intros H. unfold main. by rewrite H. Qed.

Lemma includes_scanned (target : list (string * string)) (a b : string) :
  includes target a b ↔
  ∃ text, (a, text) ∈ List.filter (fun entry => isValidFile (fst entry)) target
          ∧ extracted text b.
Proof.
  unfold includes. split.
  - intros (text & Hin & Hv & Hb). exists text. by rewrite elem_of_valid_files.
  - intros (text & [Hin Hv]%elem_of_valid_files & Hb). by exists text.
Qed.

Section Directory.
Variable target : list (string * string).
Variable g : list Node.
Hypothesis built : constructGraph target = Ok g.

Lemma built_graph_of :
  graph_of (List.filter (fun entry => isValidFile (fst entry)) target) g.
Proof. by apply constructGraph_graph_of. Qed.

Lemma built_names_unique i j n : named g i n → named g j n → i = j.
Proof. apply named_unique. by destruct (go_ok _ _ built_graph_of). Qed.

Lemma includes_nodes a b :
  includes target a b → ∃ i j, named g i a ∧ named g j b ∧ edge g i j.
Proof.
  intros H. pose proof H as (text & Hin & Hb)%includes_scanned.
  destruct (elem_of_named g a (go_files _ _ built_graph_of _ _ Hin)) as [i Hi].
  destruct (elem_of_named g b (go_targets _ _ built_graph_of _ _ _ Hin Hb)) as [j Hj].
  exists i, j. split; [done|]. split; [done|].
  apply (go_edges _ _ built_graph_of i j a b Hi Hj). by exists text.
Qed.

Lemma edge_includes i j :
  edge g i j → ∃ a b, named g i a ∧ named g j b ∧ includes target a b.
Proof.
  intros H.
  destruct (edge_named g i j (go_ok _ _ built_graph_of) H) as (a & b & Hi & Hj).
  exists a, b. split; [done|]. split; [done|].
  apply includes_scanned. by apply (go_edges _ _ built_graph_of i j a b Hi Hj).
Qed.

Lemma tc_includes_edges a b :
  tc (includes target) a b → ∃ i j, named g i a ∧ named g j b ∧ tc (edge g) i j.
Proof.
  induction 1 as [a b H|a x b H _ (k & j & Hk & Hj & IH)].
  - destruct (includes_nodes a b H) as (i & j & Hi & Hj & He).
    exists i, j. split; [done|]. split; [done|]. by apply tc_once.
  - destruct (includes_nodes a x H) as (i & k' & Hi & Hk' & He).
    rewrite (built_names_unique _ _ _ Hk' Hk) in He.
    exists i, j. split; [done|]. split; [done|]. by eapply tc_l.
Qed.

Lemma tc_edges_includes i j :
  tc (edge g) i j → ∃ a b, named g i a ∧ named g j b ∧ tc (includes target) a b.
Proof.
  induction 1 as [i j H|i k j H _ (x & b & Hk & Hj & IH)].
  - destruct (edge_includes i j H) as (a & b & Hi & Hj & Hab).
    exists a, b. split; [done|]. split; [done|]. by apply tc_once.
  - destruct (edge_includes i k H) as (a & x' & Hi & Hk' & Hax).
    assert (x' = x) as -> by (unfold named in *; congruence).
    exists a, b. split; [done|]. split; [done|]. by eapply tc_l.
Qed.

(** Two nodes that reach each other, in the words of the directory. *)
Lemma connected_includes u v :
  u ≠ v → connected g u v →
  ∃ a b, named g u a ∧ named g v b ∧ a ≠ b ∧
         tc (includes target) a b ∧ tc (includes target) b a.
Proof.
  intros Hne [[?|H1]%rtc_tc [?|H2]%rtc_tc]; try done.
  destruct (tc_edges_includes u v H1) as (a & b & Hu & Hv & Hab).
  destruct (tc_edges_includes v u H2) as (b' & a' & Hv' & Hu' & Hba).
  assert (a' = a) as -> by (unfold named in *; congruence).
  assert (b' = b) as -> by (unfold named in *; congruence).
  exists a, b. repeat split; try done.
  intros ->. apply Hne. by eapply built_names_unique.
Qed.

Lemma includes_connected a b :
  tc (includes target) a b → tc (includes target) b a →
  ∃ u v, named g u a ∧ named g v b ∧ connected g u v.
Proof.
  intros Hab Hba.
  destruct (tc_includes_edges a b Hab) as (u & v & Hu & Hv & H1).
  destruct (tc_includes_edges b a Hba) as (v' & u' & Hv' & Hu' & H2).
  rewrite (built_names_unique _ _ _ Hv' Hv) in H2.
  rewrite (built_names_unique _ _ _ Hu' Hu) in H2.
  exists u, v. split; [done|]. split; [done|]. split; by apply tc_rtc.
Qed.

Lemma named_lt i n : named g i n → (i < length g)%nat.
Proof.
  unfold named. intros H. apply lookup_lt_is_Some.
  destruct (g !! i); [by eexists|done].
Qed.

Lemma named_name_of i n : named g i n → name_of (initial g) i = n.
Proof.
  unfold named, name_of. simpl. destruct (g !! i); simpl; [by intros [= ->]|done].
Qed.

End Directory.

Lemma reported_lines (g : list Node) (reported : list (list nat)) :
  Forall (fun grp => (2 ≤ length grp)%nat) reported →
  flat_map (cycle_lines g) reported
  = flat_map (fun names => ["Cyclic dependency detected:"; chain names])
             ((fun grp : list nat => name_of (initial g) <$> grp) <$> reported).
Proof.
  induction 1 as [|grp rest Hlen _ IH]; [done|]. simpl. rewrite IH.
  unfold cycle_lines. destruct (Nat.ltb_spec 1 (length grp)); [done|lia].
Qed.

Lemma concat_names (g : list Node) (groups : list (list nat)) :
  concat ((fun grp : list nat => name_of (initial g) <$> grp) <$> groups)
  = name_of (initial g) <$> concat groups.
Proof.
  induction groups as [|grp rest IH]; [done|].
  by rewrite fmap_cons, !concat_cons, fmap_app, IH.
Qed.

(** X15.  What [main] prints, in the words of the directory.  When the
    graph can be built, [main] returns, and its report is made of groups
    of header names: two lines per group, the announcement and the chain
    of the names; every group has two names or more, and each name of a
    group leads to each other one through directives; no name is in two
    groups or twice in one; every header that leads through directives to
    another name and back is in a group; and the summary line is printed
    exactly when there is no group. *)
Theorem main_reports (target : list (string * string)) (g : list Node) :
  constructGraph target = Ok g →
  ∃ reported : list (list string),
    main target
    = Ok (match reported with
          | [] => ["No cyclic dependencies detected."]
          | _ => flat_map (fun names => ["Cyclic dependency detected:"; chain names])
                          reported
          end) ∧
    Forall (fun names => (2 ≤ length names)%nat ∧
              ∀ a b, a ∈ names → b ∈ names → a ≠ b → tc (includes target) a b)
           reported ∧
    NoDup (concat reported) ∧
    ∀ a b, a ≠ b → tc (includes target) a b → tc (includes target) b a →
           a ∈ concat reported.
Proof.
  intros H. destruct (constructGraph_fresh target g H) as [Hf Hnd].
  destruct (detect_reported g Hf) as (groups & Hrun & Hgroups & Hdisj & Hall).
  assert (Hrange : ∀ grp v, grp ∈ groups → v ∈ grp → (v < length g)%nat).
  { intros grp v Hgrp Hv. rewrite Forall_forall in Hgroups.
    destruct (Hgroups grp Hgrp) as ([r Hr] & Hndg & Hlen).
    destruct (two_of_long grp Hndg) as (x & y & Hx & Hy & Hxy); [lia|].
    assert (∃ w, w ∈ grp ∧ w ≠ v) as (w & Hw & Hwv).
    { destruct (decide (x = v)) as [->|?]; [exists y|exists x]; split; done. }
    assert (Hc : connected g v w).
    { apply (connected_trans g v r w); [|by apply Hr].
      destruct (proj1 (Hr v) Hv). by split. }
    destruct (connected_includes target g H v w (not_eq_sym Hwv) Hc) as (a & _ & Ha & _).
    by eapply named_lt. }
  exists ((fun grp : list nat => name_of (initial g) <$> grp) <$> groups).
  split; [|split; [|split]].
  - rewrite (main_detect target g H), Hrun.
    destruct groups as [|grp rest]; [done|].
    rewrite reported_lines; [done|].
    eapply Forall_impl; [done|]. by intros ? (_ & _ & ?).
  - apply Forall_fmap. apply Forall_forall. intros grp Hgrp.
    rewrite Forall_forall in Hgroups.
    destruct (Hgroups grp Hgrp) as ([r Hr] & Hndg & Hlen). simpl.
    split; [by rewrite length_fmap|].
    intros a b (u & -> & Hu)%list_elem_of_fmap (v & -> & Hv)%list_elem_of_fmap Hab.
    assert (Huv : u ≠ v) by (by intros ->).
    assert (Hc : connected g u v).
    { apply (connected_trans g u r v); [|by apply Hr].
      destruct (proj1 (Hr u) Hu). by split. }
    destruct (connected_includes target g H u v Huv Hc) as (a & b & Ha & Hb & _ & Htc & _).
    by rewrite (named_name_of g u a Ha), (named_name_of g v b Hb).
  - rewrite concat_names. apply names_NoDup; [done..|].
    intros v (grp & Hgrp & Hv)%elem_of_concat. by eapply Hrange.
  - intros a b Hab H1 H2.
    destruct (includes_connected target g H a b H1 H2) as (u & v & Hu & Hv & Hc).
    assert (Huv : v ≠ u).
    { intros ->. apply Hab. unfold named in *. congruence. }
    pose proof (Hall v u (named_lt g u a Hu) Hc Huv) as Hin.
    rewrite concat_names. apply list_elem_of_fmap. exists u. split; [|done].
    symmetry. by apply named_name_of.
Qed.

Lemma main_reports_witness :
  let target := [("a.hpp", include_line "b.hpp"); ("b.hpp", include_line "a.hpp");
                 ("c.hpp", include_line "a.hpp")] in
  ∃ reported : list (list string),
    main target
    = Ok (match reported with
          | [] => ["No cyclic dependencies detected."]
          | _ => flat_map (fun names => ["Cyclic dependency detected:"; chain names])
                          reported
          end) ∧
    Forall (fun names => (2 ≤ length names)%nat ∧
              ∀ a b, a ∈ names → b ∈ names → a ≠ b → tc (includes target) a b)
           reported ∧
    NoDup (concat reported) ∧
    ∀ a b, a ≠ b → tc (includes target) a b → tc (includes target) b a →
           a ∈ concat reported.
Proof.
  intros target.
  apply (main_reports target
           [mkNode "a.hpp" [1%nat] (-1) 0; mkNode "b.hpp" [0%nat] (-1) 0;
            mkNode "c.hpp" [0%nat] (-1) 0]).
  reflexivity.
Defined.

(** X16.  [main] prints the summary line, and nothing else, exactly when
    no two different names lead to each other through the directives of
    the headers: a header that includes itself, directly or through
    others, does not count unless the way passes through another name. *)
Theorem main_summary_iff (target : list (string * string)) (g : list Node) :
  constructGraph target = Ok g →
  (main target = Ok ["No cyclic dependencies detected."] ↔
   ∀ a b, tc (includes target) a b → tc (includes target) b a → a = b).
Proof.
  intros H. destruct (constructGraph_fresh target g H) as [Hf Hnd].
  rewrite (main_detect target g H). split.
  - intros Hrun a b H1 H2. destruct (decide (a = b)) as [|Hab]; [done|exfalso].
    destruct (includes_connected target g H a b H1 H2) as (u & v & Hu & Hv & Hc).
    assert (Huv : v ≠ u).
    { intros ->. apply Hab. unfold named in *. congruence. }
    destruct (detect_reported g Hf) as (groups & Hrun' & Hgroups & _ & Hall).
    pose proof (Hall v u (named_lt g u a Hu) Hc Huv) as Hin.
    destruct groups as [|grp rest]; [by apply elem_of_nil in Hin|].
    apply Forall_cons in Hgroups as [(_ & _ & Hlen) _].
    rewrite Hrun in Hrun'. simpl in Hrun'. unfold cycle_lines at 1 in Hrun'.
    destruct (Nat.ltb_spec 1 (length grp)); [|lia]. simpl in Hrun'. by injection Hrun'.
  - intros Hsingle. apply single_components_no_report; [done|].
    intros u v Hc. destruct (decide (u = v)) as [|Huv]; [done|exfalso].
    destruct (connected_includes target g H u v Huv Hc) as (a & b & _ & _ & Hab & H1 & H2).
    by apply Hab, Hsingle.
Qed.

Lemma main_summary_iff_witness :
  let target := [("a.hpp", include_line "a.hpp" +:+ include_line "b.hpp");
                 ("b.hpp", EmptyString)] in
  main target = Ok ["No cyclic dependencies detected."] ↔
  ∀ a b, tc (includes target) a b → tc (includes target) b a → a = b.
Proof.
  intros target.
  apply (main_summary_iff target
           [mkNode "a.hpp" [0%nat; 1%nat] (-1) 0; mkNode "b.hpp" [] (-1) 0]).
  reflexivity.
Defined.

(** ** Names with a path, and directives without quotes *)

Lemma filenameRE_match_None (s : string) :
  Re.filenameRE_match s = None ↔ Re.extension_match (snd (Re.class_run s)) = None.
Proof.
  unfold Re.filenameRE_match. destruct (Re.class_run s) as [run rest]. simpl.
  by destruct (Re.extension_match rest).
Qed.

Lemma extension_match_cons (c : ascii) (s : string) :
  c ≠ "."%char → Re.extension_match (String c s) = None.
Proof.
  intros Hc. unfold Re.extension_match. rewrite !prefix_rest_cons.
  by destruct (Ascii.eqb_spec "." c).
Qed.

(** No match of [filenameRE] starts in a text without a dot whose last
    character is outside the class, whatever follows the text. *)
Lemma filenameRE_match_in_prefix (pre rest : string) :
  "."%char ∉ chars pre → pre ≠ EmptyString →
  (∀ c, last (chars pre) = Some c → Re.filename_class c = false) →
  Re.filenameRE_match (pre +:+ rest) = None.
Proof.
  induction pre as [|c pre IH]; [done|]. intros Hdot _ Hlast.
  rewrite chars_cons, not_elem_of_cons in Hdot. destruct Hdot as [Hc Hdot].
  apply filenameRE_match_None. rewrite str_app_cons. simpl.
  destruct (Re.filename_class c) eqn:E.
  - destruct pre as [|d pre].
    + specialize (Hlast c eq_refl). congruence.
    + assert (H : Re.filenameRE_match (String d pre +:+ rest) = None).
      { apply IH; [done..|]. intros x Hx. apply Hlast. by rewrite chars_cons. }
      apply filenameRE_match_None in H.
      by destruct (Re.class_run (String d pre +:+ rest)).
  - simpl. by apply extension_match_cons.
Qed.

(** X17.  [filenameRE] is searched for, not matched against the whole
    directive, and a slash is not in its class: the name extracted is the
    first run of characters of the class that an extension follows.  So
    what stands before the name, up to a character outside the class, is
    dropped when it holds no dot, a directory of a path for one; and
    what follows the extension is dropped as well. *)
Theorem filenameRE_search_drops (pre stem ext rest : string) :
  "."%char ∉ chars pre →
  (∀ c, last (chars pre) = Some c → Re.filename_class c = false) →
  Forall (fun c => Re.filename_class c = true) (chars stem) →
  ext = ".hpp" ∨ (ext = ".h" ∧ prefix_rest "pp" rest = None) →
  Re.filenameRE_search (pre +:+ stem +:+ ext +:+ rest) = Some (stem +:+ ext).
Proof.
  intros Hdot Hlast Hstem Hext. induction pre as [|c pre IH].
  - rewrite str_app_nil_l. apply filenameRE_search_here. unfold Re.filenameRE_match.
    rewrite class_run_app; [|done|by destruct Hext as [-> | [-> _]]].
    destruct Hext as [-> | [-> Hpp]]; [done|].
    unfold Re.extension_match.
    change (prefix_rest ".hpp" (".h" +:+ rest)) with (prefix_rest "pp" rest).
    by rewrite Hpp.
  - rewrite str_app_cons, filenameRE_search_step, <- str_app_cons.
    rewrite filenameRE_match_in_prefix by done.
    rewrite chars_cons, not_elem_of_cons in Hdot. destruct Hdot as [_ Hdot].
    apply IH; [done|]. intros x Hx. apply Hlast. rewrite chars_cons.
    destruct pre; [done|]. by rewrite chars_cons in *.
Qed.

Lemma filenameRE_search_drops_witness :
  Re.filenameRE_search ("#include " +:+ quoted "sub/dir/a.h.in") = Some "a.h".
Proof.
  apply (filenameRE_search_drops ("#include " +:+ String dquote "sub/dir/") "a" ".h"
           (".in" +:+ String dquote EmptyString)).
  - by apply (bool_decide_unpack _).
  - intros c [= <-]. reflexivity.
  - by apply (bool_decide_unpack _).
  - right. split; reflexivity.
Defined.

Lemma findall_includes_no_quote (skip : nat) (s : string) :
  dquote ∉ chars s → Re.findall_includes skip s = [].
Proof.
  revert skip. induction s as [|c s IH]; intros skip Hq; [done|].
  rewrite chars_cons, not_elem_of_cons in Hq. destruct Hq as [Hc Hq].
  destruct skip as [|k]; [|by apply IH].
  rewrite findall_includes_step.
  destruct (Re.includeRE_match (String c s)) as [m|] eqn:E; [exfalso|by apply IH].
  apply includeRE_match_Some in E as (t & rest & -> & Hs & _).
  assert (Hin : dquote ∈ chars (String c s)).
  { rewrite Hs, !chars_app. apply elem_of_app. left. apply elem_of_app. left.
    by apply (bool_decide_unpack _). }
  rewrite chars_cons in Hin. apply elem_of_cons in Hin as [?|?]; [by apply Hc|by apply Hq].
Qed.

(** X18.  A directive counts only when its name stands in double quotes:
    a header whose text holds no double quote, one whose directives all
    name their files in angle brackets for one, yields no directive, so
    its node gets no link. *)
Theorem includes_need_quotes (text : string) :
  dquote ∉ chars text → includes_of text = [].
Proof.
  intros Hq. unfold includes_of. apply findall_includes_no_quote.
  intros Hin. apply Hq.
  eapply elem_of_sublist; [done|apply sub_comments_sublist].
Qed.

Lemma includes_need_quotes_witness :
  includes_of ("#include <vector>" +:+ String LF "#include <a.h>") = [].
Proof.
  apply (includes_need_quotes ("#include <vector>" +:+ String LF "#include <a.h>")).
  by apply (bool_decide_unpack _).
Defined.

(** ** The traversal on any state *)

(** X19.  The pops at the end of [tarjan]: the stack is popped down to
    its topmost occurrence of the node, that one included, and what was
    popped is the cycle, in the order of the pops; when the node is not on
    the stack, the pops empty the stack and the next one raises. *)
Theorem pop_cycle_spec (n : nat) (stack : list nat) :
  (n ∉ stack → pop_cycle n stack = Raise IndexError) ∧
  (∀ above below, stack = above ++ n :: below → n ∉ above →
     pop_cycle n stack = Ok (above ++ [n], below)).
Proof.
  split.
  - induction stack as [|top rest IH]; [done|].
    rewrite not_elem_of_cons. intros [Hne Hn]. simpl.
    destruct (Nat.eqb_spec top n); [congruence|]. by rewrite IH.
  - intros above below -> Hn. by apply pop_cycle_split.
Qed.

Lemma later_refl (st : state) : later st st.
Proof. split; done || lia. Qed.

Lemma later_trans (a b c : state) : later a b → later b c → later a c.
Proof.
  intros [A1 A2 A3 A4 A5 A6] [B1 B2 B3 B4 B5 B6]. split.
  - congruence.
  - intros v. by rewrite B2.
  - intros v. by rewrite B3.
  - lia.
  - by etrans.
  - auto.
Qed.

Lemma later_enter (n : nat) (st : state) : later st (enter n st).
Proof.
  split.
  - apply enter_length.
  - intros v. apply enter_names.
  - intros v. apply enter_links.
  - rewrite enter_count. lia.
  - by rewrite enter_output.
  - by rewrite enter_detected.
Qed.

Lemma later_set_lowlink (n : nat) (l : Z) (st : state) : later st (set_lowlink n l st).
Proof.
  split; [apply length_set_lowlink|intros v; apply name_of_set_lowlink|
          intros v; apply links_of_set_lowlink|simpl; lia|done|done].
Qed.

Lemma later_close (n : nat) (st st' : state) :
  close_component n st = Ok st' → later st st'.
Proof.
  unfold close_component. destruct (lowlink_of st n =? index_of st n).
  - destruct (pop_cycle n (nodeStack st)) as [[cycle rest]|]; simpl; [|done].
    destruct (1 <? length cycle)%nat; intros [= <-].
    + split; simpl; first [done|lia|by apply prefix_app_r].
    + split; simpl; first [done|lia].
  - intros [= <-]. apply later_refl.
Qed.

Lemma later_visit_children (rec : nat → state → result state) (n : nat) :
  (∀ c s s', rec c s = Ok s' → later s s') →
  ∀ children st st', visit_children rec n children st = Ok st' → later st st'.
Proof.
  intros Hrec. induction children as [|c rest IH]; intros st st'; simpl.
  - intros [= <-]. apply later_refl.
  - destruct (index_of st c =? -1).
    + destruct (rec c st) as [st1|] eqn:E; simpl; [|done]. intros H.
      eapply later_trans; [by eapply Hrec|].
      eapply later_trans; [apply later_set_lowlink|by eapply IH].
    + destruct (on_stack st c); [|apply IH]. intros H.
      eapply later_trans; [apply later_set_lowlink|by eapply IH].
Qed.

Lemma later_tarjan (fuel : nat) :
  ∀ n st st', tarjan fuel n st = Ok st' → later st st'.
Proof.
  induction fuel as [|f IH]; intros n st st'; [done|]. rewrite tarjan_S.
  destruct (visit_children (tarjan f) n (links_of st n) (enter n st)) as [st1|] eqn:E;
    simpl; [|done].
  intros H. eapply later_trans; [apply later_enter|].
  eapply later_trans; [|by eapply later_close].
  by eapply later_visit_children.
Qed.

(** X20.  A call of [tarjan], on any node and in any state from which it
    returns, changes the graph in the numbers only: the registry keeps its
    length, every node its name and its links; the counter is higher than
    before; the lines printed before the call are still there, at the
    head of the output; and the flag [cyclesDetected], once set, stays
    set. *)
Theorem tarjan_keeps_graph (fuel n : nat) (st st' : state) :
  tarjan fuel n st = Ok st' →
  length (nodes st') = length (nodes st) ∧
  (∀ v, name_of st' v = name_of st v ∧ links_of st' v = links_of st v) ∧
  indexCount st < indexCount st' ∧
  output st `prefix_of` output st' ∧
  (cyclesDetected st = true → cyclesDetected st' = true).
Proof.
  intros H. destruct (later_tarjan fuel n st st' H) as [L1 L2 L3 _ L5 L6].
  repeat split; try done.
  destruct fuel as [|f]; [done|]. rewrite tarjan_S in H.
  destruct (visit_children (tarjan f) n (links_of st n) (enter n st)) as [st1|] eqn:E;
    simpl in H; [|done].
  pose proof (later_visit_children (tarjan f) n (later_tarjan f) _ _ _ E) as [_ _ _ C1 _ _].
  pose proof (later_close n st1 st' H) as [_ _ _ C2 _ _].
  rewrite enter_count in C1. lia.
Qed.

Lemma tarjan_keeps_graph_witness :
  let st := initial [mkNode "a.h" [1%nat] (-1) 0; mkNode "b.h" [0%nat] (-1) 0] in
  let st' := mkState [mkNode "a.h" [1%nat] 0 0; mkNode "b.h" [0%nat] 1 0] [] 2
               ["Cyclic dependency detected:"; "b.h <- a.h <- b.h"] true in
  length (nodes st') = length (nodes st) ∧
  (∀ v, name_of st' v = name_of st v ∧ links_of st' v = links_of st v) ∧
  indexCount st < indexCount st' ∧
  output st `prefix_of` output st' ∧
  (cyclesDetected st = true → cyclesDetected st' = true).
Proof.
  intros st st'. apply (tarjan_keeps_graph 2 0 st st'). reflexivity.
Defined.

(** ** [main]: failures, and directories without directives *)

Lemma detect_returns (g : list Node) : fresh_graph g → ∃ out, detect g = Ok out.
Proof. intros Hf. destruct (detect_spec g Hf) as (groups & H & _). by eexists. Qed.

(** X22.  A directory without directives has no cycle to report: when no
    header of the directory yields a directive (an empty directory, one
    without headers, headers that include nothing or system headers only),
    [main] prints the summary line and nothing else. *)
Theorem no_directive_no_cycle (target : list (string * string)) :
  (∀ file text, (file, text) ∈ target → isValidFile file = true →
                includes_of text = []) →
  main target = Ok ["No cyclic dependencies detected."].
Proof.
  intros Hnone.
  assert (Hno : ∀ a b, ¬ includes target a b).
  { intros a b (text & Hin & Hv & inc & Hinc & _).
    rewrite (Hnone a text Hin Hv) in Hinc. by apply elem_of_nil in Hinc. }
  destruct (constructGraph target) as [g|e] eqn:E.
  - rewrite (main_detect target g E).
    destruct (constructGraph_fresh target g E) as [Hf _].
    apply single_components_no_report; [done|].
    intros u v Hc. destruct (decide (u = v)) as [|Huv]; [done|exfalso].
    destruct (connected_includes target g E u v Huv Hc) as (a & b & _ & _ & _ & H1 & _).
    destruct H1 as [a b H1|a x b H1 _]; by apply (Hno _ _ H1).
  - exfalso. unfold constructGraph in E.
    pose proof (proj2 (scan_files_raises _ _) e E) as ->.
    apply scan_files_raises in E as (file & text & inc & [Hin Hv]%elem_of_valid_files
                                     & Hinc & _).
    rewrite (Hnone file text Hin Hv) in Hinc. by apply elem_of_nil in Hinc.
Qed.

Lemma no_directive_no_cycle_witness :
  main [("a.hpp", "#include <vector>"); ("notes.txt", include_line "a.hpp")]
  = Ok ["No cyclic dependencies detected."].
Proof.
  apply (no_directive_no_cycle
           [("a.hpp", "#include <vector>"); ("notes.txt", include_line "a.hpp")]).
  intros file text Hin Hv.
  apply elem_of_cons in Hin as [[= -> ->]|Hin]; [reflexivity|].
  apply list_elem_of_singleton in Hin as [= -> ->]. discriminate Hv.
Defined.

(** ** The links of a header, in the order of its directives *)

Lemma named_functional (nodes : list Node) (i : nat) (n m : string) :
  named nodes i n → named nodes i m → n = m.
Proof. unfold named. congruence. Qed.

Lemma succ_unnamed (nodes : list Node) (i : nat) :
  (∀ n, ¬ named nodes i n) → succ nodes i = [].
Proof.
  intros H. unfold succ. destruct (nodes !! i) as [node|] eqn:E; [|done].
  exfalso. apply (H (name node)). unfold named. by rewrite E.
Qed.

Lemma scan_files_untouched files : ∀ nodes nodes' i n,
  scan_files files nodes = Ok nodes' →
  named nodes i n → n ∉ fst <$> files → succ nodes' i = succ nodes i.
Proof.
  induction files as [|[filename text] rest IH]; intros nodes nodes' i n; simpl.
  - by intros [= <-].
  - destruct (scan_file filename text nodes) as [nodes1|] eqn:E; simpl; [|done].
    rewrite not_elem_of_cons. intros H Hi [Hne Hn].
    destruct (scan_file_names _ _ _ _ E) as [Hprefix _].
    destruct (scan_file_links _ _ _ _ E) as (self & targets & Hself & _ & Hsucc).
    pose proof (named_prefix _ _ _ _ Hprefix Hi) as Hi1.
    rewrite (IH nodes1 nodes' i n H Hi1 Hn), Hsucc.
    case_decide; [|done]. subst i. by destruct (Hne (named_functional _ _ _ _ Hi1 Hself)).
Qed.

Lemma scan_files_links files : ∀ nodes nodes',
  scan_files files nodes = Ok nodes' →
  NoDup (fst <$> files) →
  (∀ i n, named nodes i n → n ∈ fst <$> files → succ nodes i = []) →
  ∀ file text, (file, text) ∈ files →
    ∃ i, named nodes' i file ∧
         Forall2 (fun inc t => ∃ f, Re.filenameRE_search inc = Some f ∧ named nodes' t f)
                 (includes_of text) (succ nodes' i).
Proof.
  induction files as [|[filename text0] rest IH]; intros nodes nodes'; simpl.
  - intros _ _ _ file text Hin. by apply elem_of_nil in Hin.
  - destruct (scan_file filename text0 nodes) as [nodes1|] eqn:E; simpl; [|done].
    rewrite NoDup_cons. intros H [Hfresh Hnd] Hleaf file text Hin.
    destruct (scan_file_names _ _ _ _ E) as [Hprefix1 _].
    pose proof (scan_files_names _ _ _ H) as Hprefix2.
    destruct (scan_file_links _ _ _ _ E) as (self & targets & Hself & Hall & Hsucc).
    assert (Hold : ∀ i n, named nodes1 i n → n ∈ filename :: (fst <$> rest) →
                          succ nodes i = []).
    { intros i n Hi Hn. destruct (nodes !! i) as [node|] eqn:Ei.
      - assert (Hi0 : named nodes i (name node)) by (unfold named; by rewrite Ei).
        rewrite (named_functional _ _ _ _ Hi (named_prefix _ _ _ _ Hprefix1 Hi0)) in Hn.
        by eapply Hleaf.
      - apply succ_unnamed. intros m Hm. unfold named in Hm. by rewrite Ei in Hm. }
    apply elem_of_cons in Hin as [[= -> ->]|Hin].
    + exists self. split; [by eapply named_prefix|].
      rewrite (scan_files_untouched rest nodes1 nodes' self filename H Hself Hfresh).
      rewrite Hsucc, decide_True by done.
      rewrite (Hold self filename Hself) by apply list_elem_of_here. simpl.
      eapply Forall2_impl; [done|]. intros inc t (f & Hf & Ht).
      exists f. split; [done|]. by eapply named_prefix.
    + apply (IH nodes1 nodes' H Hnd); [|done].
      intros i n Hi Hn. rewrite Hsucc. case_decide as Hd.
      * subst i. rewrite (named_functional _ _ _ _ Hi Hself) in Hn. done.
      * apply (Hold i n Hi). by apply elem_of_cons; right.
Qed.

Lemma NoDup_valid_files (target : list (string * string)) :
  NoDup (fst <$> target) →
  NoDup (fst <$> List.filter (fun entry => isValidFile (fst entry)) target).
Proof.
  induction target as [|[file text] rest IH]; [done|]. simpl.
  rewrite NoDup_cons. intros [Hfresh Hnd].
  destruct (isValidFile file); [|by apply IH]. simpl. apply NoDup_cons. split; [|by apply IH].
  intros Hin. apply Hfresh.
  apply list_elem_of_fmap in Hin as ([f t] & -> & [Hin _]%elem_of_valid_files).
  apply list_elem_of_fmap. by exists (f, t).
Qed.

(** X23.  The links of a header are its directives, one link per
    directive and in their order, repeated when a directive is: in a
    directory that lists no name twice, the node of a header has as many
    links as the text of the header yields directives, and each link
    points to the node named by the file name of its directive. *)
Theorem links_are_directives (target : list (string * string)) (g : list Node)
    (file text : string) :
  constructGraph target = Ok g →
  NoDup (fst <$> target) →
  (file, text) ∈ target → isValidFile file = true →
  ∃ i, named g i file ∧
       Forall2 (fun inc t => ∃ f, Re.filenameRE_search inc = Some f ∧ named g t f)
               (includes_of text) (succ g i).
Proof.
  intros H Hnd Hin Hv.
  apply (scan_files_links _ [] g H (NoDup_valid_files target Hnd)).
  - intros i n Hi. unfold named in Hi. by rewrite lookup_nil in Hi.
  - by apply elem_of_valid_files.
Qed.

Lemma links_are_directives_witness :
  let text := include_line "b.hpp" +:+ include_line "c.h" +:+ include_line "b.hpp" in
  let g := [mkNode "a.hpp" [1%nat; 2%nat; 1%nat] (-1) 0; mkNode "b.hpp" [] (-1) 0;
            mkNode "c.h" [] (-1) 0] in
  ∃ i, named g i "a.hpp" ∧
       Forall2 (fun inc t => ∃ f, Re.filenameRE_search inc = Some f ∧ named g t f)
               (includes_of text) (succ g i).
Proof.
  intros text g.
  apply (links_are_directives [("a.hpp", text); ("b.hpp", EmptyString)] g "a.hpp" text).
  - reflexivity.
  - by apply (bool_decide_unpack _).
  - apply list_elem_of_here.
  - reflexivity.
Defined.

(** ** [constructGraph] in any directory: when it fails *)

Lemma scan_entries_readable (files : list (string * string)) (nodes : list Node) :
  scan_entries (readable files) nodes = scan_files files nodes.
Proof.
  revert nodes. induction files as [|[filename text] rest IH]; intros nodes; [done|].
  simpl. destruct (scan_file filename text nodes) as [nodes1|e]; simpl; [apply IH|done].
Qed.

Lemma scan_entries_Ok (entries : list (string * option string)) (nodes nodes' : list Node) :
  scan_entries entries nodes = Ok nodes' →
  ∃ files, entries = readable files ∧ scan_files files nodes = Ok nodes'.
Proof.
  revert nodes. induction entries as [|[filename [text|]] rest IH]; intros nodes; simpl.
  - intros [= <-]. by exists [].
  - destruct (scan_file filename text nodes) as [nodes1|e] eqn:E; simpl; [|done].
    intros (files & -> & H)%IH. exists ((filename, text) :: files).
    split; [done|]. simpl. by rewrite E.
  - done.
Qed.

Lemma scan_file_result (filename text : string) (nodes : list Node) :
  (∃ nodes', scan_file filename text nodes = Ok nodes') ∨
  scan_file filename text nodes = Raise AttributeError.
Proof.
  destruct (scan_file filename text nodes) as [nodes'|e] eqn:E; [left; by eexists|right].
  by rewrite (proj2 (scan_file_raises filename text nodes) e E).
Qed.

(** The entries that the scan gets through: those that can be read and
    whose directives all hold a file name. *)
Lemma scan_entries_returns (entries : list (string * option string)) (nodes : list Node) :
  (∃ nodes', scan_entries entries nodes = Ok nodes') ↔
  ∀ file content, (file, content) ∈ entries →
    ∃ text, content = Some text ∧
            ∀ inc, inc ∈ includes_of text → Re.filenameRE_search inc ≠ None.
Proof.
  revert nodes. induction entries as [|[filename content] rest IH]; intros nodes.
  - split; [|by eexists]. intros _ file content Hin. by apply elem_of_nil in Hin.
  - simpl. destruct content as [text|].
    + destruct (scan_file_raises filename text nodes) as [Hiff _].
      destruct (scan_file_result filename text nodes) as [[nodes1 E]|E]; rewrite E; simpl.
      * rewrite IH. split.
        -- intros Hrest file content [[= -> ->]|Hin]%elem_of_cons; [|by apply (Hrest file)].
           exists text. split; [done|]. intros inc Hinc Hnone.
           assert (H : @Ok (list Node) nodes1 = Raise AttributeError); [|done].
           rewrite <- E. apply Hiff. by exists inc.
        -- intros Hall file content Hin. apply (Hall file). by apply elem_of_cons; right.
      * split; [by intros [? ?]|]. intros Hall. exfalso.
        destruct (proj1 Hiff E) as (inc & Hinc & Hnone).
        destruct (Hall filename (Some text)) as (text' & [= <-] & Hgood);
          [apply list_elem_of_here|].
        by apply (Hgood inc).
    + split; [by intros [? ?]|]. intros Hall. exfalso.
      destruct (Hall filename None) as (text & ? & _); [apply list_elem_of_here|done].
Qed.

(** The two ways in which the scan fails. *)
Lemma scan_entries_raises (entries : list (string * option string)) (nodes : list Node)
    (e : exn) :
  scan_entries entries nodes = Raise e →
  (e = IOError ∧ ∃ file, (file, None) ∈ entries) ∨
  (e = AttributeError ∧
   ∃ file text inc, (file, Some text) ∈ entries ∧ inc ∈ includes_of text ∧
                    Re.filenameRE_search inc = None).
Proof.
  revert nodes. induction entries as [|[filename [text|]] rest IH]; intros nodes; simpl.
  - done.
  - destruct (scan_file_raises filename text nodes) as [Hiff _].
    destruct (scan_file_result filename text nodes) as [[nodes1 E]|E]; rewrite E; simpl.
    + intros [[-> (file & Hin)]|[-> (file & text' & inc & Hin & Hrest)]]%IH.
      * left. split; [done|]. exists file. by apply elem_of_cons; right.
      * right. split; [done|]. exists file, text', inc.
        split; [by apply elem_of_cons; right|done].
    + intros [= <-]. right. split; [done|].
      destruct (proj1 Hiff E) as (inc & Hinc & Hnone).
      exists filename, text, inc. split; [apply list_elem_of_here|done].
  - intros [= <-]. left. split; [done|]. exists filename. apply list_elem_of_here.
Qed.

Lemma elem_of_valid_entries (target : list (string * option string))
    (file : string) (content : option string) :
  (file, content) ∈ List.filter (fun entry => isValidFile (fst entry)) target ↔
  (file, content) ∈ target ∧ isValidFile file = true.
Proof. by rewrite !list_elem_of_In, filter_In. Qed.

(** X12.  [constructGraph] returns a graph exactly when every header of
    the directory (a listed entry with a valid name) can be opened and
    read and each of its directives holds a file name.  It fails in two
    ways only: with the exception of [open], and then some header cannot
    be read (a subdirectory or an unreadable file with the name of a
    header is enough); or with the exception that the call of [group] on
    [None] raises, and then some header that can be read holds a directive
    in which [filenameRE] finds no file name. *)
Theorem constructGraph_raises (target : list (string * option string)) :
  ((∃ g, constructGraph_io target = Ok g) ↔
   ∀ file content, (file, content) ∈ target → isValidFile file = true →
     ∃ text, content = Some text ∧
             ∀ inc, inc ∈ includes_of text → Re.filenameRE_search inc ≠ None) ∧
  (∀ e, constructGraph_io target = Raise e →
     (e = IOError ∧ ∃ file, (file, None) ∈ target ∧ isValidFile file = true) ∨
     (e = AttributeError ∧
      ∃ file text inc, (file, Some text) ∈ target ∧ isValidFile file = true ∧
                       inc ∈ includes_of text ∧ Re.filenameRE_search inc = None)).
Proof.
  unfold constructGraph_io. split.
  - rewrite scan_entries_returns. split.
    + intros H file content Hin Hv. apply (H file content).
      by apply elem_of_valid_entries.
    + intros H file content [Hin Hv]%elem_of_valid_entries. by apply (H file).
  - intros e [[-> (file & [Hin Hv]%elem_of_valid_entries)]
             |[-> (file & text & inc & [Hin Hv]%elem_of_valid_entries & Hinc & Hnone)]]
             %scan_entries_raises.
    + left. split; [done|]. by exists file.
    + right. split; [done|]. by exists file, text, inc.
Qed.

Lemma filter_readable (target : list (string * string)) :
  List.filter (fun entry => isValidFile (fst entry)) (readable target)
  = readable (List.filter (fun entry => isValidFile (fst entry)) target).
Proof.
  induction target as [|[file text] rest IH]; [done|].
  change (readable ((file, text) :: rest)) with ((file, Some text) :: readable rest).
  simpl. destruct (isValidFile file); [|done].
  change (readable ((file, text) :: List.filter (fun entry => isValidFile (fst entry)) rest))
    with ((file, Some text)
            :: readable (List.filter (fun entry => isValidFile (fst entry)) rest)).
  by rewrite IH.
Qed.

(** On a directory whose entries can all be read, [constructGraph_io] is
    [constructGraph]. *)
Lemma constructGraph_io_readable (target : list (string * string)) :
  constructGraph_io (readable target) = constructGraph target.
Proof.
  unfold constructGraph_io, constructGraph.
  by rewrite filter_readable, scan_entries_readable.
Qed.

Example unreadable_header_scenario :
  constructGraph_io [("a.hpp", Some (include_line "b.hpp")); ("b.hpp", None)]
  = Raise IOError ∧
  constructGraph_io [("a.hpp", Some (include_line "b.hpp")); ("notes.txt", None)]
  = Ok [mkNode "a.hpp" [1%nat] (-1) 0; mkNode "b.hpp" [] (-1) 0].
Proof. split; reflexivity. Qed.

(** ** [main] in any directory: when it fails *)

(** An answer of [tarjan] that is not the exhaustion of the depth allowed
    is its answer at any greater depth. *)
Lemma visit_children_more_fuel (rec rec' : nat → state → result state) (n : nat) :
  (∀ c s r, rec c s = r → r ≠ Raise RecursionError → rec' c s = r) →
  ∀ children st r,
    visit_children rec n children st = r → r ≠ Raise RecursionError →
    visit_children rec' n children st = r.
Proof.
  intros Hrec. induction children as [|c rest IH]; intros st r; simpl; [done|].
  destruct (index_of st c =? -1); [|destruct (on_stack st c); apply IH].
  destruct (rec c st) as [st1|e] eqn:E; simpl.
  - rewrite (Hrec c st (Ok st1) E) by done. simpl. apply IH.
  - intros <- He. rewrite (Hrec c st (Raise e) E) by done. done.
Qed.

Lemma tarjan_more_fuel (fuel : nat) :
  ∀ n st r, tarjan fuel n st = r → r ≠ Raise RecursionError → tarjan (S fuel) n st = r.
Proof.
  induction fuel as [|f IH]; intros n st r.
  - simpl. by intros <-.
  - rewrite (tarjan_S (S f)), (tarjan_S f). intros H Hr.
    destruct (visit_children (tarjan f) n (links_of st n) (enter n st)) as [st1|e] eqn:E.
    + by rewrite (visit_children_more_fuel _ (tarjan (S f)) n IH _ _ _ E).
    + assert (He : @Raise state e ≠ Raise RecursionError) by (simpl in H; congruence).
      by rewrite (visit_children_more_fuel _ (tarjan (S f)) n IH _ _ _ E He).
Qed.

Lemma tarjan_fuel_le (fuel fuel' : nat) (n : nat) (st : state) (r : result state) :
  (fuel ≤ fuel')%nat →
  tarjan fuel n st = r → r ≠ Raise RecursionError → tarjan fuel' n st = r.
Proof.
  induction 1 as [|m _ IH]; [done|]. intros H Hr. apply tarjan_more_fuel; [|done].
  by apply IH.
Qed.

Lemma run_roots_fuel_le (fuel fuel' : nat) (roots : list nat) :
  (fuel ≤ fuel')%nat →
  ∀ st r, run_roots fuel roots st = r → r ≠ Raise RecursionError →
          run_roots fuel' roots st = r.
Proof.
  intros Hle. induction roots as [|node rest IH]; intros st r; simpl; [done|].
  destruct (tarjan fuel node st) as [st1|e] eqn:E; simpl.
  - rewrite (tarjan_fuel_le fuel fuel' node st _ Hle E) by done. simpl. apply IH.
  - intros <- He. rewrite (tarjan_fuel_le fuel fuel' node st _ Hle E) by done. done.
Qed.

Lemma detect_within_fuel_le (fuel fuel' : nat) (g : list Node) (r : result (list string)) :
  (fuel ≤ fuel')%nat →
  detect_within fuel g = r → r ≠ Raise RecursionError → detect_within fuel' g = r.
Proof.
  intros Hle. unfold detect_within.
  destruct (run_roots fuel (seq 0 (length g)) (initial g)) as [st|e] eqn:E; simpl.
  - intros <- _. by rewrite (run_roots_fuel_le fuel fuel' _ Hle _ _ E).
  - intros <- He. rewrite (run_roots_fuel_le fuel fuel' _ Hle _ _ E); [done|].
    intros [= ->]. done.
Qed.

(** With the depth that the number of nodes asks for, or more,
    [detect_within] is [detect]; with less, it gives the same report or
    fails for the depth. *)
Lemma detect_within_enough (limit : nat) (g : list Node) :
  fresh_graph g → (length g ≤ limit)%nat → detect_within limit g = detect g.
Proof.
  intros Hf Hle. destruct (detect_returns g Hf) as [out Hout].
  rewrite Hout. by apply (detect_within_fuel_le (length g) limit g (Ok out) Hle).
Qed.

Lemma detect_within_result (limit : nat) (g : list Node) :
  fresh_graph g →
  detect_within limit g = detect g ∨
  (detect_within limit g = Raise RecursionError ∧ (limit < length g)%nat).
Proof.
  intros Hf. destruct (decide (length g ≤ limit)%nat) as [Hle|Hlt].
  - left. by apply detect_within_enough.
  - destruct (detect_within limit g) as [out|e] eqn:E.
    + left. symmetry. apply (detect_within_fuel_le limit (length g) g (Ok out)); [lia|done..].
    + assert (e = RecursionError ∨ e ≠ RecursionError) as [->|He]
        by (destruct e; (by left) || (by right)).
      { right. split; [done|lia]. }
      left. symmetry. apply (detect_within_fuel_le limit (length g) g (Raise e)); [lia|done|].
      by intros [= ->].
Qed.

Lemma constructGraph_io_fresh (target : list (string * option string)) (g : list Node) :
  constructGraph_io target = Ok g → fresh_graph g.
Proof.
  unfold constructGraph_io. intros (files & _ & H)%scan_entries_Ok.
  pose proof (scan_files_ok _ _ _ H registry_ok_nil) as [_ Hl].
  pose proof (unnumbered_scan_files _ _ _ H (Forall_nil_2 _)) as Hi.
  unfold fresh_graph. rewrite Forall_forall in Hi, Hl. apply Forall_forall.
  intros node Hnode. split; [by apply Hi|by apply Hl].
Qed.

(** X21.  What makes [main] fail.  [main] fails where [constructGraph]
    fails, with its exception: the one of [open] on a header that cannot
    be read, or the one of a directive without a file name.  Once the
    graph is built, [main] fails in one way only: for the depth of the
    recursion of [tarjan], and only under an interpreter that allows
    less depth than the graph has nodes.  The traversal never pops an
    empty stack. *)
Theorem main_raises (limit : nat) (target : list (string * option string)) (e : exn) :
  main_io limit target = Raise e →
  (constructGraph_io target = Raise e ∧ (e = IOError ∨ e = AttributeError)) ∨
  (e = RecursionError ∧
   ∃ g, constructGraph_io target = Ok g ∧ (limit < length g)%nat).
Proof.
  unfold main_io. destruct (constructGraph_io target) as [g|e'] eqn:E; simpl.
  - intros H. right.
    destruct (detect_within_result limit g (constructGraph_io_fresh target g E))
      as [Hsame|[Hrec Hlt]].
    + destruct (detect_returns g (constructGraph_io_fresh target g E)) as [out Hout].
      congruence.
    + split; [congruence|]. by exists g.
  - intros [= ->]. left. split; [done|].
    unfold constructGraph_io in E.
    destruct (scan_entries_raises _ _ _ E) as [[-> _]|[-> _]]; auto.
Qed.

Lemma main_raises_witness :
  (constructGraph_io [("a.hpp", Some (include_line "b.hpp")); ("b.hpp", None)]
   = Raise IOError ∧ (IOError = IOError ∨ IOError = AttributeError)) ∨
  (IOError = RecursionError ∧
   ∃ g, constructGraph_io [("a.hpp", Some (include_line "b.hpp")); ("b.hpp", None)]
        = Ok g ∧ (1000 < length g)%nat).
Proof.
  apply (main_raises 1000 [("a.hpp", Some (include_line "b.hpp")); ("b.hpp", None)]).
  reflexivity.
Defined.

(** With enough depth, and in a directory whose entries can all be read,
    [main_io] is [main]. *)
Lemma main_io_readable (limit : nat) (target : list (string * string)) (g : list Node) :
  constructGraph target = Ok g → (length g ≤ limit)%nat →
  main_io limit (readable target) = main target.
Proof.
  intros H Hle. unfold main_io, main. rewrite constructGraph_io_readable, H. simpl.
  apply detect_within_enough; [|done]. by destruct (constructGraph_fresh target g H).
Qed.

Example shallow_interpreter_scenario :
  main_io 1 [("a.hpp", Some (include_line "b.hpp")); ("b.hpp", Some EmptyString)]
  = Raise RecursionError ∧
  main_io 2 [("a.hpp", Some (include_line "b.hpp")); ("b.hpp", Some EmptyString)]
  = Ok ["No cyclic dependencies detected."].
Proof. split; reflexivity. Qed.

(** ** Headers that are included but not scanned, and the report *)

(** A name that is not in the listing includes nothing. *)
Lemma absent_includes_nothing (target : list (string * string)) (f b : string) :
  f ∉ fst <$> target → ¬ tc (includes target) f b.
Proof.
  intros Hf Htc.
  assert (H : ∃ x, includes target f x).
  { destruct Htc as [f b H|f x b H _]; by eexists. }
  destruct H as (x & text & Hin & _). apply Hf.
  apply list_elem_of_fmap. by exists (f, text).
Qed.

(** Every node of a reported group has a link. *)
Lemma group_member_has_edge (g : list Node) (grp : list nat) (u : nat) :
  is_scc g grp → NoDup grp → (2 ≤ length grp)%nat → u ∈ grp → ∃ x, edge g u x.
Proof.
  intros [r Hr] Hnd Hlen Hu.
  destruct (two_of_long grp Hnd) as (x & y & Hx & Hy & Hxy); [lia|].
  assert (∃ w, w ∈ grp ∧ u ≠ w) as (w & Hw & Huw).
  { destruct (decide (x = u)) as [->|?]; [exists y|exists x]; split; done. }
  assert (Hc : connected g u w).
  { apply (connected_trans g u r w); [|by apply Hr].
    destruct (proj1 (Hr u) Hu). by split. }
  destruct Hc as [Hreach _]. destruct Hreach as [|u x' w He _]; [done|by exists x'].
Qed.

(** C8 (amended).  When [constructGraph] returns a graph and the text of
    a scanned header yields a file name that is not in the directory
    listing, the graph has a node of that name, only one, and it has no
    outgoing links.  Having none, the node is in none of the groups that
    [main] reports, and its name is in none of the chains: every group
    reported is a strongly connected component of two nodes or more, and
    the node is alone in its own. *)
Theorem absent_header_is_leaf target g file text f :
  constructGraph target = Ok g →
  (file, text) ∈ target → isValidFile file = true →
  extracted text f →
  f ∉ fst <$> target →
  ∃ i node, g !! i = Some node ∧ name node = f ∧ links node = [] ∧
            (∀ j, named g j f → j = i) ∧
            (∀ b, ¬ tc (includes target) f b) ∧
            ∃ groups,
              main target = Ok (match groups with
                                | [] => ["No cyclic dependencies detected."]
                                | _ => flat_map (cycle_lines g) groups
                                end) ∧
              Forall (fun grp => is_scc g grp ∧ (2 ≤ length grp)%nat ∧
                                 (i ∉ grp) ∧ (f ∉ name_of (initial g) <$> grp)) groups.
Proof.
  intros Hg Hin Hvalid Hf Habsent.
  destruct (absent_header_node target g file text f Hg Hin Hvalid Hf Habsent)
    as (i & node & Hi & Hname & Hlinks & Huniq).
  exists i, node. do 4 (split; [done|]).
  split; [intros b; by apply absent_includes_nothing|].
  destruct (constructGraph_fresh target g Hg) as [Hfresh _].
  destruct (detect_reported g Hfresh) as (groups & Hrun & Hgroups & _ & _).
  exists groups. split.
  { unfold main. rewrite Hg. exact Hrun. }
  eapply Forall_impl; [done|]. intros grp (Hscc & Hnd & Hlen). simpl.
  assert (Hleaf : i ∉ grp).
  { intros Hi'. destruct (group_member_has_edge g grp i Hscc Hnd Hlen Hi') as [x Hx].
    unfold edge, succ in Hx. rewrite Hi, Hlinks in Hx. by apply elem_of_nil in Hx. }
  do 3 (split; [done|]).
  intros (u & Hu & Hin')%list_elem_of_fmap. apply Hleaf.
  destruct (group_member_has_edge g grp u Hscc Hnd Hlen Hin') as [x Hx].
  assert (Hnamed : named g u f).
  { unfold edge, succ in Hx. unfold named. rewrite Hu. unfold name_of. simpl.
    destruct (g !! u); [done|by apply elem_of_nil in Hx]. }
  by rewrite <- (Huniq u Hnamed).
Qed.

Lemma absent_header_is_leaf_witness :
  let target := [("a.hpp", include_line "b.hpp" +:+ include_line "gone.h");
                 ("b.hpp", include_line "a.hpp")] in
  let g := [mkNode "a.hpp" [1%nat; 2%nat] (-1) 0; mkNode "b.hpp" [0%nat] (-1) 0;
            mkNode "gone.h" [] (-1) 0] in
  ∃ i node, g !! i = Some node ∧ name node = "gone.h" ∧ links node = [] ∧
            (∀ j, named g j "gone.h" → j = i) ∧
            (∀ b, ¬ tc (includes target) "gone.h" b) ∧
            ∃ groups,
              main target = Ok (match groups with
                                | [] => ["No cyclic dependencies detected."]
                                | _ => flat_map (cycle_lines g) groups
                                end) ∧
              Forall (fun grp => is_scc g grp ∧ (2 ≤ length grp)%nat ∧
                                 (i ∉ grp) ∧ ("gone.h" ∉ name_of (initial g) <$> grp)) groups.
Proof.
  intros target g.
  apply (absent_header_is_leaf target g
           "a.hpp" (include_line "b.hpp" +:+ include_line "gone.h") "gone.h").
  - reflexivity.
  - apply list_elem_of_here.
  - reflexivity.
  - exists ("#include " +:+ quoted "gone.h"). split.
    + vm_compute. apply elem_of_cons; right. apply list_elem_of_here.
    + reflexivity.
  - by apply (bool_decide_unpack _).
Defined.

Lemma chain_mentions (names : list string) (n : string) :
  n ∈ names → occurs n (chain names) = true.
Proof.
  assert (Happ : ∀ a b, occurs n b = true → occurs n (a +:+ b) = true).
  { intros a b Hb. induction a as [|c a IH]; [done|]. rewrite str_app_cons.
    simpl. rewrite IH. by destruct (prefix_rest n (String c (a +:+ b))). }
  assert (Hhere : ∀ b, occurs n (n +:+ b) = true).
  { intros b. apply (occurs_prefix n _ b). apply prefix_rest_app. }
  unfold chain. generalize (hd EmptyString names).
  induction names as [|m rest IH]; intros first Hin; [by apply elem_of_nil in Hin|].
  simpl. apply elem_of_cons in Hin as [->|Hin]; [apply Hhere|].
  apply Happ, Happ. by apply IH.
Qed.

(** C8 (counterexample).  A directory with a cycle between two headers,
    one of which includes a file that is not in the directory: the graph
    has the node of the absent file, without links, and the chain that
    [main] prints is not one of a list of names that holds its name: the
    name occurs nowhere in the lines printed. *)
Lemma absent_header_not_in_chain :
  let target := [("a.hpp", include_line "b.hpp" +:+ include_line "gone.h");
                 ("b.hpp", include_line "a.hpp")] in
  constructGraph target
  = Ok [mkNode "a.hpp" [1%nat; 2%nat] (-1) 0; mkNode "b.hpp" [0%nat] (-1) 0;
        mkNode "gone.h" [] (-1) 0] ∧
  extracted (include_line "b.hpp" +:+ include_line "gone.h") "gone.h" ∧
  ("gone.h" ∉ fst <$> target) ∧
  main target = Ok ["Cyclic dependency detected:"; "b.hpp <- a.hpp <- b.hpp"] ∧
  ¬ ∃ names, chain names ∈ ["Cyclic dependency detected:"; "b.hpp <- a.hpp <- b.hpp"]
             ∧ "gone.h" ∈ names.
Proof.
  intros target. split; [reflexivity|]. split.
  { exists ("#include " +:+ quoted "gone.h"). split; [|reflexivity].
    vm_compute. apply elem_of_cons; right. apply list_elem_of_here. }
  split; [by apply (bool_decide_unpack _)|]. split; [reflexivity|].
  intros (names & Hline & Hin). apply chain_mentions in Hin.
  apply elem_of_cons in Hline as [Hl|Hline]; [rewrite Hl in Hin; discriminate Hin|].
  apply list_elem_of_singleton in Hline. rewrite Hline in Hin. discriminate Hin.
Qed.
